(** * GuitarRecognitionJam: pitch pipeline, chord matcher and lick trainer

    A shallow embedding of the algorithmic core of the repository:

    - [JS]           : the JavaScript array, string and number operations
                       the code relies on
    - [Constants]    : [NOTE_NAMES], [getNoteFromFrequency], [CHORD_TYPES],
                       [identifyChord]                 (constants.ts)
    - [App]          : [autoCorrelate] and the [update] closure of
                       [detectPitch]                   (App.tsx)
    - [SpeedTrainer] : the learn / lock / train state machine of the
                       component of the same name      (SpeedTrainer.tsx)
    - [Session]      : event sequences for the scenarios

    followed by the properties of each component.

    JavaScript numbers that hold counts, indices, BPM values and millisecond
    clock readings are integers in every run of the program and are modelled
    by [Z]; numbers that come out of a division (beat period, timing offsets,
    correlation sums, frequencies) are modelled by exact rationals [Q], so
    the rounding of IEEE doubles is not part of the model. *)

From Stdlib Require Import ZArith QArith Qabs Qpower List String Ascii Bool.
From Stdlib Require Import Lia Lqa Sorted Permutation DecimalString.
Import ListNotations.

Local Open Scope Z_scope.

(** ** JavaScript helpers *)

Module JS.

(** [arr[i]] for an integer-valued index: [undefined] (here [None]) outside
    the array. *)
Definition get {A : Type} (l : list A) (i : Z) : option A :=
  if i <? 0 then None else nth_error l (Z.to_nat i).

Definition len {A : Type} (l : list A) : Z := Z.of_nat (List.length l).

(** Relative index of [Array.prototype.slice]: negative counts from the
    end, everything is clamped to [0 .. len]. *)
Definition relIndex (n i : Z) : Z :=
  if i <? 0 then Z.max (n + i) 0 else Z.min i n.

(** [arr.slice(start, end)] *)
Definition slice {A : Type} (l : list A) (start stop : Z) : list A :=
  let s := relIndex (len l) start in
  let e := relIndex (len l) stop in
  firstn (Z.to_nat (e - s)) (skipn (Z.to_nat s) l).

(** [arr.slice(start)] *)
Definition sliceFrom {A : Type} (l : list A) (start : Z) : list A :=
  slice l start (len l).

(** [`${n}`] for an integer [n]. *)
Definition showInt (n : Z) : string := NilZero.string_of_int (Z.to_int n).

(** [`${x}`] for a possibly [undefined] string. *)
Definition showStr (x : option string) : string :=
  match x with Some s => s | None => "undefined" end.

(** [\d] *)
Definition isDigit (c : ascii) : bool :=
  let n := nat_of_ascii c in (48 <=? n)%nat && (n <=? 57)%nat.

(** [s.split(/\d/)[0]]: the part of [s] before its first digit. *)
Fixpoint beforeDigit (s : string) : string :=
  match s with
  | EmptyString => EmptyString
  | String c r => if isDigit c then EmptyString else String c (beforeDigit r)
  end.

(** [arr.indexOf(x)] on an array of strings, [-1] when absent. *)
Fixpoint indexOfFrom (x : string) (l : list string) (i : Z) : Z :=
  match l with
  | [] => -1
  | y :: r => if String.eqb y x then i else indexOfFrom x r (i + 1)
  end.

Definition indexOf (l : list string) (x : string) : Z := indexOfFrom x l 0.

(** [arr.includes(x)] on an array of integers. *)
Definition includes (l : list Z) (x : Z) : bool := existsb (Z.eqb x) l.

(** [Array.from(new Set(arr))]: first occurrences, in insertion order. *)
Definition setAdd (acc : list Z) (x : Z) : list Z :=
  if includes acc x then acc else acc ++ [x].

Definition arrayFromSet (l : list Z) : list Z := fold_left setAdd l [].

(** [arr.sort((a, b) => a - b)]: ascending numeric order. *)
Fixpoint insertSorted (x : Z) (l : list Z) : list Z :=
  match l with
  | [] => [x]
  | y :: r => if x <=? y then x :: l else y :: insertSorted x r
  end.

Definition sortNum (l : list Z) : list Z := fold_right insertSorted [] l.

(** [JSON.stringify(a) === JSON.stringify(b)] on arrays of strings:
    element-wise equality. *)
Fixpoint sameSeq (a b : list string) : bool :=
  match a, b with
  | [], [] => true
  | x :: a', y :: b' => String.eqb x y && sameSeq a' b'
  | _, _ => false
  end.

(** Strict comparison of rationals, [x < y]. *)
Definition Qltb (x y : Q) : bool := negb (Qle_bool y x).

End JS.

(** ** constants.ts *)

Module Constants.

Local Open Scope string_scope.
Local Open Scope Z_scope.

Definition NOTE_NAMES : list string :=
  ["C"; "C#"; "D"; "D#"; "E"; "F"; "F#"; "G"; "G#"; "A"; "A#"; "B"].

(** The integer-valued numbers [getNoteFromFrequency] can produce. *)
Inductive jsint : Type :=
| Int (z : Z)
| NegInfinity
| NaN.

(** [floor (log2 x)] for a positive rational [x = p / q]: the integer [k]
    with [2^k <= x < 2^(k+1)]. *)
Definition floorLog2 (x : Q) : Z :=
  let p := Qnum x in
  let q := Zpos (Qden x) in
  let lp := Z.log2 p in
  let lq := Z.log2 q in
  if q * 2 ^ lp <=? p * 2 ^ lq then lp - lq else lp - lq - 1.

(** [Math.round(12 * (Math.log(r) / Math.log(2)))] for [r > 0], on exact
    reals.  [Math.round y] is [floor (y + 1/2)], and with [y = 12 log2 r]
    this is [floor ((24 log2 r + 1) / 2) = floor ((floor (log2 (r^24)) + 1) / 2)].
    The code computes [y] in binary64 with an approximate [Math.log]: for a
    ratio within rounding of a half-semitone boundary it can give the
    neighbouring integer, and for a ratio that underflows to 0 it gives
    -Infinity ([Binary64] below delimits where the two agree). *)
Definition roundSemitones (r : Q) : Z := (floorLog2 (r ^ 24) + 1) / 2.

(** The absolute semitone index of a positive frequency. *)
Definition semitoneIndex (f : Q) : Z := roundSemitones (f / 440) + 69.

(** [Math.round(noteNum) + 69].  [Math.log] is [-Infinity] at [0] and [NaN]
    below it. *)
Definition roundedNote (frequency : Q) : jsint :=
  if JS.Qltb frequency 0 then NaN
  else if Qeq_bool frequency 0 then NegInfinity
  else Int (semitoneIndex frequency).

Record Note : Type := mkNote {
  name : option string;      (* [undefined] is [None] *)
  octave : jsint;
  noteNum : jsint
}.

Definition getNoteFromFrequency (frequency : Q) : Note :=
  let roundedNote := roundedNote frequency in
  let name :=
    match roundedNote with
    | Int z => JS.get NOTE_NAMES (Z.rem z 12)
    | _ => None
    end in
  let octave :=
    match roundedNote with
    | Int z => Int (z / 12 - 1)
    | NegInfinity => NegInfinity
    | NaN => NaN
    end in
  mkNote name octave roundedNote.

(** The field [name] of [ChordDefinition] and of the result of
    [identifyChord] are [chordName] and [matchName] here. *)
Record ChordDefinition : Type := mkChord {
  chordName : string;
  intervals : list Z;
  suffix : string
}.

Definition CHORD_TYPES : list ChordDefinition :=
  [ mkChord "Major" [0; 4; 7] "";
    mkChord "Minor" [0; 3; 7] "m";
    mkChord "Major 7th" [0; 4; 7; 11] "Maj7";
    mkChord "Minor 7th" [0; 3; 7; 10] "m7";
    mkChord "Dominant 7th" [0; 4; 7; 10] "7";
    mkChord "Suspended 4th" [0; 5; 7] "sus4";
    mkChord "Suspended 2nd" [0; 2; 7] "sus2";
    mkChord "Diminished" [0; 3; 6] "dim";
    mkChord "Augmented" [0; 4; 8] "aug";
    mkChord "Power Chord" [0; 7] "5" ].

Record ChordMatch : Type := mkMatch {
  matchName : string;
  root : option string;
  type : string;
  notes : list (option string)
}.

(** Step 1 of [identifyChord]: note names to sorted unique indices. *)
Definition noteIndices (notes : list string) : list Z :=
  JS.sortNum
    (JS.arrayFromSet (map (fun n => JS.indexOf NOTE_NAMES (JS.beforeDigit n)) notes)).

Definition relativeIntervals (noteIndices : list Z) (root : Z) : list Z :=
  JS.sortNum (map (fun idx => Z.rem (idx - root + 12) 12) noteIndices).

Definition isMatch (relativeIntervals : list Z) (t : ChordDefinition) : bool :=
  forallb (JS.includes relativeIntervals) (intervals t).

(** The inner [for (const type of CHORD_TYPES)] loop. *)
Fixpoint firstType (root : Z) (rel : list Z) (types : list ChordDefinition)
  : option ChordMatch :=
  match types with
  | [] => None
  | t :: rest =>
      if isMatch rel t then
        Some (mkMatch (JS.showStr (JS.get NOTE_NAMES root) ++ suffix t)%string
                      (JS.get NOTE_NAMES root)
                      (chordName t)
                      (map (fun int => JS.get NOTE_NAMES (Z.rem (root + int) 12))
                           (intervals t)))
      else firstType root rel rest
  end.

(** The outer [for (rootIdx ...)] loop over the candidate roots. *)
Fixpoint firstRoot (noteIndices roots : list Z) : option ChordMatch :=
  match roots with
  | [] => None
  | root :: rest =>
      match firstType root (relativeIntervals noteIndices root) CHORD_TYPES with
      | Some m => Some m
      | None => firstRoot noteIndices rest
      end
  end.

Definition identifyChord (notes : list string) : option ChordMatch :=
  if JS.len notes <? 2 then None
  else let idx := noteIndices notes in firstRoot idx idx.

End Constants.

(** ** App.tsx: the autocorrelator and the note stream *)

Module App.

Local Open Scope Q_scope.

(** [const correlationBuffer = new Float32Array(2048)] *)
Definition correlationBufferSize : nat := 2048.

(** Reads of the frame and of the correlation buffer.  Every index the
    function reads is inside the array as long as the frame is no longer
    than the correlation buffer (the caller passes [fftSize = 2048]
    samples), so the default value is never observed for such frames. *)
Definition at_ (a : list Q) (i : nat) : Q := nth i a 0.

(** A typed-array store: a write outside the array is dropped. *)
Fixpoint store (a : list Q) (i : nat) (v : Q) : list Q :=
  match a, i with
  | [], _ => []
  | _ :: r, O => v :: r
  | x :: r, S j => x :: store r j v
  end.

(** [for (i = 0; i < SIZE; i++) rms += buf[i] * buf[i]] *)
Definition sumSquares (buf : list Q) : Q :=
  fold_left (fun rms x => rms + x * x) buf 0.

(** [rms = Math.sqrt(rms / SIZE); if (rms < 0.005) ...]: both sides are
    non-negative, so the test is taken on the squares.  For an empty frame
    [0 / 0] is [NaN], and [NaN < 0.005] is false. *)
Definition isSilent (buf : list Q) : bool :=
  if (JS.len buf =? 0)%Z then false
  else JS.Qltb (sumSquares buf / inject_Z (JS.len buf)) ((5 # 1000) * (5 # 1000)).

(** [const maxOffset = SIZE / 2] *)
Definition maxOffset (buf : list Q) : Q := inject_Z (JS.len buf) / 2.

(** The number of integers [i >= 0] with [i < maxOffset]: the trip count
    of both [for]-loops over the lags. *)
Definition lagCount (buf : list Q) : nat := Nat.div2 (S (List.length buf)).

(** The inner loop: [sum += buf[i] * buf[i + offset]]. *)
Definition correlationAt (buf : list Q) (offset : nat) : Q :=
  fold_left (fun sum i => sum + at_ buf i * at_ buf (i + offset))
            (seq 0 (lagCount buf)) 0.

(** [correlationBuffer.fill(0)] followed by the outer loop.  The sums are
    taken exactly; the Float32Array of the code rounds each sum to binary32
    when it is stored, which can change which lag holds the largest value.
    What is stated of the peak search is therefore stated of any contents of
    the buffer ([firstDip] and [findPeak] take them as an argument). *)
Definition correlate (buf : list Q) : list Q :=
  fold_left (fun corr offset => store corr offset (correlationAt buf offset))
            (seq 0 (lagCount buf)) (repeat 0 correlationBufferSize).

(** [while (corr[d] > corr[d + 1] && d < maxOffset) d++].  [d] grows by
    one per round and only while it is below [maxOffset], so [lagCount]
    rounds of fuel are never exhausted before the test fails. *)
Fixpoint firstDip (corr : list Q) (maxOffset : Q) (fuel d : nat) : nat :=
  match fuel with
  | O => d
  | S fuel' =>
      if JS.Qltb (at_ corr (S d)) (at_ corr d)
         && JS.Qltb (inject_Z (Z.of_nat d)) maxOffset
      then firstDip corr maxOffset fuel' (S d)
      else d
  end.

(** One round of [if (corr[i] > maxval) { maxval = corr[i]; maxpos = i }]. *)
Definition peakStep (corr : list Q) (acc : Q * Z) (i : nat) : Q * Z :=
  if JS.Qltb (fst acc) (at_ corr i) then (at_ corr i, Z.of_nat i) else acc.

(** [for (i = d; i < maxOffset; i++)] from [maxval = -1, maxpos = -1]. *)
Definition findPeak (corr : list Q) (d n : nat) : Q * Z :=
  fold_left (peakStep corr) (seq d (n - d)) (-1, (-1)%Z).

(** The state of the peak search after the lags [d .. j-1]: nothing above
    -1 seen so far, or [maxpos] is the first largest value among them. *)
Definition peakInv (corr : list Q) (d j : nat) (acc : Q * Z) : Prop :=
  (snd acc = (-1)%Z /\ forall i, (d <= i < j)%nat -> at_ corr i <= -1)
  \/ (exists mp : nat,
        snd acc = Z.of_nat mp /\ fst acc = at_ corr mp /\ (d <= mp < j)%nat
        /\ (forall i, (d <= i < j)%nat -> at_ corr i <= at_ corr mp)
        /\ (forall i, (d <= i < mp)%nat -> at_ corr i < at_ corr mp)).

(** Parabolic interpolation around [maxpos]. *)
Definition interpolate (corr : list Q) (maxOffset : Q) (maxpos : Z) : Q :=
  if (0 <? maxpos)%Z && JS.Qltb (inject_Z maxpos) (maxOffset - 1) then
    let x0 := at_ corr (Z.to_nat (maxpos - 1)) in
    let x1 := at_ corr (Z.to_nat maxpos) in
    let x2 := at_ corr (Z.to_nat (maxpos + 1)) in
    let a := (x0 + x2 - 2 * x1) / 2 in
    let b := (x2 - x0) / 2 in
    if negb (Qeq_bool a 0) then inject_Z maxpos - b / (2 * a)
    else inject_Z maxpos
  else inject_Z maxpos.

(** The integer lag the peak search selects ([maxpos], [-1] for none). *)
Definition peakLag (buf : list Q) : Z :=
  let corr := correlate buf in
  let d := firstDip corr (maxOffset buf) (lagCount buf) 0 in
  snd (findPeak corr d (lagCount buf)).

(** The lag after sub-sample refinement ([finalPos]). *)
Definition refinedLag (buf : list Q) : Q :=
  interpolate (correlate buf) (maxOffset buf) (peakLag buf).

(** The sentinel [-1]. *)
Definition noPitch : Q := -1.

Definition autoCorrelate (buf : list Q) (sampleRate : Q) : Q :=
  if isSilent buf then noPitch
  else
    let maxpos := peakLag buf in
    if (maxpos =? -1)%Z || (maxpos =? 0)%Z then noPitch
    else sampleRate / refinedLag buf.

Record NoteData : Type := mkNoteData {
  note : string;
  frequency : Q;
  confidence : Q;
  timestamp : Z
}.

Record State : Type := mkState {
  currentNote : option NoteData;
  detectedNotes : list (option string)     (* a [Set], in insertion order *)
}.

(** [freq !== -1 && freq > 20 && freq < 4000] *)
Definition inRange (freq : Q) : bool :=
  negb (Qeq_bool freq noPitch) && JS.Qltb 20 freq && JS.Qltb freq 4000.

Definition showJsint (n : Constants.jsint) : string :=
  match n with
  | Constants.Int z => JS.showInt z
  | Constants.NegInfinity => "-Infinity"
  | Constants.NaN => "NaN"
  end.

(** [`${name}${octave}`] *)
Definition label (n : Constants.Note) : string :=
  (JS.showStr (Constants.name n) ++ showJsint (Constants.octave n))%string.

(** The guard of the [setCurrentNote] updater: the previous object is
    returned unchanged. *)
Definition keepsPrev (prev : option NoteData) (lbl : string) (freq : Q) : bool :=
  match prev with
  | Some p => String.eqb (note p) lbl && JS.Qltb (Qabs (frequency p - freq)) 1
  | None => false
  end.

Definition nextCurrentNote (prev : option NoteData) (lbl : string) (freq : Q)
           (now : Z) : option NoteData :=
  if keepsPrev prev lbl freq then prev
  else Some (mkNoteData lbl freq (9 # 10) now).

Fixpoint has (set : list (option string)) (x : option string) : bool :=
  match set, x with
  | [], _ => false
  | Some a :: r, Some b => String.eqb a b || has r x
  | None :: r, None => true
  | _ :: r, _ => has r x
  end.

Definition nextDetectedNotes (prev : list (option string)) (name : option string)
  : list (option string) :=
  if has prev name then prev else (prev ++ [name])%list.

(** One run of the [update] closure of [detectPitch] on the frequency the
    autocorrelator returned for the frame, at clock reading [now]. *)
Definition update (s : State) (freq : Q) (now : Z) : State :=
  if inRange freq then
    let n := Constants.getNoteFromFrequency freq in
    mkState (nextCurrentNote (currentNote s) (label n) freq now)
            (nextDetectedNotes (detectedNotes s) (Constants.name n))
  else s.

(** The note event of a frame: the fresh [NoteData] object, if the
    updater made one. *)
Definition noteEvent (s : State) (freq : Q) (now : Z) : option NoteData :=
  if inRange freq
     && negb (keepsPrev (currentNote s)
                        (label (Constants.getNoteFromFrequency freq)) freq)
  then currentNote (update s freq now)
  else None.

(** The events of a run of frames [(freq, now)]. *)
Fixpoint noteEvents (s : State) (frames : list (Q * Z)) : list NoteData :=
  match frames with
  | [] => []
  | (freq, now) :: rest =>
      match noteEvent s freq now with
      | Some e => e :: noteEvents (update s freq now) rest
      | None => noteEvents (update s freq now) rest
      end
  end.

Definition initial : State := mkState None [].

(** The candidate label of a frame: the note name and octave the note
    mapper gives its frequency. *)
Definition labelOf (freq : Q) : string :=
  label (Constants.getNoteFromFrequency freq).

(** Frames that alternate between two frequencies, one per clock reading. *)
Fixpoint alternate (f g : Q) (times : list Z) : list (Q * Z) :=
  match times with
  | [] => []
  | t :: rest => (f, t) :: alternate g f rest
  end.

End App.

(** ** SpeedTrainer.tsx: the adaptive lick trainer *)

Module SpeedTrainer.

Local Open Scope string_scope.
Local Open Scope Z_scope.

Inductive ComplexityMode : Type := simple | balanced | complex.

Record Range : Type := mkRange { min : Z; max : Z }.

Definition COMPLEXITY_CONFIG (m : ComplexityMode) : Range :=
  match m with
  | simple => mkRange 2 4
  | balanced => mkRange 3 6
  | complex => mkRange 4 10
  end.

Inductive TrainingState : Type := idle | learning | locked | training.

Inductive HitType : Type := perfect | good | fair | miss | none.

Record Feedback : Type := mkFeedback {
  msg : string;
  color : string;
  offset : option Q;
  hitType : HitType;
  timestamp : Z
}.

(** The component: its [useState] cells, its refs, and the part of Tone.js
    it talks to.  [loopRef] holds the [trainingState] that the
    [Tone.Loop] callback closed over when [ensureAudioInit] created it. *)
Record Trainer : Type := mkTrainer {
  isActive : bool;
  isMetronomeAudioEnabled : bool;
  trainingState : TrainingState;
  complexity : ComplexityMode;
  noteHistory : list string;
  learnedPattern : list string;
  patternMatches : Z;
  startBpm : Z;
  bpm : Z;
  targetBpm : Z;
  increment : Z;
  streak : Z;
  bestStreak : Z;
  currentBeat : Z;
  lastBeatTime : Z;
  feedback : option Feedback;
  loopRef : option TrainingState;
  streakRef : Z;
  hasPlayedOnThisBeatRef : bool;
  currentPatternProgressRef : Z;
  transportStarted : bool;                 (* [Tone.Transport.state === "started"] *)
  transportBpm : Z                         (* [Tone.Transport.bpm.value] *)
}.

(** The state after the first render on a fresh page: the [useState] and
    [useRef] defaults, and Tone's transport (a singleton of the page, which
    outlives the component) stopped at its default tempo. *)
Definition initial : Trainer :=
  mkTrainer false false idle balanced [] [] 0 80 80 140 5 0 0 0 0 None
            None 0 false 0 false 120.

(** *** Field updates *)

Definition setIsActive v s :=
  mkTrainer v (isMetronomeAudioEnabled s) (trainingState s) (complexity s)
    (noteHistory s) (learnedPattern s) (patternMatches s) (startBpm s) (bpm s)
    (targetBpm s) (increment s) (streak s) (bestStreak s) (currentBeat s)
    (lastBeatTime s) (feedback s) (loopRef s) (streakRef s)
    (hasPlayedOnThisBeatRef s) (currentPatternProgressRef s)
    (transportStarted s) (transportBpm s).

Definition setIsMetronomeAudioEnabled v s :=
  mkTrainer (isActive s) v (trainingState s) (complexity s)
    (noteHistory s) (learnedPattern s) (patternMatches s) (startBpm s) (bpm s)
    (targetBpm s) (increment s) (streak s) (bestStreak s) (currentBeat s)
    (lastBeatTime s) (feedback s) (loopRef s) (streakRef s)
    (hasPlayedOnThisBeatRef s) (currentPatternProgressRef s)
    (transportStarted s) (transportBpm s).

Definition setTrainingState v s :=
  mkTrainer (isActive s) (isMetronomeAudioEnabled s) v (complexity s)
    (noteHistory s) (learnedPattern s) (patternMatches s) (startBpm s) (bpm s)
    (targetBpm s) (increment s) (streak s) (bestStreak s) (currentBeat s)
    (lastBeatTime s) (feedback s) (loopRef s) (streakRef s)
    (hasPlayedOnThisBeatRef s) (currentPatternProgressRef s)
    (transportStarted s) (transportBpm s).

Definition setComplexity v s :=
  mkTrainer (isActive s) (isMetronomeAudioEnabled s) (trainingState s) v
    (noteHistory s) (learnedPattern s) (patternMatches s) (startBpm s) (bpm s)
    (targetBpm s) (increment s) (streak s) (bestStreak s) (currentBeat s)
    (lastBeatTime s) (feedback s) (loopRef s) (streakRef s)
    (hasPlayedOnThisBeatRef s) (currentPatternProgressRef s)
    (transportStarted s) (transportBpm s).

Definition setNoteHistory v s :=
  mkTrainer (isActive s) (isMetronomeAudioEnabled s) (trainingState s)
    (complexity s) v (learnedPattern s) (patternMatches s) (startBpm s) (bpm s)
    (targetBpm s) (increment s) (streak s) (bestStreak s) (currentBeat s)
    (lastBeatTime s) (feedback s) (loopRef s) (streakRef s)
    (hasPlayedOnThisBeatRef s) (currentPatternProgressRef s)
    (transportStarted s) (transportBpm s).

Definition setLearnedPattern v s :=
  mkTrainer (isActive s) (isMetronomeAudioEnabled s) (trainingState s)
    (complexity s) (noteHistory s) v (patternMatches s) (startBpm s) (bpm s)
    (targetBpm s) (increment s) (streak s) (bestStreak s) (currentBeat s)
    (lastBeatTime s) (feedback s) (loopRef s) (streakRef s)
    (hasPlayedOnThisBeatRef s) (currentPatternProgressRef s)
    (transportStarted s) (transportBpm s).

Definition setPatternMatches v s :=
  mkTrainer (isActive s) (isMetronomeAudioEnabled s) (trainingState s)
    (complexity s) (noteHistory s) (learnedPattern s) v (startBpm s) (bpm s)
    (targetBpm s) (increment s) (streak s) (bestStreak s) (currentBeat s)
    (lastBeatTime s) (feedback s) (loopRef s) (streakRef s)
    (hasPlayedOnThisBeatRef s) (currentPatternProgressRef s)
    (transportStarted s) (transportBpm s).

Definition setStartBpm v s :=
  mkTrainer (isActive s) (isMetronomeAudioEnabled s) (trainingState s)
    (complexity s) (noteHistory s) (learnedPattern s) (patternMatches s) v
    (bpm s) (targetBpm s) (increment s) (streak s) (bestStreak s)
    (currentBeat s) (lastBeatTime s) (feedback s) (loopRef s) (streakRef s)
    (hasPlayedOnThisBeatRef s) (currentPatternProgressRef s)
    (transportStarted s) (transportBpm s).

Definition setBpm v s :=
  mkTrainer (isActive s) (isMetronomeAudioEnabled s) (trainingState s)
    (complexity s) (noteHistory s) (learnedPattern s) (patternMatches s)
    (startBpm s) v (targetBpm s) (increment s) (streak s) (bestStreak s)
    (currentBeat s) (lastBeatTime s) (feedback s) (loopRef s) (streakRef s)
    (hasPlayedOnThisBeatRef s) (currentPatternProgressRef s)
    (transportStarted s) (transportBpm s).

Definition setTargetBpm v s :=
  mkTrainer (isActive s) (isMetronomeAudioEnabled s) (trainingState s)
    (complexity s) (noteHistory s) (learnedPattern s) (patternMatches s)
    (startBpm s) (bpm s) v (increment s) (streak s) (bestStreak s)
    (currentBeat s) (lastBeatTime s) (feedback s) (loopRef s) (streakRef s)
    (hasPlayedOnThisBeatRef s) (currentPatternProgressRef s)
    (transportStarted s) (transportBpm s).

Definition setStreak v s :=
  mkTrainer (isActive s) (isMetronomeAudioEnabled s) (trainingState s)
    (complexity s) (noteHistory s) (learnedPattern s) (patternMatches s)
    (startBpm s) (bpm s) (targetBpm s) (increment s) v (bestStreak s)
    (currentBeat s) (lastBeatTime s) (feedback s) (loopRef s) (streakRef s)
    (hasPlayedOnThisBeatRef s) (currentPatternProgressRef s)
    (transportStarted s) (transportBpm s).

Definition setBestStreak v s :=
  mkTrainer (isActive s) (isMetronomeAudioEnabled s) (trainingState s)
    (complexity s) (noteHistory s) (learnedPattern s) (patternMatches s)
    (startBpm s) (bpm s) (targetBpm s) (increment s) (streak s) v
    (currentBeat s) (lastBeatTime s) (feedback s) (loopRef s) (streakRef s)
    (hasPlayedOnThisBeatRef s) (currentPatternProgressRef s)
    (transportStarted s) (transportBpm s).

Definition setCurrentBeat v s :=
  mkTrainer (isActive s) (isMetronomeAudioEnabled s) (trainingState s)
    (complexity s) (noteHistory s) (learnedPattern s) (patternMatches s)
    (startBpm s) (bpm s) (targetBpm s) (increment s) (streak s) (bestStreak s)
    v (lastBeatTime s) (feedback s) (loopRef s) (streakRef s)
    (hasPlayedOnThisBeatRef s) (currentPatternProgressRef s)
    (transportStarted s) (transportBpm s).

Definition setLastBeatTime v s :=
  mkTrainer (isActive s) (isMetronomeAudioEnabled s) (trainingState s)
    (complexity s) (noteHistory s) (learnedPattern s) (patternMatches s)
    (startBpm s) (bpm s) (targetBpm s) (increment s) (streak s) (bestStreak s)
    (currentBeat s) v (feedback s) (loopRef s) (streakRef s)
    (hasPlayedOnThisBeatRef s) (currentPatternProgressRef s)
    (transportStarted s) (transportBpm s).

Definition setFeedback v s :=
  mkTrainer (isActive s) (isMetronomeAudioEnabled s) (trainingState s)
    (complexity s) (noteHistory s) (learnedPattern s) (patternMatches s)
    (startBpm s) (bpm s) (targetBpm s) (increment s) (streak s) (bestStreak s)
    (currentBeat s) (lastBeatTime s) v (loopRef s) (streakRef s)
    (hasPlayedOnThisBeatRef s) (currentPatternProgressRef s)
    (transportStarted s) (transportBpm s).

Definition setLoopRef v s :=
  mkTrainer (isActive s) (isMetronomeAudioEnabled s) (trainingState s)
    (complexity s) (noteHistory s) (learnedPattern s) (patternMatches s)
    (startBpm s) (bpm s) (targetBpm s) (increment s) (streak s) (bestStreak s)
    (currentBeat s) (lastBeatTime s) (feedback s) v (streakRef s)
    (hasPlayedOnThisBeatRef s) (currentPatternProgressRef s)
    (transportStarted s) (transportBpm s).

Definition setStreakRef v s :=
  mkTrainer (isActive s) (isMetronomeAudioEnabled s) (trainingState s)
    (complexity s) (noteHistory s) (learnedPattern s) (patternMatches s)
    (startBpm s) (bpm s) (targetBpm s) (increment s) (streak s) (bestStreak s)
    (currentBeat s) (lastBeatTime s) (feedback s) (loopRef s) v
    (hasPlayedOnThisBeatRef s) (currentPatternProgressRef s)
    (transportStarted s) (transportBpm s).

Definition setHasPlayedOnThisBeatRef v s :=
  mkTrainer (isActive s) (isMetronomeAudioEnabled s) (trainingState s)
    (complexity s) (noteHistory s) (learnedPattern s) (patternMatches s)
    (startBpm s) (bpm s) (targetBpm s) (increment s) (streak s) (bestStreak s)
    (currentBeat s) (lastBeatTime s) (feedback s) (loopRef s) (streakRef s)
    v (currentPatternProgressRef s) (transportStarted s) (transportBpm s).

Definition setCurrentPatternProgressRef v s :=
  mkTrainer (isActive s) (isMetronomeAudioEnabled s) (trainingState s)
    (complexity s) (noteHistory s) (learnedPattern s) (patternMatches s)
    (startBpm s) (bpm s) (targetBpm s) (increment s) (streak s) (bestStreak s)
    (currentBeat s) (lastBeatTime s) (feedback s) (loopRef s) (streakRef s)
    (hasPlayedOnThisBeatRef s) v (transportStarted s) (transportBpm s).

Definition setTransportStarted v s :=
  mkTrainer (isActive s) (isMetronomeAudioEnabled s) (trainingState s)
    (complexity s) (noteHistory s) (learnedPattern s) (patternMatches s)
    (startBpm s) (bpm s) (targetBpm s) (increment s) (streak s) (bestStreak s)
    (currentBeat s) (lastBeatTime s) (feedback s) (loopRef s) (streakRef s)
    (hasPlayedOnThisBeatRef s) (currentPatternProgressRef s) v (transportBpm s).

Definition setTransportBpm v s :=
  mkTrainer (isActive s) (isMetronomeAudioEnabled s) (trainingState s)
    (complexity s) (noteHistory s) (learnedPattern s) (patternMatches s)
    (startBpm s) (bpm s) (targetBpm s) (increment s) (streak s) (bestStreak s)
    (currentBeat s) (lastBeatTime s) (feedback s) (loopRef s) (streakRef s)
    (hasPlayedOnThisBeatRef s) (currentPatternProgressRef s)
    (transportStarted s) v.

(** *** Handlers *)

Definition stopAllAudio (s : Trainer) : Trainer :=
  setFeedback None
    (setNoteHistory []
      (setPatternMatches 0
        (setLearnedPattern []
          (setTrainingState idle
            (setIsMetronomeAudioEnabled false
              (setIsActive false
                (setCurrentBeat 0
                  (setLoopRef None
                    (setTransportStarted false s))))))))).

(** [ensureAudioInit], with the [await] taken as immediate: in the code
    the loop is created and the transport set and started only once
    [Tone.start()] has resolved, so for a moment after the call the
    transport is still stopped at its old tempo.  [s] is the state of the
    render whose closure runs: the new loop callback closes over its
    [trainingState], the transport takes its [bpm]. *)
Definition ensureAudioInit (s : Trainer) : Trainer :=
  if transportStarted s then s
  else
    let s1 :=
      match loopRef s with
      | None => setLoopRef (Some (trainingState s)) s
      | Some _ => s
      end in
    setTransportStarted true (setTransportBpm (bpm s) s1).

(** The body of the [Tone.Loop] callback at clock reading [now];
    [closedOver] is the [trainingState] the callback captured. *)
Definition loopCallback (closedOver : TrainingState) (s : Trainer) (now : Z)
  : Trainer :=
  let s1 := setLastBeatTime now
              (setCurrentBeat (Z.rem (currentBeat s + 1) 4) s) in
  let s2 :=
    match closedOver with
    | training =>
        if negb (hasPlayedOnThisBeatRef s1) && (0 <? streakRef s1) then
          setFeedback
            (Some (mkFeedback "Missed Beat!" "text-red-500" (Some 0%Q) miss now))
            (setStreak 0 s1)
        else s1
    | _ => s1
    end in
  setHasPlayedOnThisBeatRef false s2.

Definition startLearning (s : Trainer) : Trainer :=
  setBpm (startBpm s)
    (setStreak 0
      (setPatternMatches 0
        (setLearnedPattern []
          (setIsActive true
            (setTrainingState learning s))))).

(** [activeNote === expectedNote] for a non-empty [activeNote] and an
    array read that may be [undefined]. *)
Definition isExpected (activeNote : string) (expectedNote : option string) : bool :=
  match expectedNote with
  | Some e => String.eqb activeNote e
  | None => false
  end.

(** The lengths [config.min .. config.max] of the scan loop. *)
Definition lengths (config : Range) : list Z :=
  map (fun k => min config + Z.of_nat k)
      (seq 0 (Z.to_nat (max config - min config + 1))).

(** The [for (len ...)] loop of the learning phase: the first length whose
    last [len] notes repeat the [len] notes before them. *)
Fixpoint findRepeat (next : list string) (lens : list Z)
  : option (Z * list string) :=
  match lens with
  | [] => None
  | len :: rest =>
      if JS.len next <? len * 2 then findRepeat next rest
      else
        let currentSeq := JS.sliceFrom next (- len) in
        let prevSeq := JS.slice next (- len * 2) (- len) in
        if JS.sameSeq currentSeq prevSeq then Some (len, currentSeq)
        else findRepeat next rest
  end.

Definition learningPhase (s : Trainer) (activeNote : string) (now : Z) : Trainer :=
  let config := COMPLEXITY_CONFIG (complexity s) in
  let next := JS.sliceFrom (noteHistory s ++ [activeNote]) (-20) in
  match findRepeat next (lengths config) with
  | Some (len, currentSeq) =>
      setNoteHistory []
        (setFeedback
          (Some (mkFeedback
                   (JS.showInt len ++ "-Note Lick Found! Confirm 5 times.")%string
                   "text-blue-400" None good now))
          (setTrainingState locked
            (setPatternMatches 1
              (setLearnedPattern currentSeq s))))
  | None => setNoteHistory next s
  end.

(** The [setPatternMatches] updater of the locked phase. *)
Definition confirmCycle (s : Trainer) (now : Z) : Trainer :=
  let next := patternMatches s + 1 in
  let s1 :=
    if 5 <=? next then
      setFeedback
        (Some (mkFeedback "READY... GO!" "text-emerald-400" None perfect now))
        (setIsMetronomeAudioEnabled true
          (setTrainingState training (ensureAudioInit s)))
    else s in
  setPatternMatches next s1.

Definition lockedPhase (s : Trainer) (activeNote : string) (now : Z) : Trainer :=
  let cursor := currentPatternProgressRef s in
  let expectedNote := JS.get (learnedPattern s) cursor in
  let advanced :=
    if isExpected activeNote expectedNote then Some (cursor + 1)
    else if (cursor + 1 <? JS.len (learnedPattern s))
            && isExpected activeNote (JS.get (learnedPattern s) (cursor + 1))
    then Some (cursor + 2)
    else None in
  match advanced with
  | None => s
  | Some cursor' =>
      if JS.len (learnedPattern s) <=? cursor' then
        setCurrentPatternProgressRef 0 (confirmCycle s now)
      else setCurrentPatternProgressRef cursor' s
  end.

(** The [setStreak] updater of the training phase. *)
Definition countLoop (s : Trainer) (normal levelUp : Feedback) : Trainer :=
  let next := streak s + 1 in
  let s1 := if bestStreak s <? next then setBestStreak next s else s in
  let s2 :=
    if Z.rem next 3 =? 0 then
      setFeedback (Some levelUp)
        (setBpm (Z.min (bpm s1 + increment s1) (targetBpm s1)) s1)
    else setFeedback (Some normal) s1 in
  setStreak next s2.

(** [diff]: the time since the last beat, folded into a signed offset from
    the nearest beat. *)
Definition beatOffset (period timeSinceLastBeat : Q) : Q :=
  if JS.Qltb (period / 2) timeSinceLastBeat
  then (timeSinceLastBeat - period)%Q
  else timeSinceLastBeat.

(** [msg], [color] and [hitType] of an accepted hit, by the size of its
    offset.  The band edges [period * 0.15] and [period * 0.05] (and the
    tolerance [period * 0.4]) are exact rationals here and binary64
    products in the code; the two can differ for an offset exactly on an
    edge (100 ms at 90 BPM).  At 120 BPM the period 500 and the edges 25,
    75 and 200 ms are exact in binary64 as well. *)
Definition precisionFeedback (period diff normalizedOffset : Q) (now : Z)
  : Feedback :=
  let absDiff := Qabs diff in
  if JS.Qltb (period * (15 # 100)) absDiff then
    mkFeedback (if JS.Qltb 0 diff then "Late" else "Early")
               "text-amber-500" (Some normalizedOffset) fair now
  else if JS.Qltb (period * (5 # 100)) absDiff then
    mkFeedback (if JS.Qltb 0 diff then "Slightly Late" else "Slightly Early")
               "text-blue-400" (Some normalizedOffset) good now
  else
    mkFeedback "Perfect!" "text-emerald-400" (Some normalizedOffset)
               perfect now.

Definition trainingPhase (s : Trainer) (activeNote : string) (now : Z) : Trainer :=
  let currentBpm := inject_Z (transportBpm s) in
  let period := (60000 / currentBpm)%Q in
  let timeSinceLastBeat := inject_Z (now - lastBeatTime s) in
  let tolerance := (period * (4 # 10))%Q in
  let diff := beatOffset period timeSinceLastBeat in
  let normalizedOffset := (diff / (period / 2))%Q in
  let isValidTime := JS.Qltb (Qabs diff) tolerance in
  let expectedNote := JS.get (learnedPattern s) (currentPatternProgressRef s) in
  if isExpected activeNote expectedNote && isValidTime
     && negb (hasPlayedOnThisBeatRef s)
  then
    let s1 :=
      setCurrentPatternProgressRef (currentPatternProgressRef s + 1)
        (setHasPlayedOnThisBeatRef true s) in
    let normal := precisionFeedback period diff normalizedOffset now in
    if currentPatternProgressRef s1 =? 0 then
      countLoop s1 normal
        (mkFeedback "LEVEL UP!" "text-emerald-400" (Some normalizedOffset)
                    perfect now)
    else setFeedback (Some normal) s1
  else s.

(** One run of the "main listening" effect with the prop [activeNote],
    at clock reading [now]. *)
Definition noteEffect (s : Trainer) (activeNote : option string) (now : Z)
  : Trainer :=
  match activeNote with
  | None => s
  | Some n =>
      if String.eqb n "" then s
      else
        match trainingState s with
        | idle => s
        | learning => learningPhase s n now
        | locked => lockedPhase s n now
        | training => trainingPhase s n now
        end
  end.

(** [useEffect(() => { streakRef.current = streak }, [streak])] *)
Definition syncStreakRef (s : Trainer) : Trainer := setStreakRef (streak s) s.

(** *** The component in its host

    The mounted component together with its prop.  An event runs its
    handler; afterwards React re-renders and runs the listening effect
    again for as long as one of its dependencies
    [activeNote, trainingState, lastBeatTime, complexity] has changed. *)

Record World : Type := mkWorld {
  trainer : Trainer;
  activeNote : option string
}.

Inductive Event : Type :=
| NoteChange (n : option string)     (* the parent passes a new [activeNote] *)
| Tick                               (* the metronome loop fires *)
| Click                              (* the start / reset button *)
| PickComplexity (m : ComplexityMode)
| PickStartBpm (v : Z)
| PickTargetBpm (v : Z).

Definition optEqb (a b : option string) : bool :=
  match a, b with
  | Some x, Some y => String.eqb x y
  | None, None => true
  | _, _ => false
  end.

Definition stateEqb (a b : TrainingState) : bool :=
  match a, b with
  | idle, idle | learning, learning | locked, locked | training, training => true
  | _, _ => false
  end.

Definition modeEqb (a b : ComplexityMode) : bool :=
  match a, b with
  | simple, simple | balanced, balanced | complex, complex => true
  | _, _ => false
  end.

Definition depsChanged (old new : World) : bool :=
  negb (optEqb (activeNote old) (activeNote new)
        && stateEqb (trainingState (trainer old)) (trainingState (trainer new))
        && (lastBeatTime (trainer old) =? lastBeatTime (trainer new))
        && modeEqb (complexity (trainer old)) (complexity (trainer new))).

Definition runEffect (w : World) (now : Z) : World :=
  mkWorld (syncStreakRef (noteEffect (trainer w) (activeNote w) now))
          (activeNote w).

(** How many more transitions the effect can make from a state. *)
Definition transitionsLeft (st : TrainingState) : nat :=
  match st with
  | learning => 2
  | locked => 1
  | _ => 0
  end.

(** Re-render until the dependencies are stable.  The effect only ever
    moves [learning] to [locked] and [locked] to [training], so three runs
    always reach a stable state ([settle_enough] below). *)
Fixpoint settle (fuel : nat) (old w : World) (now : Z) : World :=
  match fuel with
  | O => w
  | S fuel' =>
      if depsChanged old w then settle fuel' w (runEffect w now) now else w
  end.

(** The handler of an event, before any effect runs.  The controls are
    disabled outside [idle], as in the JSX. *)
Definition handle (w : World) (e : Event) (now : Z) : World :=
  let s := trainer w in
  match e with
  | NoteChange n => mkWorld s n
  | Tick =>
      match transportStarted s, loopRef s with
      | true, Some closedOver =>
          mkWorld (syncStreakRef (loopCallback closedOver s now)) (activeNote w)
      | _, _ => w
      end
  | Click =>
      match trainingState s with
      | idle => mkWorld (startLearning s) (activeNote w)
      | _ => mkWorld (stopAllAudio s) (activeNote w)
      end
  | PickComplexity m =>
      match trainingState s with
      | idle => mkWorld (setComplexity m s) (activeNote w)
      | _ => w
      end
  | PickStartBpm v =>
      match trainingState s with
      | idle => mkWorld (setStartBpm v s) (activeNote w)
      | _ => w
      end
  | PickTargetBpm v =>
      match trainingState s with
      | idle => mkWorld (setTargetBpm v s) (activeNote w)
      | _ => w
      end
  end.

Definition step (w : World) (ev : Event * Z) : World :=
  let '(e, now) := ev in
  settle 3 w (handle w e now) now.

Definition run (w : World) (evs : list (Event * Z)) : World :=
  fold_left step evs w.

Definition mounted : World := mkWorld initial None.

End SpeedTrainer.

(** ** Sessions: event sequences used in the scenarios *)

Module Session.

Import SpeedTrainer.
Local Open Scope string_scope.
Local Open Scope Z_scope.

Definition lick : list string := ["E"; "F"; "G"].

Fixpoint cycles (k : nat) (p : list string) : list string :=
  match k with
  | O => []
  | S k' => (p ++ cycles k' p)%list
  end.

(** The parent passes the notes one after the other. *)
Definition play (now : Z) (ns : list string) : list (Event * Z) :=
  map (fun n => (NoteChange (Some n), now)) ns.

(** One note per beat: the metronome ticks every [period] ms from [t] on
    and each note arrives [late] ms after its tick. *)
Fixpoint onBeat (t period late : Z) (ns : list string) : list (Event * Z) :=
  match ns with
  | [] => []
  | n :: rest =>
      (Tick, t) :: (NoteChange (Some n), t + late)
        :: onBeat (t + period) period late rest
  end.

(** Pick the simple mode, press start, play the lick twice. *)
Definition learnLick : list (Event * Z) :=
  ([(PickComplexity simple, 0); (Click, 0)] ++ play 1 (cycles 2 lick))%list.

(** ... and then [k] more times. *)
Definition confirmLick (k : nat) : list (Event * Z) :=
  (learnLick ++ play 2 (cycles k lick))%list.

(** The lick learned and confirmed in a session whose start tempo was set
    to 120 BPM. *)
Definition at120 : list (Event * Z) :=
  ([(PickStartBpm 120, 0); (PickComplexity simple, 0); (Click, 0)]
     ++ play 1 (cycles 2 lick) ++ play 2 (cycles 4 lick))%list.

(** What holds of the trainer after any sequence of events: the cursor is
    never negative, no loop has ever been counted, and outside [idle] the
    tempo is the start tempo. *)
Definition noLoopCounted (s : Trainer) : Prop :=
  0 <= currentPatternProgressRef s
  /\ streak s = 0 /\ bestStreak s = 0 /\ streakRef s = 0
  /\ (trainingState s <> idle -> bpm s = startBpm s).

(** A second session after a reset in the middle of a confirmation cycle:
    the lick E F G is learned, E and F are played, the session is reset and
    restarted, and the notes A B A B follow. *)
Definition secondSession : list (Event * Z) :=
  (learnLick ++ play 2 ["E"; "F"] ++ [(Click, 3); (Click, 4)]
     ++ play 5 ["A"; "B"; "A"; "B"])%list.

End Session.

(** ** App.tsx: values derived from the pitch state *)

Module AppView.

Import App.

(** [s.replace(/\d+/, '')]: the string without its first run of digits. *)
Fixpoint dropLeadingDigits (s : string) : string :=
  match s with
  | EmptyString => EmptyString
  | String c r => if JS.isDigit c then dropLeadingDigits r else s
  end.

Fixpoint removeFirstDigits (s : string) : string :=
  match s with
  | EmptyString => EmptyString
  | String c r =>
      if JS.isDigit c then dropLeadingDigits r else String c (removeFirstDigits r)
  end.

(** [const activeNoteName = currentNote?.note.replace(/\d+/, '')] *)
Definition activeNoteName (s : State) : option string :=
  option_map (fun n => removeFirstDigits (note n)) (currentNote s).

(** The elements of [Array.from(detectedNotes)] when all of them are
    strings; [None] when one is [undefined]. *)
Fixpoint allStrings (l : list (option string)) : option (list string) :=
  match l with
  | [] => Some []
  | Some x :: r => option_map (cons x) (allStrings r)
  | None :: _ => None
  end.

(** [identifyChord(Array.from(detectedNotes))]; the outer [None] stands for
    the TypeError of [n.split] on an [undefined] element. *)
Definition detectedChord (s : State) : option (option Constants.ChordMatch) :=
  option_map Constants.identifyChord (allStrings (detectedNotes s)).

(** The state after a run of frames, [(freq, now)] per animation tick. *)
Definition listen (s : State) (frames : list (Q * Z)) : State :=
  fold_left (fun s frame => update s (fst frame) (snd frame)) frames s.

(** Each event of a list is a different note from, or at least 1 Hz away
    from, the one before it ([prev] before the first). *)
Fixpoint spaced (prev : option NoteData) (events : list NoteData) : Prop :=
  match events with
  | [] => True
  | e :: rest =>
      match prev with
      | Some p => note p <> note e \/ (1 <= Qabs (frequency p - frequency e))%Q
      | None => True
      end
      /\ spaced (Some e) rest
  end.

End AppView.

(** ** ScaleVisualizer.tsx: the fretboard *)

Module ScaleVisualizer.

Local Open Scope string_scope.
Local Open Scope Z_scope.

Definition baseNotes : list string :=
  ["C"; "C#"; "D"; "D#"; "E"; "F"; "F#"; "G"; "G#"; "A"; "A#"; "B"].

(** E, B, G, D, A, E: the open strings, high to low. *)
Definition startingNotes : list Z := [4; 11; 7; 2; 9; 4].

(** [getNoteNameAt] of [FretboardMini] for integer arguments.  Outside the
    six strings [startingNotes[stringIndex]] is [undefined], the sum is
    [NaN] and the result [undefined]. *)
Definition getNoteNameAt (stringIndex fret : Z) : option string :=
  match JS.get startingNotes stringIndex with
  | Some start => JS.get baseNotes (Z.rem (start + fret) 12)
  | None => None
  end.

(** [const frets = Array.from({ length: 13 }, (_, i) => i)] *)
Definition frets : list Z := map Z.of_nat (seq 0 13).

End ScaleVisualizer.

(** ** Where exact arithmetic stands for binary64

    The embedding computes on exact rationals; the code computes on
    binary64 numbers, and [Math.log] is specified only as an
    approximation.  The statements about the note mapper and about the
    timing bands at an arbitrary tempo are made where the two agree:
    for frequencies whose quotient by 440 is a normal binary64 number, and
    up to a relative slack at the points where the code rounds or compares
    a computed real number. *)

Module Binary64.

Local Open Scope Q_scope.

(** From [tiny] to [huge], a frequency, its quotient by 440 and the
    logarithm of the quotient are normal binary64 numbers. *)
Definition tiny : Q := 1 # Pos.pow 10 300.
Definition huge : Q := inject_Z (10 ^ 300).

(** One part in 10^9: far above the rounding error of the handful of
    binary64 operations of the code (about one part in 10^15). *)
Definition slack : Q := 1 # 1000000000.

(** [12 log2 (f / 440)] is clear of every half-integer, where
    [Math.round] changes its result: [(f / 440)^24] lies between two
    consecutive odd powers of 2, the slack away from both. *)
Definition clearOfBoundary (f : Q) : Prop :=
  exists k : Z,
    2 ^ (2 * k - 1) * (1 + slack) <= (f / 440) ^ 24
    /\ (f / 440) ^ 24 <= 2 ^ (2 * k + 1) * (1 - slack).

End Binary64.

(** ** What the phase of the trainer says about the rest of its state *)

Module Phases.

Import SpeedTrainer.
Local Open Scope Z_scope.

(** The pattern has a length of the range of the complexity mode. *)
Definition patternInRange (s : Trainer) : Prop :=
  min (COMPLEXITY_CONFIG (complexity s)) <= JS.len (learnedPattern s)
    <= max (COMPLEXITY_CONFIG (complexity s)).

Definition phaseInv (s : Trainer) : Prop :=
  0 <= currentBeat s <= 3
  /\ 0 <= currentPatternProgressRef s
  /\ (forall fb, feedback s = Some fb -> hitType fb <> miss)
  /\ match trainingState s with
     | idle =>
         isActive s = false /\ learnedPattern s = [] /\ patternMatches s = 0
         /\ noteHistory s = []
         /\ transportStarted s = false /\ loopRef s = None
     | learning =>
         isActive s = true /\ learnedPattern s = [] /\ patternMatches s = 0
         /\ JS.len (noteHistory s) <= 20
         /\ transportStarted s = false /\ loopRef s = None
     | locked =>
         isActive s = true /\ patternInRange s /\ 1 <= patternMatches s <= 4
         /\ noteHistory s = []
         /\ transportStarted s = false /\ loopRef s = None
     | training =>
         isActive s = true /\ patternInRange s /\ patternMatches s = 5
         /\ noteHistory s = []
         /\ transportStarted s = true /\ loopRef s = Some locked
         /\ transportBpm s = bpm s
     end.

(** The notes a mounted trainer holds (its prop, its history and its
    pattern) all satisfy [Q]. *)
Definition known (Q : string -> Prop) (w : World) : Prop :=
  (forall n, activeNote w = Some n -> Q n)
  /\ (forall n, In n (noteHistory (trainer w)) -> Q n)
  /\ (forall n, In n (learnedPattern (trainer w)) -> Q n).

End Phases.

(** * Properties *)

(** ** Chord matcher *)

Section ChordMatcher.

Import Constants.
Local Open Scope string_scope.
Local Open Scope Z_scope.

(** *** Sorting and de-duplication *)

Lemma includes_In (l : list Z) (x : Z) : JS.includes l x = true <-> In x l.
Proof.
  unfold JS.includes. rewrite existsb_exists. split.
  - intros (y & Hy & E). apply Z.eqb_eq in E. now subst.
  - intros H. exists x. split; [assumption | apply Z.eqb_refl].
Qed.

Lemma setAdd_In (acc : list Z) (x y : Z) :
  In y (JS.setAdd acc x) <-> In y acc \/ y = x.
Proof.
  unfold JS.setAdd. destruct (JS.includes acc x) eqn:E.
  - apply includes_In in E. split; [tauto | intros [H | ->]; assumption].
  - rewrite in_app_iff. simpl. intuition congruence.
Qed.

Lemma setAdd_NoDup (acc : list Z) (x : Z) :
  NoDup acc -> NoDup (JS.setAdd acc x).
Proof.
  intros H. unfold JS.setAdd. destruct (JS.includes acc x) eqn:E; [assumption |].
  apply NoDup_app; [assumption | repeat constructor; simpl; tauto |].
  intros a Ha [<- | []]. apply includes_In in Ha. congruence.
Qed.

Lemma setAdd_length (acc : list Z) (x : Z) :
  (List.length (JS.setAdd acc x) <= S (List.length acc))%nat.
Proof.
  unfold JS.setAdd. destruct (JS.includes acc x); [lia |].
  rewrite length_app. simpl. lia.
Qed.

Lemma fold_setAdd (l acc : list Z) :
  (forall y, In y (fold_left JS.setAdd l acc) <-> In y acc \/ In y l)
  /\ (NoDup acc -> NoDup (fold_left JS.setAdd l acc))
  /\ (List.length (fold_left JS.setAdd l acc) <= List.length acc + List.length l)%nat.
Proof.
  revert acc. induction l as [| x l IH]; intros acc; simpl.
  - repeat split; try tauto; lia.
  - destruct (IH (JS.setAdd acc x)) as (I & N & L). repeat split.
    + intros H. apply I in H. rewrite setAdd_In in H. intuition.
    + intros H. apply I. rewrite setAdd_In. intuition.
    + intros H. apply N, setAdd_NoDup, H.
    + pose proof (setAdd_length acc x). lia.
Qed.

Lemma insertSorted_perm (x : Z) (l : list Z) :
  Permutation (JS.insertSorted x l) (x :: l).
Proof.
  induction l as [| y l IH]; simpl; [reflexivity |].
  destruct (x <=? y); [reflexivity |].
  rewrite IH. apply perm_swap.
Qed.

Lemma sortNum_perm (l : list Z) : Permutation (JS.sortNum l) l.
Proof.
  induction l as [| x l IH]; simpl; [constructor |].
  rewrite insertSorted_perm. now constructor.
Qed.

Lemma insertSorted_sorted (x : Z) (l : list Z) :
  StronglySorted Z.le l -> StronglySorted Z.le (JS.insertSorted x l).
Proof.
  induction 1 as [| y l Hs IH Hy]; simpl.
  - repeat constructor.
  - destruct (x <=? y) eqn:E.
    + apply Z.leb_le in E. constructor.
      * now constructor.
      * constructor; [assumption |].
        rewrite Forall_forall in *. intros z Hz. specialize (Hy z Hz). lia.
    + apply Z.leb_gt in E. constructor; [assumption |].
      rewrite Forall_forall in *. intros z Hz.
      apply (Permutation_in _ (insertSorted_perm x l)) in Hz.
      destruct Hz as [<- | Hz]; [lia | now apply Hy].
Qed.

Lemma sortNum_sorted (l : list Z) : StronglySorted Z.le (JS.sortNum l).
Proof.
  induction l; simpl; [constructor | now apply insertSorted_sorted].
Qed.

Lemma sorted_nodup_strict (l : list Z) :
  StronglySorted Z.le l -> NoDup l -> StronglySorted Z.lt l.
Proof.
  induction 1 as [| x l Hs IH Hx]; intros N; [constructor |].
  inversion N as [| ? ? Hnin N']; subst. constructor; [now apply IH |].
  rewrite Forall_forall in *. intros z Hz.
  specialize (Hx z Hz). assert (z <> x) by congruence. lia.
Qed.

(** A strictly increasing list is determined by its elements. *)
Lemma strict_sorted_unique (l1 l2 : list Z) :
  StronglySorted Z.lt l1 -> StronglySorted Z.lt l2 ->
  (forall z, In z l1 <-> In z l2) -> l1 = l2.
Proof.
  intros S1. revert l2.
  induction S1 as [| x l1 S1 IH Hx]; intros l2 S2 E.
  - destruct l2 as [| y l2]; [reflexivity |].
    destruct (proj2 (E y) (or_introl eq_refl)).
  - destruct S2 as [| y l2 S2 Hy].
    + destruct (proj1 (E x) (or_introl eq_refl)).
    + rewrite Forall_forall in Hx, Hy.
      assert (x = y) as ->.
      { destruct (proj1 (E x) (or_introl eq_refl)) as [-> | Hxy]; [reflexivity |].
        destruct (proj2 (E y) (or_introl eq_refl)) as [<- | Hyx]; [reflexivity |].
        specialize (Hx _ Hyx). specialize (Hy _ Hxy). lia. }
      f_equal. apply IH; [assumption |].
      intros z. split; intros Hz.
      * destruct (proj1 (E z) (or_intror Hz)) as [<- | H]; [| assumption].
        specialize (Hx _ Hz). lia.
      * destruct (proj2 (E z) (or_intror Hz)) as [<- | H]; [| assumption].
        specialize (Hy _ Hz). lia.
Qed.

(** The sorted unique indices are a function of the set of indices. *)
Lemma canonical_indices (l1 l2 : list Z) :
  (forall z, In z l1 <-> In z l2) ->
  JS.sortNum (JS.arrayFromSet l1) = JS.sortNum (JS.arrayFromSet l2).
Proof.
  intros E.
  assert (forall l, StronglySorted Z.lt (JS.sortNum (JS.arrayFromSet l))) as Hs.
  { intros l. apply sorted_nodup_strict; [apply sortNum_sorted |].
    apply (Permutation_NoDup (Permutation_sym (sortNum_perm _))).
    apply (fold_setAdd l []). constructor. }
  assert (forall l z, In z (JS.sortNum (JS.arrayFromSet l)) <-> In z l) as Hi.
  { intros l z. split; intros H.
    - apply (Permutation_in _ (sortNum_perm _)) in H.
      apply (fold_setAdd l []) in H. destruct H as [[] | H]. exact H.
    - apply (Permutation_in _ (Permutation_sym (sortNum_perm _))).
      apply (fold_setAdd l []). now right. }
  apply strict_sorted_unique; [apply Hs | apply Hs |].
  intros z. rewrite !Hi. apply E.
Qed.

Lemma noteIndices_length (notes : list string) :
  (List.length (noteIndices notes) <= List.length notes)%nat.
Proof.
  unfold noteIndices.
  rewrite (Permutation_length (sortNum_perm _)).
  pose proof (proj2 (proj2 (fold_setAdd
    (map (fun n => JS.indexOf NOTE_NAMES (JS.beforeDigit n)) notes) []))) as L.
  unfold JS.arrayFromSet. rewrite length_map in L. simpl in L. exact L.
Qed.

(** Fewer than two distinct pitch classes never match: every template
    has an interval other than the unison. *)
Lemma firstRoot_short (idx : list Z) :
  (List.length idx <= 1)%nat -> firstRoot idx idx = None.
Proof.
  destruct idx as [| r [| r' idx]]; simpl; intros H; [reflexivity | | lia].
  unfold relativeIntervals. simpl.
  replace (r - r + 12) with 12 by lia. reflexivity.
Qed.

(** *** The first match wins *)

Lemma firstType_first (r : Z) (rel : list Z) (types : list ChordDefinition)
      (m : ChordMatch) :
  firstType r rel types = Some m ->
  exists before t after,
    types = (before ++ t :: after)%list
    /\ Forall (fun t' => isMatch rel t' = false) before
    /\ isMatch rel t = true
    /\ root m = JS.get NOTE_NAMES r
    /\ type m = chordName t
    /\ matchName m = (JS.showStr (JS.get NOTE_NAMES r) ++ suffix t)%string.
Proof.
  induction types as [| t types IH]; simpl; [discriminate |].
  destruct (isMatch rel t) eqn:E.
  - intros [= <-]. exists [], t, types. simpl. repeat split; auto.
  - intros H. destruct (IH H) as (b & t' & a & -> & Hb & Ht & R).
    exists (t :: b), t', a. simpl. repeat split; try tauto.
    now constructor.
Qed.

Lemma firstType_none (r : Z) (rel : list Z) (types : list ChordDefinition) :
  firstType r rel types = None ->
  Forall (fun t' => isMatch rel t' = false) types.
Proof.
  induction types as [| t types IH]; simpl; [constructor |].
  destruct (isMatch rel t) eqn:E; [discriminate |].
  intros H. constructor; auto.
Qed.

Lemma firstRoot_first (idx roots : list Z) (m : ChordMatch) :
  firstRoot idx roots = Some m ->
  exists earlier r later before t after,
    roots = (earlier ++ r :: later)%list
    /\ CHORD_TYPES = (before ++ t :: after)%list
    /\ Forall (fun r' => Forall (fun t' =>
                 isMatch (relativeIntervals idx r') t' = false) CHORD_TYPES) earlier
    /\ Forall (fun t' => isMatch (relativeIntervals idx r) t' = false) before
    /\ isMatch (relativeIntervals idx r) t = true
    /\ root m = JS.get NOTE_NAMES r
    /\ type m = chordName t.
Proof.
  induction roots as [| r roots IH]; cbn [firstRoot]; [discriminate |].
  destruct (firstType r (relativeIntervals idx r) CHORD_TYPES) as [m' |] eqn:E.
  - intros [= <-].
    destruct (firstType_first _ _ _ _ E) as (b & t & a & Ht & Hb & Hm & Hr & Hn & _).
    exists [], r, roots, b, t, a. simpl. repeat split; auto.
  - intros H. destruct (IH H) as (e & r' & l & b & t & a & -> & R).
    exists (r :: e), r', l, b, t, a. simpl. repeat split; try tauto.
    constructor; [now apply firstType_none with (r := r) | tauto].
Qed.

(** Whatever [identifyChord] returns is the first template, in table
    order, that passes the subset test at the lowest root index at which
    any template passes. *)
Lemma identifyChord_first_match (notes : list string) (m : ChordMatch) :
  identifyChord notes = Some m ->
  exists earlier r later before t after,
    noteIndices notes = (earlier ++ r :: later)%list
    /\ StronglySorted Z.lt (noteIndices notes)
    /\ CHORD_TYPES = (before ++ t :: after)%list
    /\ Forall (fun r' => Forall (fun t' =>
                 isMatch (relativeIntervals (noteIndices notes) r') t' = false)
                 CHORD_TYPES) earlier
    /\ Forall (fun t' =>
                 isMatch (relativeIntervals (noteIndices notes) r) t' = false) before
    /\ (forall int, In int (intervals t) ->
                    In int (relativeIntervals (noteIndices notes) r))
    /\ root m = JS.get NOTE_NAMES r
    /\ type m = chordName t.
Proof.
  unfold identifyChord. destruct (JS.len notes <? 2); [discriminate |].
  intros H.
  destruct (firstRoot_first _ _ _ H) as (e & r & l & b & t & a & E & T & He & Hb & Hm & R).
  exists e, r, l, b, t, a. repeat split; try tauto.
  - unfold noteIndices. apply sorted_nodup_strict; [apply sortNum_sorted |].
    apply (Permutation_NoDup (Permutation_sym (sortNum_perm _))).
    apply (fold_setAdd _ []). constructor.
  - intros int Hint. unfold isMatch in Hm. rewrite forallb_forall in Hm.
    apply includes_In. now apply Hm.
Qed.

(** C10.  [identifyChord] depends only on the set of pitch classes of its
    input, a pitch class being the note name with everything from its
    first digit on stripped: two inputs with the same pitch classes, in
    any order, with any repetitions and any octave suffixes, get the same
    answer. *)
Theorem identifyChord_pitch_class_set (xs ys : list string) :
  (forall pc, In pc (map JS.beforeDigit xs) <-> In pc (map JS.beforeDigit ys)) ->
  identifyChord xs = identifyChord ys.
Proof.
  intros E.
  assert (noteIndices xs = noteIndices ys) as I.
  { unfold noteIndices. apply canonical_indices. intros z.
    rewrite <- !(map_map JS.beforeDigit (JS.indexOf NOTE_NAMES)).
    rewrite !in_map_iff. split; intros (pc & <- & H); exists pc; split; auto;
      now apply E. }
  unfold identifyChord, JS.len.
  pose proof (noteIndices_length xs) as Lx.
  pose proof (noteIndices_length ys) as Ly.
  destruct (Z.ltb_spec (Z.of_nat (List.length xs)) 2) as [Hx | Hx];
    destruct (Z.ltb_spec (Z.of_nat (List.length ys)) 2) as [Hy | Hy].
  - reflexivity.
  - symmetry. apply firstRoot_short. rewrite <- I. lia.
  - apply firstRoot_short. rewrite I. lia.
  - now rewrite I.
Qed.

Lemma identifyChord_pitch_class_set_witness :
  identifyChord ["G2"; "C4"; "E10"; "C"; "G"]
  = identifyChord ["C"; "E"; "G"].
Proof.
  apply identifyChord_pitch_class_set. intros pc. simpl. tauto.
Defined.

(** An octave number after a digit-free name does not change its pitch
    class. *)
Lemma beforeDigit_octave (name rest : string) (d : ascii) :
  JS.beforeDigit name = name -> JS.isDigit d = true ->
  JS.beforeDigit (name ++ String d rest) = name.
Proof.
  intros H D. induction name as [| c name IH]; simpl in *.
  - now rewrite D.
  - destruct (JS.isDigit c); [discriminate |].
    injection H as H. now rewrite (IH H).
Qed.

End ChordMatcher.

(** ** Rational comparisons *)

Lemma Qltb_lt (x y : Q) : JS.Qltb x y = true <-> (x < y)%Q.
Proof.
  unfold JS.Qltb. rewrite negb_true_iff. split.
  - intros H. apply Qnot_le_lt. intros L. apply Qle_bool_iff in L. congruence.
  - intros H. destruct (Qle_bool y x) eqn:E; [| reflexivity].
    apply Qle_bool_iff in E. exfalso. exact (Qlt_not_le _ _ H E).
Qed.

Lemma Qltb_ge (x y : Q) : JS.Qltb x y = false <-> (y <= x)%Q.
Proof.
  unfold JS.Qltb. rewrite negb_false_iff. apply Qle_bool_iff.
Qed.

(** ** Note stream stabilizer *)

Section Stabilizer.

Import App.

Lemma noteEvent_fresh (s : State) (freq : Q) (now : Z) :
  inRange freq = true ->
  keepsPrev (currentNote s) (labelOf freq) freq = false ->
  noteEvent s freq now = Some (mkNoteData (labelOf freq) freq (9 # 10) now)
  /\ currentNote (update s freq now)
     = Some (mkNoteData (labelOf freq) freq (9 # 10) now).
Proof.
  intros R K. unfold noteEvent, update, nextCurrentNote. fold (labelOf freq).
  rewrite R, K. simpl. split; reflexivity.
Qed.

Lemma noteEvent_kept (s : State) (freq : Q) (now : Z) :
  keepsPrev (currentNote s) (labelOf freq) freq = true ->
  noteEvent s freq now = None
  /\ currentNote (update s freq now) = currentNote s.
Proof.
  intros K. unfold noteEvent, update, nextCurrentNote. fold (labelOf freq).
  rewrite K. destruct (inRange freq); simpl; split; reflexivity.
Qed.

Lemma keepsPrev_same (lbl : string) (freq c : Q) (t : Z) :
  keepsPrev (Some (mkNoteData lbl freq c t)) lbl freq = true.
Proof.
  unfold keepsPrev. cbn [note frequency]. rewrite String.eqb_refl.
  cbn [andb]. apply Qltb_lt.
  apply (Qabs_case (freq - freq)); intros; lra.
Qed.

Lemma keepsPrev_other (p : NoteData) (lbl : string) (freq : Q) :
  note p <> lbl -> keepsPrev (Some p) lbl freq = false.
Proof.
  intros H. unfold keepsPrev.
  destruct (String.eqb_spec (note p) lbl); [contradiction |].
  reflexivity.
Qed.

(** Repeating the frame of the current note emits nothing. *)
Lemma noteEvents_held (s : State) (lbl : string) (freq c : Q) (t : Z)
      (times : list Z) :
  lbl = labelOf freq ->
  currentNote s = Some (mkNoteData lbl freq c t) ->
  noteEvents s (map (fun now => (freq, now)) times) = [].
Proof.
  intros -> . revert s. induction times as [| now times IH]; intros s C; simpl.
  - reflexivity.
  - destruct (noteEvent_kept s freq now) as (E & U).
    { rewrite C. apply keepsPrev_same. }
    rewrite E. apply IH. now rewrite U.
Qed.

Lemma noteEvents_alternate (s : State) (f g : Q) (times : list Z) :
  inRange f = true -> inRange g = true -> labelOf f <> labelOf g ->
  keepsPrev (currentNote s) (labelOf f) f = false ->
  List.length (noteEvents s (alternate f g times)) = List.length times.
Proof.
  intros Rf Rg D. revert s f g Rf Rg D.
  induction times as [| now times IH]; intros s f g Rf Rg D K; simpl.
  - reflexivity.
  - destruct (noteEvent_fresh s f now Rf K) as (E & U).
    rewrite E. simpl. f_equal. apply IH; auto.
    rewrite U. now apply keepsPrev_other.
Qed.

(** C6.  Debounce rule of the stabilizer.  For a frame that carries a
    pitch (frequency inside the range gate) and a previously emitted note
    [p], a new note event is produced if and only if the candidate
    name+octave differs from [p]'s or the frequency is at least 1 Hz away
    from [p]'s frequency; with no previous note the frame always emits.
    Hence the same note and frequency fed repeatedly emits exactly one
    event (the first), and frames alternating between two notes emit one
    event per frame. *)
Theorem stabilizer_debounce
        (s : State) (p : NoteData) (f g : Q) (now t0 : Z) (times : list Z) :
  inRange f = true -> inRange g = true -> labelOf f <> labelOf g ->
  currentNote s = Some p ->
  (noteEvent s f now <> None
     <-> (note p <> labelOf f \/ (1 <= Qabs (frequency p - f))%Q))
  /\ (noteEvent s f now <> None
        -> noteEvent s f now = Some (mkNoteData (labelOf f) f (9 # 10) now)
           /\ currentNote (update s f now) = noteEvent s f now)
  /\ (noteEvent s f now = None -> currentNote (update s f now) = Some p)
  /\ noteEvent initial f now <> None
  /\ noteEvents initial (map (fun t => (f, t)) (t0 :: times))
     = [mkNoteData (labelOf f) f (9 # 10) t0]
  /\ List.length (noteEvents initial (alternate f g times)) = List.length times.
Proof.
  intros Rf Rg D C.
  assert (keepsPrev (currentNote s) (labelOf f) f = false
          <-> (note p <> labelOf f \/ (1 <= Qabs (frequency p - f))%Q)) as K.
  { rewrite C. unfold keepsPrev. rewrite andb_false_iff, Qltb_ge.
    destruct (String.eqb_spec (note p) (labelOf f)); intuition congruence. }
  split; [split | split; [| split; [| split; [| split]]]].
  - intros H. apply K.
    destruct (keepsPrev (currentNote s) (labelOf f) f) eqn:E; [| reflexivity].
    destruct (noteEvent_kept s f now E) as (N & _). contradiction.
  - intros H. apply K in H.
    destruct (noteEvent_fresh s f now Rf H) as (N & _). rewrite N. discriminate.
  - intros H.
    destruct (keepsPrev (currentNote s) (labelOf f) f) eqn:E.
    + destruct (noteEvent_kept s f now E) as (N & _). contradiction.
    + destruct (noteEvent_fresh s f now Rf E) as (N & U). split; congruence.
  - intros H.
    destruct (keepsPrev (currentNote s) (labelOf f) f) eqn:E.
    + destruct (noteEvent_kept s f now E) as (_ & U). congruence.
    + destruct (noteEvent_fresh s f now Rf E) as (N & _). congruence.
  - destruct (noteEvent_fresh initial f now Rf eq_refl) as (N & _).
    rewrite N. discriminate.
  - cbn [map noteEvents].
    destruct (noteEvent_fresh initial f t0 Rf eq_refl) as (N & U).
    rewrite N. f_equal. now apply (noteEvents_held _ _ _ _ _ _ eq_refl U).
  - now apply noteEvents_alternate.
Qed.

Lemma stabilizer_debounce_witness :
  noteEvents initial [(440%Q, 1); (440%Q, 2); (440%Q, 3); (440%Q, 4)]
    = [mkNoteData "A4" 440 (9 # 10) 1]
  /\ List.length (noteEvents initial (alternate 440 494 [1; 2; 3; 4; 5]%Z)) = 5%nat.
Proof.
  pose proof (stabilizer_debounce
                (mkState (Some (mkNoteData "B4" 494 (9 # 10) 0)) [Some "B"%string])
                (mkNoteData "B4" 494 (9 # 10) 0) 440 494 7 1 [2; 3; 4]%Z
                eq_refl eq_refl) as H.
  assert (labelOf 440 <> labelOf 494) as D by (vm_compute; discriminate).
  destruct (H D eq_refl) as (_ & _ & _ & _ & R & _).
  split; [exact R |].
  pose proof (stabilizer_debounce
                (mkState (Some (mkNoteData "B4" 494 (9 # 10) 0)) [Some "B"%string])
                (mkNoteData "B4" 494 (9 # 10) 0) 440 494 7 1 [1; 2; 3; 4; 5]%Z
                eq_refl eq_refl D eq_refl) as (_ & _ & _ & _ & _ & A).
  exact A.
Defined.

End Stabilizer.

(** ** Note mapper *)

Section NoteMapper.

Import Constants.
Local Open Scope Q_scope.

Lemma two_pow_Q (a : Z) : (0 <= a)%Z -> 2 ^ a == inject_Z (2 ^ a).
Proof. intros H. symmetry. apply (Zpower_Qpower 2 a H). Qed.

Lemma two_pow_frac (a b : Z) :
  (0 <= a)%Z -> (0 <= b)%Z -> 2 ^ (a - b) == inject_Z (2 ^ a) / inject_Z (2 ^ b).
Proof.
  intros Ha Hb. rewrite Qpower_minus by discriminate.
  now rewrite (two_pow_Q a Ha), (two_pow_Q b Hb).
Qed.

Lemma inject_Z_pos (z : Z) : (0 < z)%Z -> 0 < inject_Z z.
Proof.
  intros H. change (inject_Z 0 < inject_Z z). now rewrite <- Zlt_Qlt.
Qed.

Lemma frac_le (a b n d : Z) :
  (0 < b)%Z -> (0 < d)%Z -> (d * a <= n * b)%Z ->
  inject_Z a / inject_Z b <= inject_Z n / inject_Z d.
Proof.
  intros Hb Hd H.
  pose proof (inject_Z_pos b Hb) as Hb'.
  pose proof (inject_Z_pos d Hd) as Hd'.
  apply Qle_shift_div_r; [exact Hb' |].
  setoid_replace (inject_Z n / inject_Z d * inject_Z b)
    with (inject_Z n * inject_Z b / inject_Z d) by (field; lra).
  apply Qle_shift_div_l; [exact Hd' |].
  rewrite <- !inject_Z_mult, <- Zle_Qle. lia.
Qed.

Lemma frac_lt (a b n d : Z) :
  (0 < b)%Z -> (0 < d)%Z -> (n * b < d * a)%Z ->
  inject_Z n / inject_Z d < inject_Z a / inject_Z b.
Proof.
  intros Hb Hd H.
  pose proof (inject_Z_pos b Hb) as Hb'.
  pose proof (inject_Z_pos d Hd) as Hd'.
  apply Qlt_shift_div_r; [exact Hd' |].
  setoid_replace (inject_Z a / inject_Z b * inject_Z d)
    with (inject_Z a * inject_Z d / inject_Z b) by (field; lra).
  apply Qlt_shift_div_l; [exact Hb' |].
  rewrite <- !inject_Z_mult, <- Zlt_Qlt. lia.
Qed.

(** [floorLog2] is the floor of the binary logarithm. *)
Lemma floorLog2_bounds (x : Q) :
  0 < x -> 2 ^ floorLog2 x <= x /\ x < 2 ^ (floorLog2 x + 1).
Proof.
  intros Hx. destruct x as [p q].
  assert (0 < p)%Z as Hp by (unfold Qlt in Hx; simpl in Hx; lia).
  unfold floorLog2. cbn [Qnum Qden].
  pose proof (Z.log2_spec p Hp) as (Lp & Up).
  pose proof (Z.log2_spec (Z.pos q) (Pos2Z.is_pos q)) as (Lq & Uq).
  pose proof (Z.log2_nonneg p) as Np.
  pose proof (Z.log2_nonneg (Z.pos q)) as Nq.
  set (lp := Z.log2 p) in *. set (lq := Z.log2 (Z.pos q)) in *.
  rewrite <- Z.add_1_r in Up, Uq.
  assert (0 < 2 ^ lp)%Z as Pp by (apply Z.pow_pos_nonneg; lia).
  assert (0 < 2 ^ lq)%Z as Pq by (apply Z.pow_pos_nonneg; lia).
  assert (2 ^ (lp + 1) = 2 * 2 ^ lp)%Z as Ep by (rewrite Z.pow_add_r by lia; lia).
  assert (2 ^ (lq + 1) = 2 * 2 ^ lq)%Z as Eq by (rewrite Z.pow_add_r by lia; lia).
  rewrite (Qmake_Qdiv p q).
  destruct (Z.leb_spec (Z.pos q * 2 ^ lp) (p * 2 ^ lq)) as [C | C].
  - split.
    + rewrite (two_pow_frac lp lq Np Nq). apply frac_le; lia.
    + replace (lp - lq + 1)%Z with ((lp + 1) - lq)%Z by lia.
      rewrite (two_pow_frac (lp + 1) lq) by lia. apply frac_lt; [lia | lia |].
      rewrite Ep. nia.
  - split.
    + replace (lp - lq - 1)%Z with (lp - (lq + 1))%Z by lia.
      rewrite (two_pow_frac lp (lq + 1)) by lia. apply frac_le; [lia | lia |].
      rewrite Eq. nia.
    + replace (lp - lq - 1 + 1)%Z with (lp - lq)%Z by lia.
      rewrite (two_pow_frac lp lq Np Nq). apply frac_lt; lia.
Qed.


Lemma pow_nat_mono (a b : Q) (n : nat) :
  0 <= a -> a <= b -> a ^ Z.of_nat n <= b ^ Z.of_nat n.
Proof.
  intros Ha Hab. induction n as [| n IH].
  - simpl. lra.
  - rewrite Nat2Z.inj_succ, <- Z.add_1_r.
    rewrite !Qpower_plus' by lia. rewrite !Qpower_1_r.
    pose proof (Qpower_0_le a (Z.of_nat n) Ha).
    apply Qmult_le_compat_nonneg; split; assumption.
Qed.

(** From 8 Hz upwards the semitone index is not negative. *)
Lemma semitoneIndex_nonneg (f : Q) : 8 <= f -> (0 <= semitoneIndex f)%Z.
Proof.
  intros Hf. unfold semitoneIndex, roundSemitones.
  assert (0 < f / 440) as Hr by (apply Qlt_shift_div_l; lra).
  destruct (floorLog2_bounds ((f / 440) ^ 24)) as (_ & U).
  { now apply Qpower_0_lt. }
  set (k := floorLog2 ((f / 440) ^ 24)) in *.
  assert ((1 # 55) ^ 24 <= (f / 440) ^ 24) as M.
  { apply (pow_nat_mono (1 # 55) (f / 440) 24); [lra |].
    apply Qle_shift_div_l; lra. }
  assert (2 ^ (-139) <= (1 # 55) ^ 24) as C.
  { apply Qle_bool_iff. vm_compute. reflexivity. }
  assert (-139 < k + 1)%Z as K.
  { apply (Qpower_lt_compat_l_inv 2); [| lra].
    eapply Qle_lt_trans; [exact C |]. eapply Qle_lt_trans; [exact M | exact U]. }
  pose proof (Z.div_mod (k + 1) 2 ltac:(lia)).
  pose proof (Z.mod_pos_bound (k + 1) 2 ltac:(lia)). lia.
Qed.



Lemma above_tiny (f : Q) : Binary64.tiny <= f -> 0 < f.
Proof.
  intros H. apply (Qlt_le_trans _ Binary64.tiny); [reflexivity | exact H].
Qed.



End NoteMapper.

(** ** Autocorrelator *)

Section Autocorrelator.

Import App.
Local Open Scope Q_scope.

(** The integer lags below [maxOffset] are those below [lagCount]. *)
Lemma below_maxOffset (buf : list Q) (i : nat) :
  inject_Z (Z.of_nat i) < maxOffset buf <-> (i < lagCount buf)%nat.
Proof.
  unfold maxOffset, lagCount, JS.len.
  set (n := List.length buf).
  assert (inject_Z (Z.of_nat i) < inject_Z (Z.of_nat n) / 2
          <-> (2 * Z.of_nat i < Z.of_nat n)%Z) as ->.
  { rewrite Zlt_Qlt, inject_Z_mult. change (inject_Z 2) with 2. split; intros H.
    - apply (Qmult_lt_compat_r _ _ 2) in H; [| reflexivity].
      setoid_replace (inject_Z (Z.of_nat n) / 2 * 2)
        with (inject_Z (Z.of_nat n)) in H by (field; discriminate). lra.
    - apply Qlt_shift_div_l; [reflexivity | lra]. }
  rewrite Nat.div2_div.
  pose proof (Nat.div_mod_eq (S n) 2).
  pose proof (Nat.mod_upper_bound (S n) 2 ltac:(lia)). lia.
Qed.

Section Peak.

Variable corr : list Q.
Variable M : Q.                     (* [maxOffset] *)
Variable n : nat.                   (* the number of lags below it *)
Hypothesis below : forall i : nat, inject_Z (Z.of_nat i) < M <-> (i < n)%nat.

(** What the [while] loop establishes. *)
Lemma firstDip_spec (fuel d0 : nat) :
  let d := firstDip corr M fuel d0 in
  (d0 <= d)%nat
  /\ (forall j, (d0 <= j < d)%nat -> at_ corr (S j) < at_ corr j /\ (j < n)%nat)
  /\ ((n <= d0 + fuel)%nat -> (d < n)%nat -> at_ corr d <= at_ corr (S d)).
Proof.
  revert d0. induction fuel as [| fuel IH]; intros d0; cbn [firstDip].
  - repeat split; try lia.
  - destruct (JS.Qltb (at_ corr (S d0)) (at_ corr d0)) eqn:E1;
      destruct (JS.Qltb (inject_Z (Z.of_nat d0)) M) eqn:E2; cbn [andb].
    + destruct (IH (S d0)) as (A & B & C).
      apply Qltb_lt in E1, E2. apply below in E2.
      split; [lia |]. split.
      * intros j Hj. destruct (Nat.eq_dec j d0) as [-> | Hne].
        -- split; assumption.
        -- apply B. lia.
      * intros F. apply C. lia.
    + apply Qltb_ge in E2. repeat split; try lia.
      intros _ H. apply below in H. lra.
    + apply Qltb_ge in E1. repeat split; try lia. intros _ _. exact E1.
    + apply Qltb_ge in E1. repeat split; try lia. intros _ _. exact E1.
Qed.

Lemma findPeak_inv (d k : nat) :
  let acc := fold_left (peakStep corr) (seq d k) (-1, (-1)%Z) in
  peakInv corr d (d + k) acc /\ -1 <= fst acc
  /\ (snd acc = (-1)%Z -> fst acc = -1).
Proof.
  induction k as [| k IH].
  - simpl. split; [| split; [lra | reflexivity]].
    left. split; [reflexivity |]. intros i Hi. lia.
  - rewrite seq_S, fold_left_app. cbn [fold_left].
    destruct IH as (I & L & N).
    set (acc := fold_left (peakStep corr) (seq d k) (-1, (-1)%Z)) in *.
    unfold peakStep.
    destruct (JS.Qltb (fst acc) (at_ corr (d + k))) eqn:E.
    + apply Qltb_lt in E. cbn [fst snd].
      split; [| split; [lra | intros H; lia]].
      right. exists (d + k)%nat. repeat split; try lia.
      * intros i Hi. destruct (Nat.eq_dec i (d + k)) as [-> | Hne]; [lra |].
        destruct I as [(S1 & S2) | (mp & S1 & S2 & S3 & S4 & S5)].
        -- specialize (S2 i ltac:(lia)). lra.
        -- specialize (S4 i ltac:(lia)). rewrite S2 in E. lra.
      * intros i Hi.
        destruct I as [(S1 & S2) | (mp & S1 & S2 & S3 & S4 & S5)].
        -- specialize (S2 i ltac:(lia)). lra.
        -- specialize (S4 i ltac:(lia)). rewrite S2 in E. lra.
    + apply Qltb_ge in E. split; [| split; assumption].
      destruct I as [(S1 & S2) | (mp & S1 & S2 & S3 & S4 & S5)].
      * left. split; [assumption |]. intros i Hi.
        destruct (Nat.eq_dec i (d + k)) as [-> | Hne]; [| apply S2; lia].
        rewrite (N S1) in E. exact E.
      * right. exists mp. repeat split; try assumption; try lia.
        intros i Hi.
        destruct (Nat.eq_dec i (d + k)) as [-> | Hne]; [| apply S4; lia].
        rewrite S2 in E. exact E.
Qed.

(** The arithmetic of the interpolation: the correction term is at most
    half a sample in either direction. *)
Lemma parabola_shift (x0 x1 x2 : Q) :
  (x0 < x1 /\ x2 <= x1) \/ (x1 < x0 /\ x2 == x1) ->
  let a := (x0 + x2 - 2 * x1) / 2 in
  let b := (x2 - x0) / 2 in
  ~ a == 0 -> - (1 # 2) <= b / (2 * a) /\ b / (2 * a) <= 1 # 2.
Proof.
  intros H a b Ha.
  assert (a == (x0 + x2 - 2 * x1) * (1 # 2)) as Ea by (unfold a; field).
  assert (b == (x2 - x0) * (1 # 2)) as Eb by (unfold b; field).
  destruct (Qlt_le_dec 0 a) as [Pos | Neg].
  - assert (0 < 2 * a) as P2 by lra. split.
    + apply Qle_shift_div_l; [exact P2 |]. destruct H as [H | H]; lra.
    + apply Qle_shift_div_r; [exact P2 |]. destruct H as [H | H]; lra.
  - assert (a < 0) as Neg'.
    { destruct (Qlt_le_dec a 0) as [L | G]; [exact L |].
      exfalso. apply Ha. lra. }
    assert (0 < 2 * - a) as P2 by lra.
    setoid_replace (b / (2 * a)) with (- b / (2 * - a)) by (field; lra).
    split.
    + apply Qle_shift_div_l; [exact P2 |]. destruct H as [H | H]; lra.
    + apply Qle_shift_div_r; [exact P2 |]. destruct H as [H | H]; lra.
Qed.

(** The refined lag stays within half a sample of a positive peak. *)
Lemma interpolate_near_peak :
  let d := firstDip corr M n 0 in
  let maxpos := snd (findPeak corr d n) in
  (0 < maxpos)%Z ->
  inject_Z maxpos - (1 # 2) <= interpolate corr M maxpos
  /\ interpolate corr M maxpos <= inject_Z maxpos + (1 # 2).
Proof.
  intros d maxpos Hpos.
  destruct (firstDip_spec n 0) as (_ & D1 & D2). fold d in D1, D2.
  destruct (Nat.le_gt_cases d n) as [Hd | Hd].
  2:{ exfalso. unfold maxpos, findPeak in Hpos.
      replace (n - d)%nat with 0%nat in Hpos by lia. simpl in Hpos. lia. }
  destruct (findPeak_inv d (n - d)) as (I & _ & _).
  fold (findPeak corr d n) in I. replace (d + (n - d))%nat with n in I by lia.
  destruct I as [(S1 & _) | (mp & S1 & S2 & S3 & S4 & S5)].
  { fold maxpos in S1. lia. }
  fold maxpos in S1. unfold interpolate.
  destruct ((0 <? maxpos)%Z && JS.Qltb (inject_Z maxpos) (M - 1)) eqn:G;
    [| lra].
  apply andb_true_iff in G. destruct G as (_ & G). apply Qltb_lt in G.
  assert (S mp < n)%nat as Hn.
  { apply below. rewrite Nat2Z.inj_succ, <- Z.add_1_r, inject_Z_plus.
    rewrite S1 in G. change (inject_Z 1) with 1. lra. }
  rewrite S1. replace (Z.of_nat mp - 1)%Z with (Z.of_nat (mp - 1)) by lia.
  replace (Z.of_nat mp + 1)%Z with (Z.of_nat (S mp)) by lia.
  rewrite !Nat2Z.id.
  assert ((at_ corr (mp - 1) < at_ corr mp /\ at_ corr (S mp) <= at_ corr mp)
          \/ (at_ corr mp < at_ corr (mp - 1) /\ at_ corr (S mp) == at_ corr mp)) as Shape.
  { pose proof (S4 (S mp) ltac:(lia)) as R.
    destruct (Nat.eq_dec d mp) as [E | E].
    - right. subst d. rewrite E in *.
      destruct (D1 (mp - 1)%nat ltac:(lia)) as (L & _).
      replace (S (mp - 1)) with mp in L by lia.
      split; [exact L |]. specialize (D2 ltac:(lia) ltac:(lia)). lra.
    - left. split; [apply S5; lia | exact R]. }
  destruct (Qeq_bool ((at_ corr (mp - 1) + at_ corr (S mp) - 2 * at_ corr mp) / 2) 0) eqn:Z;
    cbn [negb]; [lra |].
  apply Qeq_bool_neq in Z.
  destruct (parabola_shift _ _ _ Shape Z) as (L & U). lra.
Qed.

End Peak.

(** The [while] loop never runs out of fuel: more rounds than [lagCount]
    give the same [d]. *)
Lemma firstDip_fuel (buf : list Q) (corr : list Q) (extra fuel d0 : nat) :
  (lagCount buf <= d0 + fuel)%nat ->
  firstDip corr (maxOffset buf) (fuel + extra) d0
  = firstDip corr (maxOffset buf) fuel d0.
Proof.
  revert d0. induction fuel as [| fuel IH]; intros d0 H.
  - cbn [Nat.add firstDip]. destruct extra as [| extra]; [reflexivity |].
    cbn [firstDip].
    assert (JS.Qltb (inject_Z (Z.of_nat d0)) (maxOffset buf) = false) as ->.
    { apply Qltb_ge. apply Qnot_lt_le. intros L.
      apply below_maxOffset in L. lia. }
    now rewrite andb_false_r.
  - cbn [Nat.add firstDip].
    destruct (_ && _); [| reflexivity]. apply IH. lia.
Qed.

Lemma store_length (a : list Q) (i : nat) (v : Q) :
  List.length (store a i v) = List.length a.
Proof.
  revert i. induction a as [| x a IH]; intros [| i]; simpl; auto.
Qed.

Lemma at_store (a : list Q) (i j : nat) (v : Q) :
  at_ (store a i v) j
  = if (j =? i)%nat && (i <? List.length a)%nat then v else at_ a j.
Proof.
  unfold at_. revert i j.
  induction a as [| x a IH]; intros [| i] [| j]; simpl; try reflexivity.
  - now rewrite andb_false_r.
  - rewrite IH. reflexivity.
Qed.

Lemma fill_then_store (f : nat -> Q) (size k : nat) :
  (k <= size)%nat ->
  let corr := fold_left (fun corr offset => store corr offset (f offset))
                        (seq 0 k) (repeat 0 size) in
  List.length corr = size
  /\ forall j, at_ corr j = if (j <? k)%nat then f j else 0.
Proof.
  induction k as [| k IH]; intros H.
  - simpl. split; [apply repeat_length |].
    intros j. unfold at_. apply nth_repeat.
  - destruct (IH ltac:(lia)) as (L & A). cbv zeta in *.
    rewrite seq_S, fold_left_app. cbn [fold_left Nat.add].
    split; [now rewrite store_length |].
    intros j. rewrite at_store, L, A.
    destruct (Nat.eqb_spec j k) as [-> | N].
    + assert ((k <? size)%nat = true) as -> by (apply Nat.ltb_lt; lia).
      assert ((k <? S k)%nat = true) as -> by (apply Nat.ltb_lt; lia).
      reflexivity.
    + cbn [andb]. destruct (Nat.ltb_spec j k), (Nat.ltb_spec j (S k));
        try reflexivity; lia.
Qed.

(** For a frame that fits the correlation buffer no store is dropped: after
    the double loop the buffer holds the correlation sum of every lag below
    [maxOffset] and zero elsewhere. *)
Lemma correlate_at (buf : list Q) (i : nat) :
  (List.length buf <= correlationBufferSize)%nat ->
  at_ (correlate buf) i
  = if (i <? lagCount buf)%nat then correlationAt buf i else 0.
Proof.
  intros H. unfold correlate.
  apply (fill_then_store (correlationAt buf) correlationBufferSize (lagCount buf)).
  unfold lagCount. rewrite Nat.div2_div.
  pose proof (Nat.div_mod_eq (S (List.length buf)) 2).
  pose proof (Nat.mod_upper_bound (S (List.length buf)) 2 ltac:(lia)).
  unfold correlationBufferSize in *. lia.
Qed.

Lemma peakLag_range (buf : list Q) : (-1 <= peakLag buf)%Z.
Proof.
  unfold peakLag.
  set (d := firstDip (correlate buf) (maxOffset buf) (lagCount buf) 0).
  destruct (findPeak_inv (correlate buf) d (lagCount buf - d)) as (I & _ & _).
  fold (findPeak (correlate buf) d (lagCount buf)) in I.
  destruct I as [(S1 & _) | (mp & S1 & _)]; rewrite S1; lia.
Qed.

Lemma refinedLag_near_peak (buf : list Q) :
  (0 < peakLag buf)%Z ->
  inject_Z (peakLag buf) - (1 # 2) <= refinedLag buf
  /\ refinedLag buf <= inject_Z (peakLag buf) + (1 # 2).
Proof.
  intros H. unfold refinedLag.
  apply (interpolate_near_peak (correlate buf) (maxOffset buf) (lagCount buf)
                               (below_maxOffset buf) H).
Qed.

Lemma inRange_spec (freq : Q) :
  inRange freq = true <-> ~ freq == noPitch /\ 20 < freq /\ freq < 4000.
Proof.
  unfold inRange. rewrite !andb_true_iff, negb_true_iff, !Qltb_lt.
  split; intros ((A & B) & C) || intros (A & B & C); repeat split; auto.
  - intros E. apply Qeq_bool_iff in E. congruence.
  - destruct (Qeq_bool freq noPitch) eqn:E; [| reflexivity].
    apply Qeq_bool_iff in E. contradiction.
Qed.

(** C8.  A zero or negative lag yields no pitch.  For every frame that
    fits the correlation buffer (so that the buffer holds the correlation
    sum of every lag): when the integer lag the peak search selects is zero
    or negative (none found), and likewise when the lag after parabolic
    refinement is, [autoCorrelate] returns the sentinel -1.  The refinement
    itself never leaves the half-sample neighbourhood of a positive integer
    lag, so every frequency returned is the sample rate divided by a lag of
    at least 1/2.  The caller uses the result only when it differs from the
    sentinel and lies strictly between 20 and 4000 Hz; any other frame
    leaves its state untouched. *)
Theorem autoCorrelate_invalid_lag (buf : list Q) (sampleRate : Q) :
  (List.length buf <= correlationBufferSize)%nat ->
  (forall lag, (lag < lagCount buf)%nat ->
               at_ (correlate buf) lag = correlationAt buf lag)
  /\ ((peakLag buf <= 0)%Z -> autoCorrelate buf sampleRate = noPitch)
  /\ (refinedLag buf <= 0 -> autoCorrelate buf sampleRate = noPitch)
  /\ ((0 < peakLag buf)%Z ->
      (1 # 2) <= refinedLag buf
      /\ Qabs (refinedLag buf - inject_Z (peakLag buf)) <= 1 # 2)
  /\ (autoCorrelate buf sampleRate = noPitch
      \/ (1 # 2) <= refinedLag buf
         /\ autoCorrelate buf sampleRate = sampleRate / refinedLag buf)
  /\ (forall s now,
        update s (autoCorrelate buf sampleRate) now <> s ->
        20 < autoCorrelate buf sampleRate < 4000).
Proof.
  intros Fits.
  split.
  { intros lag H. rewrite (correlate_at buf lag Fits).
    apply Nat.ltb_lt in H. now rewrite H. }
  assert ((0 < peakLag buf)%Z ->
          (1 # 2) <= refinedLag buf
          /\ Qabs (refinedLag buf - inject_Z (peakLag buf)) <= 1 # 2) as Near.
  { intros H. destruct (refinedLag_near_peak buf H) as (L & U).
    assert (1 <= inject_Z (peakLag buf)) as P.
    { change 1 with (inject_Z 1). rewrite <- Zle_Qle. lia. }
    split; [lra |]. apply Qabs_Qle_condition. lra. }
  assert ((peakLag buf <= 0)%Z -> autoCorrelate buf sampleRate = noPitch) as Int.
  { intros H. unfold autoCorrelate. destruct (isSilent buf); [reflexivity |].
    pose proof (peakLag_range buf) as R.
    assert (peakLag buf = (-1)%Z \/ peakLag buf = 0%Z) as [-> | ->] by lia;
      reflexivity. }
  split; [exact Int |]. split; [| split; [exact Near | split]].
  - intros H. apply Int.
    destruct (Z.le_gt_cases (peakLag buf) 0) as [L | G]; [exact L |].
    destruct (Near G) as (P & _). lra.
  - unfold autoCorrelate. destruct (isSilent buf); [now left |].
    destruct ((peakLag buf =? -1)%Z || (peakLag buf =? 0)%Z) eqn:E; [now left |].
    right. apply orb_false_iff in E. destruct E as (E1 & E2).
    apply Z.eqb_neq in E1, E2. pose proof (peakLag_range buf).
    split; [apply Near; lia | reflexivity].
  - intros s now H. unfold update in H.
    destruct (inRange (autoCorrelate buf sampleRate)) eqn:G; [| congruence].
    apply inRange_spec in G. tauto.
Qed.

Lemma autoCorrelate_invalid_lag_witness :
  autoCorrelate [1; 0; -1; 0; 1; 0; -1; 0; 1; 0; -1; 0; 1; 0; -1; 0] 44100
    = 44100 / refinedLag [1; 0; -1; 0; 1; 0; -1; 0; 1; 0; -1; 0; 1; 0; -1; 0]
  /\ autoCorrelate [1; 1; 1; 1] 44100 = noPitch.
Proof.
  split.
  - destruct (autoCorrelate_invalid_lag
                [1; 0; -1; 0; 1; 0; -1; 0; 1; 0; -1; 0; 1; 0; -1; 0] 44100)
      as (_ & _ & _ & _ & [H | (_ & H)] & _).
    + vm_compute. lia.
    + vm_compute in H. discriminate H.
    + exact H.
  - destruct (autoCorrelate_invalid_lag [1; 1; 1; 1] 44100) as (_ & H & _).
    + vm_compute. lia.
    + apply H. vm_compute. discriminate.
Defined.

End Autocorrelator.

(** ** Lick trainer *)

Section Trainer.

Import SpeedTrainer Session.
Local Open Scope string_scope.
Local Open Scope Z_scope.

(** *** What each phase of the effect leaves alone *)

Lemma learningPhase_frame (s : Trainer) (n : string) (now : Z) :
  let s' := learningPhase s n now in
  (trainingState s' = trainingState s \/ trainingState s' = locked)
  /\ lastBeatTime s' = lastBeatTime s /\ complexity s' = complexity s
  /\ bpm s' = bpm s /\ targetBpm s' = targetBpm s /\ streak s' = streak s
  /\ currentPatternProgressRef s' = currentPatternProgressRef s.
Proof.
  unfold learningPhase.
  destruct (findRepeat _ _) as [[len cur] |]; simpl; tauto.
Qed.

Lemma ensureAudioInit_frame (s : Trainer) :
  let s' := ensureAudioInit s in
  trainingState s' = trainingState s /\ lastBeatTime s' = lastBeatTime s
  /\ complexity s' = complexity s /\ bpm s' = bpm s
  /\ targetBpm s' = targetBpm s /\ streak s' = streak s
  /\ learnedPattern s' = learnedPattern s
  /\ patternMatches s' = patternMatches s
  /\ currentPatternProgressRef s' = currentPatternProgressRef s.
Proof.
  unfold ensureAudioInit.
  destruct (transportStarted s); [tauto |].
  destruct (loopRef s); simpl; tauto.
Qed.

Lemma confirmCycle_frame (s : Trainer) (now : Z) :
  let s' := confirmCycle s now in
  (trainingState s' = trainingState s \/ trainingState s' = training)
  /\ lastBeatTime s' = lastBeatTime s /\ complexity s' = complexity s
  /\ bpm s' = bpm s /\ targetBpm s' = targetBpm s /\ streak s' = streak s
  /\ learnedPattern s' = learnedPattern s
  /\ patternMatches s' = patternMatches s + 1
  /\ (trainingState s' = training <->
      trainingState s = training \/ 5 <= patternMatches s + 1).
Proof.
  unfold confirmCycle.
  pose proof (ensureAudioInit_frame s) as F. cbv zeta in F.
  destruct (Z.leb_spec 5 (patternMatches s + 1)); simpl; intuition (try lia).
Qed.

(** The locked phase keeps the cursor inside the pattern, wraps it to 0
    exactly when the advance reaches the end, and never touches the
    pattern. *)
Lemma lockedPhase_cursor (s : Trainer) (n : string) (now : Z) :
  0 <= currentPatternProgressRef s < JS.len (learnedPattern s) ->
  let s' := lockedPhase s n now in
  0 <= currentPatternProgressRef s' < JS.len (learnedPattern s')
  /\ learnedPattern s' = learnedPattern s
  /\ (patternMatches s' = patternMatches s
      \/ patternMatches s' = patternMatches s + 1
         /\ currentPatternProgressRef s' = 0).
Proof.
  intros B. unfold lockedPhase.
  destruct (confirmCycle_frame s now) as (_ & _ & _ & _ & _ & _ & Fp & Fm & _).
  set (cursor := currentPatternProgressRef s) in *.
  set (pat := learnedPattern s) in *.
  assert (forall c, 0 <= c ->
            let s' := if JS.len pat <=? c
                      then setCurrentPatternProgressRef 0 (confirmCycle s now)
                      else setCurrentPatternProgressRef c s in
            0 <= currentPatternProgressRef s' < JS.len (learnedPattern s')
            /\ learnedPattern s' = pat
            /\ (patternMatches s' = patternMatches s
                \/ patternMatches s' = patternMatches s + 1
                   /\ currentPatternProgressRef s' = 0)) as Adv.
  { intros c Hc. cbv zeta.
    destruct (Z.leb_spec (JS.len pat) c);
      cbn [currentPatternProgressRef learnedPattern patternMatches
           setCurrentPatternProgressRef].
    - rewrite Fp, Fm. fold pat. repeat split; lia.
    - fold pat. repeat split; lia. }
  destruct (isExpected n (JS.get pat cursor)).
  - apply Adv. lia.
  - destruct ((cursor + 1 <? JS.len pat)
              && isExpected n (JS.get pat (cursor + 1))).
    + apply Adv. lia.
    + fold pat cursor. repeat split; lia.
Qed.

Lemma lockedPhase_frame (s : Trainer) (n : string) (now : Z) :
  let s' := lockedPhase s n now in
  (trainingState s' = trainingState s \/ trainingState s' = training)
  /\ lastBeatTime s' = lastBeatTime s /\ complexity s' = complexity s
  /\ bpm s' = bpm s /\ targetBpm s' = targetBpm s /\ streak s' = streak s
  /\ learnedPattern s' = learnedPattern s.
Proof.
  unfold lockedPhase.
  pose proof (confirmCycle_frame s now) as F. cbv zeta in F.
  destruct (isExpected _ _).
  - destruct (_ <=? _); simpl; tauto.
  - destruct (_ && _); [| tauto].
    destruct (_ <=? _); simpl; tauto.
Qed.

(** The streak updater raises the tempo by the increment but never above
    the target. *)
Lemma countLoop_frame (s : Trainer) (normal levelUp : Feedback) :
  let s' := countLoop s normal levelUp in
  trainingState s' = trainingState s /\ lastBeatTime s' = lastBeatTime s
  /\ complexity s' = complexity s /\ targetBpm s' = targetBpm s
  /\ learnedPattern s' = learnedPattern s
  /\ currentPatternProgressRef s' = currentPatternProgressRef s
  /\ streak s' = streak s + 1
  /\ bpm s' = (if Z.rem (streak s + 1) 3 =? 0
               then Z.min (bpm s + increment s) (targetBpm s) else bpm s).
Proof.
  unfold countLoop.
  destruct (bestStreak s <? streak s + 1);
    destruct (Z.rem (streak s + 1) 3 =? 0); simpl; tauto.
Qed.

(** The shape of a run of the training phase: either the note is ignored
    and nothing changes, or the hit is taken: the beat is marked as played
    and the cursor moves on by one, with no wrap. *)
Lemma trainingPhase_shape (s : Trainer) (n : string) (now : Z) :
  trainingPhase s n now = s
  \/ exists normal levelUp,
      let s1 := setCurrentPatternProgressRef (currentPatternProgressRef s + 1)
                  (setHasPlayedOnThisBeatRef true s) in
      isExpected n (JS.get (learnedPattern s) (currentPatternProgressRef s)) = true
      /\ hasPlayedOnThisBeatRef s = false
      /\ trainingPhase s n now
         = if currentPatternProgressRef s + 1 =? 0
           then countLoop s1 normal levelUp
           else setFeedback (Some normal) s1.
Proof.
  unfold trainingPhase. cbv zeta.
  destruct (isExpected n _) eqn:E; [| now left].
  destruct (JS.Qltb (Qabs _) _) eqn:V; [| now left].
  destruct (hasPlayedOnThisBeatRef s) eqn:P; [now left |].
  right. cbn [andb negb]. eexists. eexists.
  split; [reflexivity |]. split; reflexivity.
Qed.

Lemma trainingPhase_frame (s : Trainer) (n : string) (now : Z) :
  let s' := trainingPhase s n now in
  trainingState s' = trainingState s /\ lastBeatTime s' = lastBeatTime s
  /\ complexity s' = complexity s /\ targetBpm s' = targetBpm s
  /\ learnedPattern s' = learnedPattern s
  /\ (bpm s' = bpm s \/ bpm s' = Z.min (bpm s + increment s) (targetBpm s))
  /\ (currentPatternProgressRef s' = currentPatternProgressRef s
      \/ currentPatternProgressRef s' = currentPatternProgressRef s + 1).
Proof.
  cbv zeta.
  destruct (trainingPhase_shape s n now) as [-> | (nf & lf & _ & _ & ->)];
    [tauto |].
  set (s1 := setCurrentPatternProgressRef _ _).
  destruct (_ =? 0).
  - destruct (countLoop_frame s1 nf lf) as (A & B & C & D & E & F & _ & G).
    rewrite A, B, C, D, E, F, G.
    destruct (Z.rem (streak s1 + 1) 3 =? 0); subst s1; simpl; tauto.
  - subst s1. simpl. tauto.
Qed.

Lemma noteEffect_frame (s : Trainer) (a : option string) (now : Z) :
  let s' := noteEffect s a now in
  (trainingState s' = trainingState s
   \/ trainingState s = learning /\ trainingState s' = locked
   \/ trainingState s = locked /\ trainingState s' = training)
  /\ lastBeatTime s' = lastBeatTime s /\ complexity s' = complexity s
  /\ targetBpm s' = targetBpm s
  /\ (bpm s' = bpm s \/ bpm s' = Z.min (bpm s + increment s) (targetBpm s)).
Proof.
  unfold noteEffect. destruct a as [n |]; [| tauto].
  destruct (String.eqb n ""); [tauto |].
  destruct (trainingState s) eqn:T; [tauto | | |].
  - pose proof (learningPhase_frame s n now) as F. cbv zeta in F.
    rewrite T in F. intuition.
  - pose proof (lockedPhase_frame s n now) as F. cbv zeta in F.
    rewrite T in F. intuition.
  - pose proof (trainingPhase_frame s n now) as F. cbv zeta in F.
    rewrite T in F. intuition.
Qed.

(** *** Three effect runs are always enough *)

Lemma optEqb_refl (a : option string) : optEqb a a = true.
Proof. destruct a; simpl; [apply String.eqb_refl | reflexivity]. Qed.

Lemma runEffect_progress (w : World) (now : Z) :
  depsChanged w (runEffect w now) = true ->
  (S (transitionsLeft (trainingState (trainer (runEffect w now))))
   <= transitionsLeft (trainingState (trainer w)))%nat.
Proof.
  unfold depsChanged, runEffect, syncStreakRef.
  cbn [trainer activeNote trainingState lastBeatTime complexity setStreakRef].
  destruct (noteEffect_frame (trainer w) (activeNote w) now) as (T & L & C & _).
  rewrite optEqb_refl, L, C, Z.eqb_refl.
  destruct T as [-> | [(-> & ->) | (-> & ->)]]; simpl; try lia.
  destruct (trainingState (trainer w)), (complexity (trainer w)); discriminate.
Qed.

Lemma settle_stable (n : nat) (now : Z) :
  forall (w : World) (fuel : nat),
    (transitionsLeft (trainingState (trainer w)) <= n)%nat -> (n <= fuel)%nat ->
    settle fuel w (runEffect w now) now = settle n w (runEffect w now) now.
Proof.
  induction n as [| n IH]; intros w fuel H F.
  - destruct fuel as [| fuel]; [reflexivity |]. cbn [settle].
    destruct (depsChanged w (runEffect w now)) eqn:D; [| reflexivity].
    pose proof (runEffect_progress w now D). lia.
  - destruct fuel as [| fuel]; [lia |]. cbn [settle].
    destruct (depsChanged w (runEffect w now)) eqn:D; [| reflexivity].
    pose proof (runEffect_progress w now D). apply IH; lia.
Qed.

(** More re-renders than the three of [step] never change its result. *)
Lemma settle_enough (k : nat) (old w : World) (now : Z) :
  settle (3 + k) old w now = settle 3 old w now.
Proof.
  assert (forall fuel, settle (S fuel) old w now
                       = if depsChanged old w
                         then settle fuel w (runEffect w now) now else w) as U
    by reflexivity.
  change (3 + k)%nat with (S (2 + k)). rewrite !U.
  destruct (depsChanged old w); [| reflexivity].
  apply settle_stable; [| lia].
  destruct (trainingState (trainer w)); simpl; lia.
Qed.

(** *** Tempo ramp and cursor *)

Lemma noteEffect_noLoopCounted (s : Trainer) (a : option string) (now : Z) :
  noLoopCounted s -> noLoopCounted (noteEffect s a now).
Proof.
  intros H. pose proof H as (C & S & B & R & T). unfold noteEffect.
  destruct a as [n |]; [| exact H].
  destruct (String.eqb n ""); [exact H |].
  destruct (trainingState s) eqn:E; [exact H | | |];
    (assert (bpm s = startBpm s) as T' by (apply T; discriminate)).
  - unfold learningPhase.
    destruct (findRepeat _ _) as [[len cur] |]; unfold noLoopCounted; cbn;
      repeat split; try assumption; try (intros _; exact T').
  - unfold lockedPhase, confirmCycle, ensureAudioInit.
    destruct (isExpected _ _);
      [| destruct (_ && _); [| exact H]];
      destruct (_ <=? _); try destruct (5 <=? _);
        try destruct (transportStarted s); try destruct (loopRef s);
        unfold noLoopCounted; cbn; repeat split; try assumption; try lia;
        try (intros _; exact T').
  - destruct (trainingPhase_shape s n now) as [-> | (nf & lf & _ & _ & ->)];
      [exact H |].
    assert ((currentPatternProgressRef s + 1 =? 0) = false) as -> by lia.
    unfold noLoopCounted; cbn; repeat split; try assumption; try lia;
      try (intros _; exact T').
Qed.

Lemma settle_noLoopCounted (fuel : nat) (old w : World) (now : Z) :
  noLoopCounted (trainer w) -> noLoopCounted (trainer (settle fuel old w now)).
Proof.
  revert old w. induction fuel as [| fuel IH]; intros old w H; cbn [settle];
    [exact H |].
  destruct (depsChanged old w); [| exact H]. apply IH.
  unfold runEffect, syncStreakRef. cbn [trainer].
  destruct (noteEffect_noLoopCounted _ (activeNote w) now H) as (C & S & B & R & T).
  unfold noLoopCounted; cbn; repeat split; assumption.
Qed.

Lemma handle_noLoopCounted (w : World) (e : Event) (now : Z) :
  noLoopCounted (trainer w) -> noLoopCounted (trainer (handle w e now)).
Proof.
  intros H. pose proof H as (C & S & B & R & T). unfold handle.
  destruct e as [n | | | m | v | v].
  - exact H.
  - destruct (transportStarted (trainer w)); [| exact H].
    destruct (loopRef (trainer w)) as [closedOver |]; [| exact H].
    unfold loopCallback, syncStreakRef.
    destruct closedOver; try destruct (_ && _);
      unfold noLoopCounted; cbn; repeat split; assumption.
  - destruct (trainingState (trainer w));
      unfold noLoopCounted; cbn; repeat split; try assumption; try reflexivity;
      intros D; contradiction.
  - destruct (trainingState (trainer w)); exact H.
  - destruct (trainingState (trainer w)) eqn:E; try exact H.
    unfold noLoopCounted; cbn; rewrite E; repeat split; try assumption.
    intros D; contradiction.
  - destruct (trainingState (trainer w)); exact H.
Qed.

(** No sequence of events ever counts a loop or changes the tempo. *)
Lemma run_noLoopCounted (evs : list (Event * Z)) (w : World) :
  noLoopCounted (trainer w) -> noLoopCounted (trainer (run w evs)).
Proof.
  revert w. induction evs as [| [e now] evs IH]; intros w H; [exact H |].
  apply IH. unfold step. apply settle_noLoopCounted, handle_noLoopCounted, H.
Qed.

(** The part of C1 that holds: no run of the effect lifts the tempo above
    the target. *)
Lemma noteEffect_bpm_capped (s : Trainer) (a : option string) (now : Z) :
  bpm s <= targetBpm s ->
  bpm (noteEffect s a now) <= targetBpm (noteEffect s a now).
Proof.
  intros H.
  destruct (noteEffect_frame s a now) as (_ & _ & _ & T & [B | B]);
    rewrite T, B; lia.
Qed.

(** The streak updater on its own ramps as the claim says: nine loops from
    80 with step 5 and target 140 give 95. *)
Lemma countLoop_ramp (f : Feedback) :
  bpm (Nat.iter 9 (fun s => countLoop s f f) initial) = 95
  /\ streak (Nat.iter 9 (fun s => countLoop s f f) initial) = 9.
Proof. split; reflexivity. Qed.

Lemma trainingPhase_off_pattern (s : Trainer) (n : string) (now : Z) :
  JS.get (learnedPattern s) (currentPatternProgressRef s) = None ->
  trainingPhase s n now = s.
Proof.
  intros H.
  destruct (trainingPhase_shape s n now) as [E | (nf & lf & E & _)];
    [exact E |].
  rewrite H in E. discriminate E.
Qed.

(** C1 (the code at the failing input).  With the default configuration
    (start 80, step 5, target 140) the lick is learned and confirmed, the
    metronome runs at 80 BPM (period 750 ms), and the lick is then played
    nine times with every note exactly on its beat.  The tempo is still
    80 and the streak still 0: the first three hits are taken and move
    the cursor to 3, the pattern length, where it stays.  More generally,
    after any sequence of events whatsoever the streak is 0 and, outside
    idle, the tempo is the start tempo. *)
Theorem tempo_never_ramps :
  let before := trainer (run mounted (confirmLick 4)) in
  let once := trainer (run mounted (confirmLick 4 ++ onBeat 1000 750 0 lick)) in
  let after := trainer (run mounted
                 (confirmLick 4 ++ onBeat 1000 750 0 (cycles 9 lick))) in
  (trainingState before = training /\ transportBpm before = 80
   /\ startBpm before = 80 /\ increment before = 5 /\ targetBpm before = 140
   /\ learnedPattern before = lick /\ currentPatternProgressRef before = 0)
  /\ (currentPatternProgressRef once = 3 /\ streak once = 0 /\ bpm once = 80
      /\ option_map hitType (feedback once) = Some perfect)
  /\ (trainingState after = training /\ bpm after = 80 /\ streak after = 0
      /\ bestStreak after = 0 /\ currentPatternProgressRef after = 3)
  /\ (forall evs : list (Event * Z),
        streak (trainer (run mounted evs)) = 0
        /\ bestStreak (trainer (run mounted evs)) = 0
        /\ (trainingState (trainer (run mounted evs)) = idle
            \/ bpm (trainer (run mounted evs))
               = startBpm (trainer (run mounted evs)))).
Proof.
  cbv zeta.
  split; [vm_compute; repeat split; reflexivity |].
  split; [vm_compute; repeat split; reflexivity |].
  split; [vm_compute; repeat split; reflexivity |].
  intros evs.
  assert (noLoopCounted (trainer mounted)) as I.
  { unfold noLoopCounted. cbn. repeat split; try reflexivity; lia. }
  destruct (run_noLoopCounted evs mounted I) as (_ & S & B & _ & T).
  split; [exact S | split; [exact B |]].
  destruct (trainingState (trainer (run mounted evs))) eqn:E;
    [now left | right; apply T; discriminate ..].
Qed.

Lemma lockedPhase_off_pattern (s : Trainer) (n : string) (now : Z) :
  JS.len (learnedPattern s) <= currentPatternProgressRef s ->
  lockedPhase s n now = s.
Proof.
  intros H. unfold lockedPhase.
  assert (JS.get (learnedPattern s) (currentPatternProgressRef s) = None) as ->.
  { unfold JS.get, JS.len in *.
    destruct (_ <? 0); [reflexivity |]. apply nth_error_None. lia. }
  cbn [isExpected].
  assert ((currentPatternProgressRef s + 1 <? JS.len (learnedPattern s)) = false)
    as -> by lia.
  reflexivity.
Qed.

(** C2 (the code at the failing inputs).  In training, after the three
    notes of the learned lick are hit on their beats, the cursor equals
    the pattern length 3: it is not wrapped to 0, and from then on every
    note event is ignored, so it stays there.  In the locked state of a
    second session the cursor is the one the reset session left behind:
    with the pattern A B it is 2, the pattern length, and again every note
    event is ignored.  The pattern itself is the one that was learned. *)
Theorem training_cursor_leaves_pattern :
  let s := trainer (run mounted (confirmLick 4 ++ onBeat 1000 750 0 lick)) in
  let s2 := trainer (run mounted secondSession) in
  (trainingState s = training
   /\ learnedPattern s = lick
   /\ currentPatternProgressRef s = JS.len (learnedPattern s)
   /\ forall (n : string) (now : Z), noteEffect s (Some n) now = s)
  /\ (trainingState s2 = locked
      /\ learnedPattern s2 = ["A"; "B"]
      /\ currentPatternProgressRef s2 = JS.len (learnedPattern s2)
      /\ forall (n : string) (now : Z), noteEffect s2 (Some n) now = s2).
Proof.
  cbv zeta. split.
  - set (s := trainer (run mounted (confirmLick 4 ++ onBeat 1000 750 0 lick))).
    assert (trainingState s = training) as T by (vm_compute; reflexivity).
    assert (JS.get (learnedPattern s) (currentPatternProgressRef s) = None) as G
      by (vm_compute; reflexivity).
    split; [exact T |].
    split; [vm_compute; reflexivity |].
    split; [vm_compute; reflexivity |].
    intros n now. unfold noteEffect. rewrite T.
    destruct (String.eqb n ""); [reflexivity |].
    now apply trainingPhase_off_pattern.
  - set (s2 := trainer (run mounted secondSession)).
    assert (trainingState s2 = locked) as T by (vm_compute; reflexivity).
    assert (JS.len (learnedPattern s2) <= currentPatternProgressRef s2) as G
      by (vm_compute; discriminate).
    split; [exact T |].
    split; [vm_compute; reflexivity |].
    split; [vm_compute; reflexivity |].
    intros n now. unfold noteEffect. rewrite T.
    destruct (String.eqb n ""); [reflexivity |].
    now apply lockedPhase_off_pattern.
Qed.

(** *** Learn, lock, train *)

(** C4 as stated fails on the code: the detection already counts as
    confirmation 1 of 5, so the trainer is in [training] after four
    cycles in the locked state, not five. *)
Lemma locked_needs_four_cycles :
  trainingState (trainer (run mounted (confirmLick 4))) = training
  /\ patternMatches (trainer (run mounted (confirmLick 4))) = 5
  /\ trainingState (trainer (run mounted (confirmLick 4))) <> locked.
Proof. vm_compute. repeat split; discriminate. Qed.

(** C4 (amended).  In the simple mode the notes E F G E F G E F G E F G
    fed from the learning state leave the trainer learning for the first
    five notes; the sixth completes the second repetition and locks the
    pattern E F G with the confirmation counter at 1 and the history
    cleared; the remaining six notes are two confirmed cycles (counter
    3).  The counter reaches 5, and the trainer enters training with the
    metronome started at the start tempo, after four confirmed cycles in
    the locked state; after three it is still locked. *)
Theorem learn_lock_train :
  let after (evs : list (Event * Z)) := trainer (run mounted evs) in
  let first5 := ([(PickComplexity simple, 0); (Click, 0)]
                   ++ play 1 ["E"; "F"; "G"; "E"; "F"])%list in
  let all12 := ([(PickComplexity simple, 0); (Click, 0)]
                  ++ play 1 ["E"; "F"; "G"; "E"; "F"; "G";
                             "E"; "F"; "G"; "E"; "F"; "G"])%list in
  (trainingState (after first5) = learning
   /\ learnedPattern (after first5) = []
   /\ noteHistory (after first5) = ["E"; "F"; "G"; "E"; "F"])
  /\ (trainingState (after learnLick) = locked
      /\ learnedPattern (after learnLick) = ["E"; "F"; "G"]
      /\ patternMatches (after learnLick) = 1
      /\ noteHistory (after learnLick) = []
      /\ currentPatternProgressRef (after learnLick) = 0)
  /\ (trainingState (after all12) = locked
      /\ learnedPattern (after all12) = ["E"; "F"; "G"]
      /\ patternMatches (after all12) = 3)
  /\ (trainingState (after (confirmLick 3)) = locked
      /\ patternMatches (after (confirmLick 3)) = 4)
  /\ (trainingState (after (confirmLick 4)) = training
      /\ patternMatches (after (confirmLick 4)) = 5
      /\ learnedPattern (after (confirmLick 4)) = ["E"; "F"; "G"]
      /\ currentPatternProgressRef (after (confirmLick 4)) = 0
      /\ transportStarted (after (confirmLick 4)) = true
      /\ transportBpm (after (confirmLick 4)) = startBpm (after (confirmLick 4))).
Proof. vm_compute. repeat split; reflexivity. Qed.

(** *** Reset *)

Lemma step_click_stop (w : World) (now : Z) :
  trainingState (trainer w) <> idle ->
  step w (Click, now)
  = mkWorld (syncStreakRef (stopAllAudio (trainer w))) (activeNote w).
Proof.
  intros H. destruct w as [s a]. cbn [trainer activeNote] in *.
  unfold step, handle. cbn [trainer activeNote].
  destruct (trainingState s) eqn:T; [contradiction | | |];
    (assert (forall fuel, settle (S fuel) (mkWorld s a)
               (mkWorld (stopAllAudio s) a) now
             = settle fuel (mkWorld (stopAllAudio s) a)
                 (runEffect (mkWorld (stopAllAudio s) a) now) now) as U1
       by (intros fuel; cbn [settle]; unfold depsChanged;
           cbn [trainer activeNote]; rewrite T; cbn; rewrite optEqb_refl;
           reflexivity));
    rewrite U1;
    (assert (runEffect (mkWorld (stopAllAudio s) a) now
             = mkWorld (syncStreakRef (stopAllAudio s)) a) as ->
       by (unfold runEffect, noteEffect; cbn [trainer activeNote];
           destruct a as [n |]; [destruct (String.eqb n "") |]; reflexivity));
    cbn [settle]; unfold depsChanged; cbn;
    rewrite optEqb_refl, Z.eqb_refl;
    destruct (complexity s); reflexivity.
Qed.

Lemma step_click_start (w : World) (now : Z) :
  trainingState (trainer w) = idle ->
  noteHistory (trainer w) = [] ->
  let s' := trainer (step w (Click, now)) in
  trainingState s' = learning /\ streak s' = 0
  /\ bpm s' = startBpm (trainer w) /\ learnedPattern s' = [].
Proof.
  intros T H. destruct w as [s a]. cbn [trainer activeNote] in *.
  unfold step, handle. cbn [trainer activeNote]. rewrite T.
  assert (forall fuel, settle (S fuel) (mkWorld s a)
             (mkWorld (startLearning s) a) now
           = settle fuel (mkWorld (startLearning s) a)
               (runEffect (mkWorld (startLearning s) a) now) now) as U1
    by (intros fuel; cbn [settle]; unfold depsChanged;
        cbn [trainer activeNote]; rewrite T; cbn; rewrite optEqb_refl;
        reflexivity).
  rewrite U1.
  assert (exists h,
            runEffect (mkWorld (startLearning s) a) now
            = mkWorld (syncStreakRef (setNoteHistory h (startLearning s))) a
            /\ depsChanged (mkWorld (startLearning s) a)
                 (mkWorld (syncStreakRef (setNoteHistory h (startLearning s))) a)
               = false) as (h & -> & D).
  { assert (forall h, depsChanged (mkWorld (startLearning s) a)
               (mkWorld (syncStreakRef (setNoteHistory h (startLearning s))) a)
             = false) as D.
    { intros h. unfold depsChanged. cbn. rewrite optEqb_refl, Z.eqb_refl.
      destruct (complexity s); reflexivity. }
    unfold runEffect, noteEffect. cbn [trainer activeNote].
    destruct a as [n |].
    - destruct (String.eqb n "").
      + exists []. split; [| apply D]. destruct s; cbn in *. now subst.
      + exists [n]. split; [| apply D].
        cbn [trainingState startLearning setBpm setStreak setPatternMatches
             setLearnedPattern setIsActive setTrainingState].
        unfold learningPhase. cbn. rewrite H.
        destruct (complexity s); reflexivity.
    - exists []. split; [| apply D]. destruct s; cbn in *. now subst. }
  cbn [settle]. rewrite D. cbn. repeat split; reflexivity.
Qed.

(** What the reset handler does not touch. *)
Lemma stopAllAudio_leaves (s : Trainer) :
  streak (stopAllAudio s) = streak s
  /\ bestStreak (stopAllAudio s) = bestStreak s
  /\ bpm (stopAllAudio s) = bpm s
  /\ currentPatternProgressRef (stopAllAudio s) = currentPatternProgressRef s
  /\ hasPlayedOnThisBeatRef (stopAllAudio s) = hasPlayedOnThisBeatRef s.
Proof. repeat split; reflexivity. Qed.

(** The reset handler by itself, in any world: it clears the learned
    pattern, the confirmation counter, the rolling history and the
    feedback, stops the metronome and returns the trainer to idle; the
    streak and the tempo it leaves as they are, and the start of the next
    session sets them to 0 and to the configured start tempo. *)
Lemma reset_then_restart (w : World) (now later : Z) :
  trainingState (trainer w) <> idle ->
  let stopped := trainer (step w (Click, now)) in
  let restarted := trainer (step (step w (Click, now)) (Click, later)) in
  (trainingState stopped = idle
   /\ learnedPattern stopped = []
   /\ patternMatches stopped = 0
   /\ noteHistory stopped = []
   /\ feedback stopped = None
   /\ transportStarted stopped = false
   /\ loopRef stopped = None)
  /\ (streak stopped = streak (trainer w)
      /\ bpm stopped = bpm (trainer w)
      /\ startBpm stopped = startBpm (trainer w))
  /\ (trainingState restarted = learning
      /\ learnedPattern restarted = []
      /\ streak restarted = 0
      /\ bpm restarted = startBpm (trainer w)).
Proof.
  intros H. cbv zeta. rewrite (step_click_stop w now H).
  split; [| split].
  - cbn. repeat split; reflexivity.
  - cbn. repeat split; reflexivity.
  - destruct (step_click_start
                (mkWorld (syncStreakRef (stopAllAudio (trainer w))) (activeNote w))
                later eq_refl eq_refl) as (A & B & C & D).
    cbn [trainer] in C. repeat split; assumption.
Qed.

Lemma run_app (w : World) (evs more : list (Event * Z)) :
  run w (evs ++ more) = run (run w evs) more.
Proof. unfold run. apply fold_left_app. Qed.

(** C3.  Reset from every state a session can reach.  After any sequence
    of events from the first render that leaves the trainer outside idle,
    a click on the button returns it to idle with the learned pattern, the
    confirmation counter, the rolling history and the feedback cleared,
    the streak at 0 and the tempo at the configured start tempo.  The
    cursor is the one part of the claim the reset does not deliver: it
    keeps the value it had, so the postcondition of the claim fails
    whenever the cursor was not 0 before the reset. *)
Theorem reset_leaves_cursor (evs : list (Event * Z)) (now : Z) :
  let before := trainer (run mounted evs) in
  let after := trainer (run mounted (evs ++ [(Click, now)])) in
  trainingState before <> idle ->
  (trainingState after = idle /\ learnedPattern after = []
   /\ streak after = 0 /\ bpm after = startBpm after
   /\ patternMatches after = 0 /\ noteHistory after = []
   /\ feedback after = None)
  /\ currentPatternProgressRef after = currentPatternProgressRef before
  /\ (currentPatternProgressRef before <> 0 ->
      ~ (learnedPattern after = [] /\ streak after = 0
         /\ currentPatternProgressRef after = 0 /\ bpm after = startBpm after
         /\ trainingState after = idle)).
Proof.
  cbv zeta. intros H.
  assert (noLoopCounted (trainer mounted)) as I.
  { unfold noLoopCounted. cbn. repeat split; try reflexivity; lia. }
  destruct (run_noLoopCounted evs mounted I) as (_ & S & _ & _ & T).
  specialize (T H).
  rewrite run_app. cbn [run fold_left].
  rewrite (step_click_stop (run mounted evs) now H). cbn [trainer].
  set (s := trainer (run mounted evs)) in *.
  change (streak (syncStreakRef (stopAllAudio s))) with (streak s).
  change (bpm (syncStreakRef (stopAllAudio s))) with (bpm s).
  change (startBpm (syncStreakRef (stopAllAudio s))) with (startBpm s).
  change (currentPatternProgressRef (syncStreakRef (stopAllAudio s)))
    with (currentPatternProgressRef s).
  split; [| split].
  - repeat split; try reflexivity; assumption.
  - reflexivity.
  - intros C (_ & _ & C' & _). contradiction.
Qed.

Lemma reset_leaves_cursor_witness :
  let after :=
    trainer (run mounted ((learnLick ++ play 2 ["E"]) ++ [(Click, 3)])) in
  trainingState after = idle /\ learnedPattern after = []
  /\ streak after = 0 /\ bpm after = startBpm after
  /\ currentPatternProgressRef after = 1.
Proof.
  cbv zeta.
  assert (trainingState (trainer (run mounted (learnLick ++ play 2 ["E"]))) <> idle)
    as H by (vm_compute; discriminate).
  destruct (reset_leaves_cursor (learnLick ++ play 2 ["E"]) 3 H)
    as ((A & B & C & D & _) & E & _).
  split; [exact A |]. split; [exact B |]. split; [exact C |].
  split; [exact D |]. rewrite E. vm_compute. reflexivity.
Defined.

(** *** Timing *)

Lemma Qabs_inject_Z (z : Z) : Qabs (inject_Z z) = inject_Z (Z.abs z).
Proof. reflexivity. Qed.

(** A comparison of two rationals that are integers. *)
Lemma Qltb_inject_Z (x y : Q) (a b : Z) :
  (x == inject_Z a)%Q -> (y == inject_Z b)%Q -> JS.Qltb x y = (a <? b).
Proof.
  intros X Y. destruct (Z.ltb_spec a b) as [H | H].
  - apply Qltb_lt. rewrite X, Y. now rewrite <- Zlt_Qlt.
  - apply Qltb_ge. rewrite X, Y. now rewrite <- Zle_Qle.
Qed.

(** At 120 BPM the folded offset of a hit [late] ms after the last tick:
    [late] itself up to half the period, [late - 500] after it. *)
Lemma beatOffset_at_120 (late : Z) :
  (beatOffset (60000 / inject_Z 120) (inject_Z late)
   == inject_Z (if late <=? 250 then late else late - 500))%Q.
Proof.
  unfold beatOffset.
  rewrite (Qltb_inject_Z _ _ 250 late); [| reflexivity | reflexivity].
  destruct (Z.ltb_spec 250 late); destruct (Z.leb_spec late 250); try lia.
  - unfold Z.sub. rewrite inject_Z_plus, inject_Z_opp. unfold Qminus.
    apply Qplus_comp; reflexivity.
  - reflexivity.
Qed.

(** The feedback of an accepted hit at 120 BPM, by the integer offset
    [off] of the hit from its beat. *)
Lemma precisionFeedback_at_120 (late : Z) (o : Q) (now : Z) :
  let off := if late <=? 250 then late else late - 500 in
  precisionFeedback (60000 / inject_Z 120)
    (beatOffset (60000 / inject_Z 120) (inject_Z late)) o now
  = if 75 <? Z.abs off then
      mkFeedback (if 0 <? off then "Late" else "Early")
                 "text-amber-500" (Some o) fair now
    else if 25 <? Z.abs off then
      mkFeedback (if 0 <? off then "Slightly Late" else "Slightly Early")
                 "text-blue-400" (Some o) good now
    else mkFeedback "Perfect!" "text-emerald-400" (Some o) perfect now.
Proof.
  cbv zeta. pose proof (beatOffset_at_120 late) as D.
  set (d := beatOffset (60000 / inject_Z 120) (inject_Z late)) in *.
  set (off := if late <=? 250 then late else late - 500) in *.
  assert (Qabs d == inject_Z (Z.abs off))%Q as A
    by (rewrite D, Qabs_inject_Z; reflexivity).
  unfold precisionFeedback. cbv zeta.
  rewrite (Qltb_inject_Z _ (Qabs d) 75 (Z.abs off)); [| reflexivity | exact A].
  rewrite (Qltb_inject_Z _ (Qabs d) 25 (Z.abs off)); [| reflexivity | exact A].
  rewrite (Qltb_inject_Z 0 d 0 off); [| reflexivity | exact D].
  reflexivity.
Qed.

(** C5.  Timing classification at 120 BPM (beat period 500 ms).  In
    training, take the note expected at the cursor on a beat not yet
    played, arriving [late] ms after the last metronome tick, and let
    [off] be its offset from the nearest beat: [late] up to 250 ms, and
    [late - 500] (negative: before the next beat) from there on.  For
    every whole number of milliseconds [late] from 0 to 500: at 200 ms or
    more from the nearest beat the note is neither a hit nor a miss (the
    run of the effect changes nothing: cursor, beat flag, streak and
    feedback are as before); nearer, it is taken (cursor + 1, beat marked
    as played, normalized offset [off / 250] up to rounding) and classified
    perfect up to 25 ms, good (slightly late or slightly early) above 25
    and up to 75 ms, and fair (late or early) above 75 ms.  In particular a hit at the beat instant, 0 ms or 500 ms
    after the tick, is perfect; 100 ms late is fair, late; 100 ms early
    (400 ms after the tick) is fair, early; 250 ms late is ignored. *)
Theorem timing_classification (s : Trainer) (n : string) :
  trainingState s = training ->
  transportBpm s = 120 ->
  n <> "" ->
  JS.get (learnedPattern s) (currentPatternProgressRef s) = Some n ->
  hasPlayedOnThisBeatRef s = false ->
  let hit (late : Z) := noteEffect s (Some n) (lastBeatTime s + late) in
  let taken (late : Z) (kind : HitType) (m : string) :=
    option_map hitType (feedback (hit late)) = Some kind
    /\ option_map msg (feedback (hit late)) = Some m
    /\ currentPatternProgressRef (hit late) = currentPatternProgressRef s + 1
    /\ hasPlayedOnThisBeatRef (hit late) = true
    /\ exists o,
         option_map offset (feedback (hit late)) = Some (Some o)
         /\ (Qabs (o - inject_Z (if late <=? 250 then late else late - 500)
                       / 250) <= Binary64.slack)%Q in
  (60000 / inject_Z (transportBpm s) == 500)%Q
  /\ taken 0 perfect "Perfect!"
  /\ taken 100 fair "Late"
  /\ hit 250 = s
  /\ taken 500 perfect "Perfect!"
  /\ taken 400 fair "Early"
  /\ forall late, 0 <= late <= 500 ->
       let off := if late <=? 250 then late else late - 500 in
       (200 <= Z.abs off -> hit late = s)
       /\ (Z.abs off <= 25 -> taken late perfect "Perfect!")
       /\ (25 < Z.abs off <= 75 ->
           taken late good
                 (if 0 <? off then "Slightly Late" else "Slightly Early"))
       /\ (75 < Z.abs off < 200 ->
           taken late fair (if 0 <? off then "Late" else "Early")).
Proof.
  intros T B N G P hit taken.
  assert (String.eqb n "" = false) as N' by now apply String.eqb_neq.
  assert (0 <= currentPatternProgressRef s) as C.
  { unfold JS.get in G.
    destruct (Z.ltb_spec (currentPatternProgressRef s) 0); [discriminate | lia]. }
  assert ((currentPatternProgressRef s + 1 =? 0) = false) as C' by lia.
  assert (forall late,
            hit late
            = let off := if late <=? 250 then late else late - 500 in
              if Z.abs off <? 200
              then setFeedback
                     (Some (if 75 <? Z.abs off then
                              mkFeedback (if 0 <? off then "Late" else "Early")
                                "text-amber-500"
                                (Some (beatOffset (60000 / inject_Z 120)
                                         (inject_Z late)
                                       / (60000 / inject_Z 120 / 2))%Q)
                                fair (lastBeatTime s + late)
                            else if 25 <? Z.abs off then
                              mkFeedback
                                (if 0 <? off then "Slightly Late"
                                 else "Slightly Early")
                                "text-blue-400"
                                (Some (beatOffset (60000 / inject_Z 120)
                                         (inject_Z late)
                                       / (60000 / inject_Z 120 / 2))%Q)
                                good (lastBeatTime s + late)
                            else
                              mkFeedback "Perfect!" "text-emerald-400"
                                (Some (beatOffset (60000 / inject_Z 120)
                                         (inject_Z late)
                                       / (60000 / inject_Z 120 / 2))%Q)
                                perfect (lastBeatTime s + late)))
                     (setCurrentPatternProgressRef
                        (currentPatternProgressRef s + 1)
                        (setHasPlayedOnThisBeatRef true s))
              else s) as H.
  { intros late. unfold hit, noteEffect, trainingPhase.
    rewrite N', T, B, G, P.
    replace (lastBeatTime s + late - lastBeatTime s) with late by lia.
    cbn [isExpected]. rewrite String.eqb_refl.
    cbn [andb negb currentPatternProgressRef setCurrentPatternProgressRef].
    rewrite C'. cbv zeta. rewrite andb_true_r.
    rewrite precisionFeedback_at_120. cbv zeta.
    rewrite (Qltb_inject_Z _ _
               (Z.abs (if late <=? 250 then late else late - 500)) 200);
      [reflexivity | | reflexivity].
    rewrite beatOffset_at_120, Qabs_inject_Z. reflexivity. }
  assert (forall late, 0 <= late <= 500 ->
       let off := if late <=? 250 then late else late - 500 in
       (200 <= Z.abs off -> hit late = s)
       /\ (Z.abs off <= 25 -> taken late perfect "Perfect!")
       /\ (25 < Z.abs off <= 75 ->
           taken late good
                 (if 0 <? off then "Slightly Late" else "Slightly Early"))
       /\ (75 < Z.abs off < 200 ->
           taken late fair (if 0 <? off then "Late" else "Early"))) as General.
  { intros late R. cbv zeta. unfold taken. rewrite (H late). cbv zeta.
    set (off := if late <=? 250 then late else late - 500).
    set (o := (beatOffset (60000 / inject_Z 120) (inject_Z late)
               / (60000 / inject_Z 120 / 2))%Q).
    assert (Qabs (o - inject_Z off / 250) <= Binary64.slack)%Q as O.
    { assert (o == inject_Z off / 250)%Q as E.
      { unfold o, off. rewrite beatOffset_at_120.
        apply Qdiv_comp; reflexivity. }
      setoid_replace (o - inject_Z off / 250)%Q with 0%Q by (rewrite E; ring).
      discriminate. }
    split; [| split; [| split]]; intros A.
    - destruct (Z.ltb_spec (Z.abs off) 200); [lia | reflexivity].
    - destruct (Z.ltb_spec (Z.abs off) 200); [| lia].
      destruct (Z.ltb_spec 75 (Z.abs off)); [lia |].
      destruct (Z.ltb_spec 25 (Z.abs off)); [lia |].
      repeat split; try reflexivity.
      exists o. split; [reflexivity | exact O].
    - destruct (Z.ltb_spec (Z.abs off) 200); [| lia].
      destruct (Z.ltb_spec 75 (Z.abs off)); [lia |].
      destruct (Z.ltb_spec 25 (Z.abs off)); [| lia].
      repeat split; try reflexivity.
      exists o. split; [reflexivity | exact O].
    - destruct (Z.ltb_spec (Z.abs off) 200); [| lia].
      destruct (Z.ltb_spec 75 (Z.abs off)); [| lia].
      repeat split; try reflexivity.
      exists o. split; [reflexivity | exact O]. }
  rewrite B. split; [reflexivity |].
  split; [apply (General 0); simpl; lia |].
  split; [apply (General 100); simpl; lia |].
  split; [apply (General 250); simpl; lia |].
  split; [apply (General 500); simpl; lia |].
  split; [apply (General 400); simpl; lia |].
  exact General.
Qed.

Lemma timing_classification_witness :
  let s := trainer (run mounted (at120 ++ [(Tick, 1000)])) in
  option_map hitType (feedback (noteEffect s (Some "E") (lastBeatTime s + 0)))
    = Some perfect
  /\ option_map hitType (feedback (noteEffect s (Some "E") (lastBeatTime s + 100)))
    = Some fair
  /\ noteEffect s (Some "E") (lastBeatTime s + 250) = s
  /\ option_map msg (feedback (noteEffect s (Some "E") (lastBeatTime s + 400)))
    = Some "Early"
  /\ option_map hitType (feedback (noteEffect s (Some "E") (lastBeatTime s + 500)))
    = Some perfect.
Proof.
  cbv zeta.
  set (s := trainer (run mounted (at120 ++ [(Tick, 1000)]))).
  assert (trainingState s = training) as T by (vm_compute; reflexivity).
  assert (transportBpm s = 120) as B by (vm_compute; reflexivity).
  assert ("E" <> "") as N by discriminate.
  assert (JS.get (learnedPattern s) (currentPatternProgressRef s) = Some "E") as G
    by (vm_compute; reflexivity).
  assert (hasPlayedOnThisBeatRef s = false) as P by (vm_compute; reflexivity).
  destruct (timing_classification s "E" T B N G P)
    as (_ & (H0 & _) & (H100 & _) & H250 & (H500 & _) & (_ & H400 & _) & _).
  split; [exact H0 | split; [exact H100 | split; [exact H250 |]]].
  split; [exact H400 | exact H500].
Defined.

End Trainer.

(** * Further properties *)

(** ** Chord matcher: what a match is made of *)

Section ChordNotes.

Import Constants.
Local Open Scope string_scope.
Local Open Scope Z_scope.

Lemma noteIndices_In (notes : list string) (i : Z) :
  In i (noteIndices notes)
  <-> exists n, In n notes /\ i = JS.indexOf NOTE_NAMES (JS.beforeDigit n).
Proof.
  unfold noteIndices. split.
  - intros H. apply (Permutation_in _ (sortNum_perm _)) in H.
    apply (fold_setAdd _ []) in H. destruct H as [[] | H].
    apply in_map_iff in H. destruct H as (n & E & Hn). now exists n.
  - intros (n & Hn & ->).
    apply (Permutation_in _ (Permutation_sym (sortNum_perm _))).
    apply (fold_setAdd _ []). right. apply in_map_iff. now exists n.
Qed.

(** [NOTE_NAMES[NOTE_NAMES.indexOf(name)]] is [name] for the twelve names. *)
Lemma get_indexOf (name : string) :
  In name NOTE_NAMES ->
  0 <= JS.indexOf NOTE_NAMES name < 12
  /\ JS.get NOTE_NAMES (JS.indexOf NOTE_NAMES name) = Some name.
Proof.
  intros H. simpl in H.
  repeat (destruct H as [<- | H];
          [split; [vm_compute; split; [discriminate | reflexivity] | reflexivity] |]).
  destruct H.
Qed.

Lemma relativeIntervals_In (idx : list Z) (r int : Z) :
  In int (relativeIntervals idx r)
  <-> exists i, In i idx /\ int = Z.rem (i - r + 12) 12.
Proof.
  unfold relativeIntervals. split.
  - intros H. apply (Permutation_in _ (sortNum_perm _)) in H.
    apply in_map_iff in H. destruct H as (i & E & Hi). now exists i.
  - intros (i & Hi & ->).
    apply (Permutation_in _ (Permutation_sym (sortNum_perm _))).
    apply in_map_iff. now exists i.
Qed.

Lemma transpose_back (i r : Z) :
  0 <= i < 12 -> 0 <= r < 12 -> Z.rem (r + Z.rem (i - r + 12) 12) 12 = i.
Proof.
  intros Hi Hr. rewrite (Z.rem_mod_nonneg (i - r + 12) 12) by lia.
  pose proof (Z.mod_pos_bound (i - r + 12) 12 ltac:(lia)).
  rewrite Z.rem_mod_nonneg by lia.
  rewrite Zplus_mod_idemp_r. replace (r + (i - r + 12)) with (i + 1 * 12) by lia.
  rewrite Z_mod_plus_full. apply Z.mod_small. lia.
Qed.

Lemma firstType_notes (r : Z) (rel : list Z) (types : list ChordDefinition)
      (m : ChordMatch) :
  firstType r rel types = Some m ->
  exists t, In t types /\ isMatch rel t = true
            /\ root m = JS.get NOTE_NAMES r
            /\ matchName m = (JS.showStr (JS.get NOTE_NAMES r) ++ suffix t)%string
            /\ notes m = map (fun int => JS.get NOTE_NAMES (Z.rem (r + int) 12))
                             (intervals t).
Proof.
  induction types as [| t types IH]; simpl; [discriminate |].
  destruct (isMatch rel t) eqn:E.
  - intros [= <-]. exists t. simpl. repeat split; auto.
  - intros H. destruct (IH H) as (t' & Ht & R). exists t'. tauto.
Qed.

Lemma firstRoot_notes (idx roots : list Z) (m : ChordMatch) :
  firstRoot idx roots = Some m ->
  exists r t, In r roots /\ In t CHORD_TYPES
              /\ isMatch (relativeIntervals idx r) t = true
              /\ root m = JS.get NOTE_NAMES r
              /\ matchName m = (JS.showStr (JS.get NOTE_NAMES r) ++ suffix t)%string
              /\ notes m = map (fun int => JS.get NOTE_NAMES (Z.rem (r + int) 12))
                               (intervals t).
Proof.
  induction roots as [| r roots IH]; cbn [firstRoot]; [discriminate |].
  destruct (firstType r (relativeIntervals idx r) CHORD_TYPES) as [m' |] eqn:E.
  - intros [= <-]. destruct (firstType_notes _ _ _ _ E) as (t & R).
    exists r, t. simpl. tauto.
  - intros H. destruct (IH H) as (r' & t & Hr & R). exists r', t. simpl. tauto.
Qed.

(** X1.  Whatever [identifyChord] returns is the first match in its search
    order: the indices it searches are strictly increasing, no template
    passes the subset test at an earlier root, no earlier template passes
    it at the chosen root, and the chosen template's intervals are all
    among the played intervals relative to that root. *)
Theorem identifyChord_lowest_root_first_template
        (notes : list string) (m : ChordMatch) :
  identifyChord notes = Some m ->
  exists earlier r later before t after,
    noteIndices notes = (earlier ++ r :: later)%list
    /\ StronglySorted Z.lt (noteIndices notes)
    /\ CHORD_TYPES = (before ++ t :: after)%list
    /\ Forall (fun r' => Forall (fun t' =>
                 isMatch (relativeIntervals (noteIndices notes) r') t' = false)
                 CHORD_TYPES) earlier
    /\ Forall (fun t' =>
                 isMatch (relativeIntervals (noteIndices notes) r) t' = false) before
    /\ (forall int, In int (intervals t) ->
                    In int (relativeIntervals (noteIndices notes) r))
    /\ root m = JS.get NOTE_NAMES r
    /\ type m = chordName t.
Proof.
  unfold identifyChord. destruct (JS.len notes <? 2); [discriminate |].
  intros H.
  destruct (firstRoot_first _ _ _ H)
    as (e & r & l & b & t & a & E & T & He & Hb & Hm & R).
  exists e, r, l, b, t, a. repeat split; try tauto.
  - unfold noteIndices. apply sorted_nodup_strict; [apply sortNum_sorted |].
    apply (Permutation_NoDup (Permutation_sym (sortNum_perm _))).
    apply (fold_setAdd _ []). constructor.
  - intros int Hint. unfold isMatch in Hm. rewrite forallb_forall in Hm.
    apply includes_In. now apply Hm.
Qed.

Lemma identifyChord_lowest_root_first_template_witness :
  exists earlier r later before t after,
    noteIndices ["D"; "F"; "A"; "C"] = (earlier ++ r :: later)%list
    /\ CHORD_TYPES = (before ++ t :: after)%list
    /\ type (mkMatch "Dm" (Some "D") "Minor" [Some "D"; Some "F"; Some "A"])
       = chordName t.
Proof.
  destruct (identifyChord_lowest_root_first_template ["D"; "F"; "A"; "C"]
              (mkMatch "Dm" (Some "D") "Minor" [Some "D"; Some "F"; Some "A"]))
    as (e & r & l & b & t & a & H1 & _ & H3 & _ & _ & _ & _ & H8).
  - vm_compute. reflexivity.
  - exists e, r, l, b, t, a. split; [exact H1 | split; [exact H3 | exact H8]].
Defined.

(** X2.  Notes of a single pitch class never make a chord: when all the
    names passed have the same pitch class (the same name up to the first
    digit), in whatever number and octaves, [identifyChord] returns null. *)
Theorem identifyChord_single_pitch_class (notes : list string) :
  (forall a b, In a notes -> In b notes -> JS.beforeDigit a = JS.beforeDigit b) ->
  identifyChord notes = None.
Proof.
  intros H. unfold identifyChord.
  destruct (JS.len notes <? 2); [reflexivity |].
  apply firstRoot_short.
  destruct notes as [| a notes]; [simpl; lia |].
  assert (noteIndices (a :: notes) = noteIndices [a]) as ->.
  { unfold noteIndices. apply canonical_indices. intros z.
    rewrite !in_map_iff. split.
    - intros (n & <- & Hn). exists a. split; [| now left].
      now rewrite (H a n (or_introl eq_refl) Hn).
    - intros (n & <- & [<- | []]). exists a. split; [reflexivity | now left]. }
  apply (noteIndices_length [a]).
Qed.

Lemma identifyChord_single_pitch_class_witness :
  identifyChord ["E2"; "E3"; "E"; "E4"] = None.
Proof.
  apply identifyChord_single_pitch_class.
  intros a b Ha Hb. simpl in Ha, Hb.
  repeat (destruct Ha as [<- | Ha]); try destruct Ha;
    repeat (destruct Hb as [<- | Hb]); try destruct Hb; reflexivity.
Defined.

(** Root and notes of a match are pitch classes of the input. *)
Lemma chord_from_played (notes : list string) (m : ChordMatch) :
  (forall n, In n notes -> In (JS.beforeDigit n) NOTE_NAMES) ->
  identifyChord notes = Some m ->
  (exists r t,
      root m = Some r /\ In r (map JS.beforeDigit notes)
      /\ In t CHORD_TYPES /\ matchName m = (r ++ suffix t)%string)
  /\ (forall x, In x (Constants.notes m) ->
                exists pc, x = Some pc /\ In pc (map JS.beforeDigit notes)).
Proof.
  intros V. unfold identifyChord. destruct (JS.len notes <? 2); [discriminate |].
  intros H.
  destruct (firstRoot_notes _ _ _ H) as (r & t & Hr & Ht & Hm & R & N & L).
  assert (forall i, In i (noteIndices notes) ->
            0 <= i < 12
            /\ exists n, In n notes /\ JS.get NOTE_NAMES i = Some (JS.beforeDigit n))
    as Played.
  { intros i Hi. apply noteIndices_In in Hi. destruct Hi as (n & Hn & ->).
    destruct (get_indexOf _ (V n Hn)) as (B & G). split; [exact B |].
    now exists n. }
  destruct (Played r Hr) as (Br & nr & Hnr & Gr).
  split.
  - exists (JS.beforeDigit nr), t. rewrite R, N, Gr. simpl.
    repeat split; auto. apply in_map_iff. now exists nr.
  - intros x Hx. rewrite L in Hx. apply in_map_iff in Hx.
    destruct Hx as (int & <- & Hint).
    unfold isMatch in Hm. rewrite forallb_forall in Hm.
    specialize (Hm int Hint). apply includes_In in Hm.
    apply relativeIntervals_In in Hm. destruct Hm as (i & Hi & ->).
    destruct (Played i Hi) as (Bi & ni & Hni & Gi).
    rewrite (transpose_back i r Bi Br), Gi.
    exists (JS.beforeDigit ni). split; [reflexivity |].
    apply in_map_iff. now exists ni.
Qed.

(** X3.  A chord is made of played notes only.  When every name passed has
    a pitch class among the twelve note names and [identifyChord] finds a
    chord, its root is the pitch class of one of the names passed, its
    name is that root followed by the suffix of one of the chord types, and
    every note it lists is the pitch class of one of the names passed. *)
Theorem identifyChord_notes_were_played (notes : list string) (m : ChordMatch) :
  (forall n, In n notes -> In (JS.beforeDigit n) NOTE_NAMES) ->
  identifyChord notes = Some m ->
  (exists r t,
      root m = Some r /\ In r (map JS.beforeDigit notes)
      /\ In t CHORD_TYPES /\ matchName m = (r ++ suffix t)%string)
  /\ (forall x, In x (Constants.notes m) ->
                exists pc, x = Some pc /\ In pc (map JS.beforeDigit notes)).
Proof. apply chord_from_played. Qed.

Lemma identifyChord_notes_were_played_witness :
  exists r t,
    Some "A" = Some r /\ In r (map JS.beforeDigit ["E2"; "A2"; "C3"])
    /\ In t CHORD_TYPES /\ "Am" = (r ++ suffix t)%string.
Proof.
  assert (forall n, In n ["E2"; "A2"; "C3"] ->
                    In (JS.beforeDigit n) NOTE_NAMES) as V.
  { intros n Hn. simpl in Hn.
    repeat (destruct Hn as [<- | Hn]; [vm_compute; tauto |]). destruct Hn. }
  exact (proj1 (identifyChord_notes_were_played
                  ["E2"; "A2"; "C3"]
                  (mkMatch "Am" (Some "A") "Minor" [Some "A"; Some "C"; Some "E"])
                  V eq_refl)).
Defined.

End ChordNotes.

(** ** Note mapper: order, octaves and the range gate *)

Section NoteMapperOrder.

Import Constants.
Local Open Scope Q_scope.

Lemma floorLog2_unique (x : Q) (k : Z) :
  0 < x -> 2 ^ k <= x -> x < 2 ^ (k + 1) -> floorLog2 x = k.
Proof.
  intros Hx L U. destruct (floorLog2_bounds x Hx) as (L' & U').
  assert (k < floorLog2 x + 1)%Z.
  { apply (Qpower_lt_compat_l_inv 2); [| lra]. eapply Qle_lt_trans; eassumption. }
  assert (floorLog2 x < k + 1)%Z.
  { apply (Qpower_lt_compat_l_inv 2); [| lra]. eapply Qle_lt_trans; eassumption. }
  lia.
Qed.

Lemma floorLog2_le (x y : Q) : 0 < x -> x <= y -> (floorLog2 x <= floorLog2 y)%Z.
Proof.
  intros Hx Hxy.
  destruct (floorLog2_bounds x Hx) as (L & _).
  destruct (floorLog2_bounds y) as (_ & U); [lra |].
  assert (floorLog2 x < floorLog2 y + 1)%Z; [| lia].
  apply (Qpower_lt_compat_l_inv 2); [| lra]. lra.
Qed.

Lemma semitoneIndex_le (f g : Q) :
  0 < f -> f <= g -> (semitoneIndex f <= semitoneIndex g)%Z.
Proof.
  intros Hf Hfg. unfold semitoneIndex, roundSemitones.
  assert (0 < f / 440) as Hr by (apply Qlt_shift_div_l; lra).
  assert (f / 440 <= g / 440) as M.
  { apply Qle_shift_div_l; [lra |].
    setoid_replace (f / 440 * 440) with f by (field; lra). exact Hfg. }
  assert (floorLog2 ((f / 440) ^ 24) <= floorLog2 ((g / 440) ^ 24))%Z as K.
  { apply floorLog2_le; [now apply Qpower_0_lt |].
    apply (pow_nat_mono (f / 440) (g / 440) 24); lra. }
  apply Z.add_le_mono_r. apply Z.div_le_mono; lia.
Qed.

Lemma semitoneIndex_double (f : Q) :
  0 < f -> semitoneIndex (2 * f) = (semitoneIndex f + 12)%Z.
Proof.
  intros Hf. unfold semitoneIndex, roundSemitones.
  assert (0 < f / 440) as Hr by (apply Qlt_shift_div_l; lra).
  destruct (floorLog2_bounds ((f / 440) ^ 24)) as (L & U);
    [now apply Qpower_0_lt |].
  set (k := floorLog2 ((f / 440) ^ 24)) in *.
  assert ((2 * f / 440) ^ 24 == 2 ^ 24 * (f / 440) ^ 24) as E.
  { rewrite <- Qmult_power. apply Qpower_comp; [field | reflexivity]. }
  assert (0 < (2 : Q) ^ 24) as P by reflexivity.
  assert (floorLog2 ((2 * f / 440) ^ 24) = (k + 24)%Z) as ->.
  { apply floorLog2_unique.
    - apply Qpower_0_lt. apply Qlt_shift_div_l; lra.
    - rewrite E, Qpower_plus by discriminate. rewrite (Qmult_comm (2 ^ k)).
      apply Qmult_le_l; assumption.
    - rewrite E. replace (k + 24 + 1)%Z with ((k + 1) + 24)%Z by lia.
      rewrite Qpower_plus by discriminate. rewrite (Qmult_comm (2 ^ (k + 1))).
      apply Qmult_lt_l; assumption. }
  replace (k + 24 + 1)%Z with (k + 1 + 12 * 2)%Z by lia.
  rewrite Z.div_add by lia. lia.
Qed.

Lemma noteNum_positive (f : Q) :
  0 < f -> getNoteFromFrequency f
           = mkNote (JS.get NOTE_NAMES (Z.rem (semitoneIndex f) 12))
                    (Int (semitoneIndex f / 12 - 1)) (Int (semitoneIndex f)).
Proof.
  intros H. unfold getNoteFromFrequency, roundedNote.
  assert (JS.Qltb f 0 = false) as -> by (apply Qltb_ge; lra).
  destruct (Qeq_bool f 0) eqn:E; [apply Qeq_bool_iff in E; lra |].
  reflexivity.
Qed.

(** The note of a semitone index in the gated range, read back. *)
Lemma note_of_index (idx : Z) :
  (15 <= idx <= 107)%Z ->
  exists name,
    JS.get NOTE_NAMES (Z.rem idx 12) = Some name
    /\ In name NOTE_NAMES
    /\ idx = (12 * ((idx / 12 - 1) + 1) + JS.indexOf NOTE_NAMES name)%Z.
Proof.
  intros H.
  assert (Z.rem idx 12 = idx mod 12) as -> by (apply Z.rem_mod_nonneg; lia).
  pose proof (Z.div_mod idx 12 ltac:(lia)) as D.
  pose proof (Z.mod_pos_bound idx 12 ltac:(lia)) as B.
  set (r := (idx mod 12)%Z) in *.
  assert (r = 0 \/ r = 1 \/ r = 2 \/ r = 3 \/ r = 4 \/ r = 5 \/ r = 6 \/ r = 7
          \/ r = 8 \/ r = 9 \/ r = 10 \/ r = 11)%Z as C by lia.
  repeat (destruct C as [-> | C];
          [eexists; split; [reflexivity |]; split;
           [simpl; tauto | vm_compute JS.indexOf; lia] |]).
  subst r. rewrite C. eexists. split; [reflexivity |]. split;
    [simpl; tauto | vm_compute JS.indexOf; lia].
Qed.

(** X4.  The note mapper is monotone.  Of two frequencies in the range of
    the normal doubles, neither of them within the slack of a frequency
    where the semitone index changes, the higher one never gets the lower
    note number. *)
Theorem getNoteFromFrequency_monotone (f g : Q) :
  Binary64.tiny <= f -> f <= g -> g <= Binary64.huge ->
  Binary64.clearOfBoundary f -> Binary64.clearOfBoundary g ->
  exists a b, noteNum (getNoteFromFrequency f) = Int a
              /\ noteNum (getNoteFromFrequency g) = Int b /\ (a <= b)%Z.
Proof.
  intros Tf Hfg _ _ _. pose proof (above_tiny f Tf) as Hf.
  exists (semitoneIndex f), (semitoneIndex g).
  rewrite (noteNum_positive f Hf), (noteNum_positive g) by lra.
  repeat split. now apply semitoneIndex_le.
Qed.

Lemma getNoteFromFrequency_monotone_witness :
  exists a b, noteNum (getNoteFromFrequency (8241 # 100)) = Int a
              /\ noteNum (getNoteFromFrequency (11000 # 100)) = Int b
              /\ (a <= b)%Z.
Proof.
  apply getNoteFromFrequency_monotone.
  - vm_compute. discriminate.
  - vm_compute. discriminate.
  - vm_compute. discriminate.
  - exists (-29)%Z. split; vm_compute; discriminate.
  - exists (-24)%Z. split; vm_compute; discriminate.
Defined.

(** X5.  Doubling a frequency raises the note by exactly one octave.  For
    a frequency in the range of the normal doubles that is not within the
    slack of a frequency where the semitone index changes (its double is
    then not either), the note number grows by 12, the octave by 1, and
    from 8 Hz upwards the name stays the same. *)
Theorem getNoteFromFrequency_octave (f : Q) :
  Binary64.tiny <= f -> 2 * f <= Binary64.huge ->
  Binary64.clearOfBoundary f ->
  noteNum (getNoteFromFrequency (2 * f)) = Int (semitoneIndex f + 12)
  /\ noteNum (getNoteFromFrequency f) = Int (semitoneIndex f)
  /\ octave (getNoteFromFrequency (2 * f)) = Int (semitoneIndex f / 12 - 1 + 1)
  /\ octave (getNoteFromFrequency f) = Int (semitoneIndex f / 12 - 1)
  /\ (8 <= f -> name (getNoteFromFrequency (2 * f)) = name (getNoteFromFrequency f)).
Proof.
  intros Tf _ _. pose proof (above_tiny f Tf) as Hf.
  rewrite (noteNum_positive f Hf), (noteNum_positive (2 * f)) by lra.
  rewrite (semitoneIndex_double f Hf). cbn [noteNum octave name].
  replace (semitoneIndex f + 12)%Z with (semitoneIndex f + 1 * 12)%Z by lia.
  rewrite Z.div_add by lia.
  repeat split; try (f_equal; lia).
  intros H8. pose proof (semitoneIndex_nonneg f H8) as N.
  rewrite !Z.rem_mod_nonneg by lia. now rewrite Z_mod_plus_full.
Qed.

Lemma getNoteFromFrequency_octave_witness :
  noteNum (getNoteFromFrequency (2 * 110)) = Int (semitoneIndex 110 + 12)
  /\ name (getNoteFromFrequency (2 * 110)) = name (getNoteFromFrequency 110).
Proof.
  destruct (getNoteFromFrequency_octave 110) as (A & _ & _ & _ & N).
  - vm_compute. discriminate.
  - vm_compute. discriminate.
  - exists (-24)%Z. split; vm_compute; discriminate.
  - split; [exact A | apply N; discriminate].
Defined.

(** The note of a frequency inside the range gate. *)
Lemma gated_note (f : Q) :
  20 < f -> f < 4000 ->
  exists name oct,
    getNoteFromFrequency f
    = mkNote (Some name) (Int oct) (Int (12 * (oct + 1) + JS.indexOf NOTE_NAMES name))
    /\ In name NOTE_NAMES /\ (0 <= oct <= 7)%Z
    /\ (15 <= 12 * (oct + 1) + JS.indexOf NOTE_NAMES name <= 107)%Z.
Proof.
  intros L U.
  assert (15 <= semitoneIndex f <= 107)%Z as B.
  { split.
    - change 15%Z with (semitoneIndex 20). apply semitoneIndex_le; lra.
    - change 107%Z with (semitoneIndex 4000). apply semitoneIndex_le; lra. }
  destruct (note_of_index _ B) as (name & G & I & E).
  exists name, (semitoneIndex f / 12 - 1)%Z.
  rewrite (noteNum_positive f) by lra. rewrite G, <- E.
  repeat split; try assumption; try lia.
  - pose proof (Z.div_le_lower_bound (semitoneIndex f) 12 1 ltac:(lia) ltac:(lia)).
    lia.
  - pose proof (Z.div_lt_upper_bound (semitoneIndex f) 12 9 ltac:(lia) ltac:(lia)).
    lia.
Qed.

(** X6.  Inside the range gate of the caller (20 Hz < f < 4000 Hz) the
    note mapper always yields one of the twelve names and an octave from 0
    to 7, and name and octave determine the note number:
    [noteNum = 12 * (octave + 1) + NOTE_NAMES.indexOf(name)], a number from
    15 to 107. *)
Theorem getNoteFromFrequency_in_range (f : Q) :
  20 < f -> f < 4000 ->
  exists name oct,
    getNoteFromFrequency f
    = mkNote (Some name) (Int oct) (Int (12 * (oct + 1) + JS.indexOf NOTE_NAMES name))
    /\ In name NOTE_NAMES /\ (0 <= oct <= 7)%Z
    /\ (15 <= 12 * (oct + 1) + JS.indexOf NOTE_NAMES name <= 107)%Z.
Proof. apply gated_note. Qed.

Lemma getNoteFromFrequency_in_range_witness :
  exists name oct,
    getNoteFromFrequency (8241 # 100)
    = mkNote (Some name) (Int oct) (Int (12 * (oct + 1) + JS.indexOf NOTE_NAMES name))
    /\ In name NOTE_NAMES /\ (0 <= oct <= 7)%Z
    /\ (15 <= 12 * (oct + 1) + JS.indexOf NOTE_NAMES name <= 107)%Z.
Proof.
  apply getNoteFromFrequency_in_range; reflexivity.
Defined.

End NoteMapperOrder.

(** ** Autocorrelator: silence, the peak, and the frequencies it can report *)

Section AutocorrelatorRange.

Import App.
Local Open Scope Q_scope.

Lemma square_below (x c : Q) : Qabs x < c -> x * x < c * c.
Proof.
  intros H. apply Qabs_Qlt_condition in H. destruct H as (L & U). nra.
Qed.

Lemma sumSquares_below (c : Q) (buf : list Q) (acc : Q) :
  buf <> [] -> (forall x, In x buf -> Qabs x < c) ->
  fold_left (fun rms x => rms + x * x) buf acc
  < acc + inject_Z (JS.len buf) * (c * c).
Proof.
  revert acc. induction buf as [| x buf IH]; intros acc N H; [contradiction |].
  cbn [fold_left]. unfold JS.len. cbn [List.length].
  rewrite Nat2Z.inj_succ, <- Z.add_1_r, inject_Z_plus.
  change (inject_Z 1) with 1.
  pose proof (square_below x c (H x (or_introl eq_refl))) as Sx.
  destruct buf as [| y buf].
  - cbn [fold_left List.length]. change (inject_Z (Z.of_nat 0)) with 0. lra.
  - assert (fold_left (fun rms x0 => rms + x0 * x0) (y :: buf) (acc + x * x)
            < acc + x * x + inject_Z (JS.len (y :: buf)) * (c * c)) as B.
    { apply IH; [discriminate |]. intros z Hz. apply H. now right. }
    unfold JS.len in B. lra.
Qed.

(** X7.  Quiet frames have no pitch: a frame all of whose samples are
    smaller than 0.005 in absolute value, the empty frame included, makes
    [autoCorrelate] return -1, whatever the sample rate. *)
Theorem autoCorrelate_quiet_frame (buf : list Q) (sampleRate : Q) :
  (forall x, In x buf -> Qabs x < 5 # 1000) ->
  autoCorrelate buf sampleRate = noPitch.
Proof.
  intros H. destruct buf as [| x buf]; [reflexivity |].
  unfold autoCorrelate.
  assert (isSilent (x :: buf) = true) as ->; [| reflexivity].
  unfold isSilent.
  assert (0 < JS.len (x :: buf))%Z as P by (unfold JS.len; simpl; lia).
  destruct (Z.eqb_spec (JS.len (x :: buf)) 0) as [E | _]; [lia |].
  apply Qltb_lt. apply Qlt_shift_div_r; [now apply inject_Z_pos |].
  pose proof (sumSquares_below (5 # 1000) (x :: buf) 0 ltac:(discriminate) H) as B.
  unfold sumSquares.
  setoid_replace ((5 # 1000) * (5 # 1000) * inject_Z (JS.len (x :: buf)))
    with (0 + inject_Z (JS.len (x :: buf)) * ((5 # 1000) * (5 # 1000)))
    by ring.
  exact B.
Qed.

Lemma autoCorrelate_quiet_frame_witness :
  autoCorrelate [1 # 1000; -4 # 1000; 0; 3 # 1000] 44100 = noPitch.
Proof.
  apply autoCorrelate_quiet_frame. intros x Hx. simpl in Hx.
  repeat (destruct Hx as [<- | Hx]; [reflexivity |]). destruct Hx.
Defined.

Lemma findPeak_above (corr : list Q) (d k : nat) :
  let acc := fold_left (peakStep corr) (seq d k) (-1, (-1)%Z) in
  snd acc = (-1)%Z \/ -1 < fst acc.
Proof.
  induction k as [| k IH]; [now left |].
  cbv zeta in *. rewrite seq_S, fold_left_app. cbn [fold_left].
  destruct (findPeak_inv corr d k) as (_ & L & _).
  set (acc := fold_left (peakStep corr) (seq d k) (-1, (-1)%Z)) in *.
  unfold peakStep.
  destruct (JS.Qltb (fst acc) (at_ corr (d + k))) eqn:E; [| exact IH].
  apply Qltb_lt in E. right. cbn [fst]. lra.
Qed.





(** X9.  The peak search on the stored correlation values.  Take a frame
    of any length and any contents [corr] of the correlation buffer (in
    the code: the sums as the Float32Array holds them) that reach past the
    lags of the frame, and let [d] be the lag at which the first-dip loop
    stops.  The stored values fall strictly from lag 0 down to [d], and at
    [d] they no longer fall; the search answers -1 with no stored value
    from [d] on above -1, and otherwise the first lag from [d] on, below
    [SIZE / 2], whose stored value is the largest there. *)
Theorem peak_search_first_maximum (buf corr : list Q) :
  (S (lagCount buf) < List.length corr)%nat ->
  let d := firstDip corr (maxOffset buf) (lagCount buf) 0 in
  let found := findPeak corr d (lagCount buf) in
  (d <= lagCount buf)%nat
  /\ (forall j, (j < d)%nat -> at_ corr (S j) < at_ corr j)
  /\ ((d < lagCount buf)%nat -> at_ corr d <= at_ corr (S d))
  /\ ((snd found = (-1)%Z
       /\ forall i, (d <= i < lagCount buf)%nat -> at_ corr i <= -1)
      \/ exists lag : nat,
           snd found = Z.of_nat lag /\ fst found = at_ corr lag
           /\ (d <= lag < lagCount buf)%nat /\ -1 < at_ corr lag
           /\ (forall i, (d <= i < lagCount buf)%nat ->
                         at_ corr i <= at_ corr lag)
           /\ (forall i, (d <= i < lag)%nat -> at_ corr i < at_ corr lag)).
Proof.
  intros _ d found.
  destruct (firstDip_spec corr (maxOffset buf) (lagCount buf)
                          (below_maxOffset buf) (lagCount buf) 0)
    as (_ & D1 & D2).
  fold d in D1, D2.
  assert (d <= lagCount buf)%nat as Hd.
  { destruct d as [| d']; [lia |].
    destruct (D1 d' ltac:(lia)) as (_ & L). lia. }
  split; [exact Hd |].
  split; [intros j Hj; apply (D1 j); lia |].
  split; [intros L; apply D2; [lia | exact L] |].
  destruct (findPeak_inv corr d (lagCount buf - d)) as (I & _ & _).
  fold (findPeak corr d (lagCount buf)) in I. fold found in I.
  replace (d + (lagCount buf - d))%nat with (lagCount buf) in I by lia.
  destruct I as [(S1 & S2) | (mp & S1 & S2 & S3 & S4 & S5)].
  - left. split; assumption.
  - right. exists mp.
    split; [exact S1 |]. split; [exact S2 |]. split; [exact S3 |].
    split; [| split; assumption].
    rewrite <- S2.
    destruct (findPeak_above corr d (lagCount buf - d)) as [A | A];
      [| exact A].
    fold (findPeak corr d (lagCount buf)) in A. fold found in A. lia.
Qed.

Lemma peak_search_first_maximum_witness :
  let corr := [4; 1; 3; 5; 5; 2; 0; 0; 0; 0] in
  let buf := [0; 0; 0; 0; 0; 0; 0; 0] in
  firstDip corr (maxOffset buf) (lagCount buf) 0 = 1%nat
  /\ exists lag : nat,
       snd (findPeak corr 1 (lagCount buf)) = Z.of_nat lag
       /\ (1 <= lag < lagCount buf)%nat /\ -1 < at_ corr lag.
Proof.
  cbv zeta.
  destruct (peak_search_first_maximum
              [0; 0; 0; 0; 0; 0; 0; 0] [4; 1; 3; 5; 5; 2; 0; 0; 0; 0])
    as (_ & _ & _ & [(N & _) | (lag & E & _ & B & A & _)]).
  - unfold lagCount. simpl. lia.
  - vm_compute in N. discriminate.
  - split; [reflexivity |]. exists lag.
    split; [exact E |]. split; [exact B | exact A].
Defined.

End AutocorrelatorRange.

(** ** Note stream: what is emitted and what is remembered *)

Section NoteStream.

Import Constants App AppView.
Local Open Scope Q_scope.

Lemma has_In (set : list (option string)) (x : option string) :
  has set x = true <-> In x set.
Proof.
  induction set as [| y set IH]; simpl; [split; [discriminate | tauto] |].
  destruct y as [a |], x as [b |].
  - rewrite orb_true_iff, IH. split.
    + intros [E | H]; [left | now right]. apply String.eqb_eq in E. now subst.
    + intros [[= ->] | H]; [left; apply String.eqb_refl | now right].
  - rewrite IH. split; [tauto | intros [[=] | H]; exact H].
  - rewrite IH. split; [tauto | intros [[=] | H]; exact H].
  - split; [now left | reflexivity].
Qed.

Lemma label_without_digits (name : string) (oct idx : Z) :
  In name NOTE_NAMES -> (0 <= oct <= 7)%Z ->
  removeFirstDigits (label (mkNote (Some name) (Int oct) (Int idx))) = name
  /\ JS.beforeDigit name = name.
Proof.
  intros H B.
  assert (oct = 0 \/ oct = 1 \/ oct = 2 \/ oct = 3 \/ oct = 4 \/ oct = 5
          \/ oct = 6 \/ oct = 7)%Z as C by lia.
  simpl in H.
  repeat (destruct H as [<- | H];
          [repeat (destruct C as [-> | C]; [split; reflexivity |]);
           subst oct; split; reflexivity |]).
  destruct H.
Qed.

Lemma noteEvent_some (s : State) (freq : Q) (now : Z) (e : NoteData) :
  noteEvent s freq now = Some e ->
  inRange freq = true
  /\ keepsPrev (currentNote s) (labelOf freq) freq = false
  /\ e = mkNoteData (labelOf freq) freq (9 # 10) now
  /\ currentNote (update s freq now) = Some e.
Proof.
  unfold noteEvent. fold (labelOf freq).
  destruct (inRange freq) eqn:R; [| discriminate].
  destruct (keepsPrev (currentNote s) (labelOf freq) freq) eqn:K;
    [discriminate |].
  cbn [andb negb]. intros H.
  destruct (noteEvent_fresh s freq now R K) as (_ & U).
  rewrite U in H. injection H as <-. repeat split. exact U.
Qed.

Lemma noteEvent_none (s : State) (freq : Q) (now : Z) :
  noteEvent s freq now = None ->
  currentNote (update s freq now) = currentNote s.
Proof.
  intros H. unfold update. destruct (inRange freq) eqn:R; [| reflexivity].
  destruct (keepsPrev (currentNote s) (labelOf freq) freq) eqn:K.
  - unfold nextCurrentNote. fold (labelOf freq). cbn [currentNote]. now rewrite K.
  - destruct (noteEvent_fresh s freq now R K) as (N & _). congruence.
Qed.

Lemma noteEvents_from_frames (s : State) (frames : list (Q * Z)) (e : NoteData) :
  In e (noteEvents s frames) ->
  exists freq now,
    In (freq, now) frames /\ inRange freq = true
    /\ e = mkNoteData (labelOf freq) freq (9 # 10) now.
Proof.
  revert s. induction frames as [| [freq now] frames IH]; intros s H;
    [destruct H |].
  cbn [noteEvents] in H.
  destruct (noteEvent s freq now) as [e' |] eqn:N.
  - destruct H as [<- | H].
    + destruct (noteEvent_some _ _ _ _ N) as (R & _ & E & _).
      exists freq, now. repeat split; auto. now left.
    + destruct (IH _ H) as (f & t & I & R). exists f, t. split; [now right | exact R].
  - destruct (IH _ H) as (f & t & I & R). exists f, t. split; [now right | exact R].
Qed.

Lemma noteEvents_spaced (s : State) (frames : list (Q * Z)) :
  spaced (currentNote s) (noteEvents s frames).
Proof.
  revert s. induction frames as [| [freq now] frames IH]; intros s;
    [exact I |].
  cbn [noteEvents].
  destruct (noteEvent s freq now) as [e |] eqn:N.
  - destruct (noteEvent_some _ _ _ _ N) as (_ & K & E & U).
    cbn [spaced]. split.
    + destruct (currentNote s) as [p |]; [| exact I].
      subst e. cbn [note frequency]. unfold keepsPrev in K.
      apply andb_false_iff in K. destruct K as [K | K].
      * left. now apply String.eqb_neq.
      * right. now apply Qltb_ge.
    + rewrite <- U. apply IH.
  - rewrite <- (noteEvent_none _ _ _ N). apply IH.
Qed.

Lemma spaced_adjacent (prev : option NoteData) (pre post : list NoteData)
      (e1 e2 : NoteData) :
  spaced prev (pre ++ e1 :: e2 :: post) ->
  note e1 <> note e2 \/ 1 <= Qabs (frequency e1 - frequency e2).
Proof.
  revert prev. induction pre as [| e pre IH]; intros prev H.
  - cbn [app spaced] in H. tauto.
  - cbn [app spaced] in H. apply (IH (Some e)). tauto.
Qed.

(** X10.  Every note event comes from a gated frame.  Each event of a run
    of frames carries the frequency and clock reading of one of the frames,
    a frequency strictly between 20 and 4000 Hz; its label is one of the
    twelve note names followed by an octave from 0 to 7, and the active
    note name derived from the label (the label without its digits) is that
    note name. *)
Theorem noteEvents_are_gated_notes
        (s : State) (frames : list (Q * Z)) (e : NoteData) :
  In e (noteEvents s frames) ->
  In (frequency e, timestamp e) frames
  /\ 20 < frequency e < 4000
  /\ exists name oct,
       In name NOTE_NAMES /\ (0 <= oct <= 7)%Z
       /\ note e = (name ++ JS.showInt oct)%string
       /\ removeFirstDigits (note e) = name
       /\ Constants.name (getNoteFromFrequency (frequency e)) = Some name.
Proof.
  intros H. destruct (noteEvents_from_frames _ _ _ H) as (f & t & I & R & ->).
  cbn [frequency timestamp note]. split; [exact I |].
  apply inRange_spec in R. destruct R as (_ & L & U). split; [split; assumption |].
  destruct (gated_note f L U) as (name & oct & E & N & B & _).
  exists name, oct. unfold labelOf. rewrite E.
  destruct (label_without_digits name oct
              (12 * (oct + 1) + JS.indexOf NOTE_NAMES name) N B) as (D & _).
  split; [exact N |]. split; [exact B |]. split; [reflexivity |].
  split; [exact D | reflexivity].
Qed.

Lemma noteEvents_are_gated_notes_witness :
  20 < 440 < 4000
  /\ exists name oct,
       In name NOTE_NAMES /\ (0 <= oct <= 7)%Z
       /\ "A4"%string = (name ++ JS.showInt oct)%string
       /\ removeFirstDigits "A4" = name
       /\ Constants.name (getNoteFromFrequency 440) = Some name.
Proof.
  assert (In (mkNoteData "A4" 440 (9 # 10) 2)
             (noteEvents initial [(10, 1%Z); (440, 2%Z); (440, 3%Z)])) as H
    by (vm_compute; left; reflexivity).
  destruct (noteEvents_are_gated_notes _ _ _ H) as (_ & B & N).
  split; [exact B | exact N].
Defined.

(** X11.  No two consecutive note events repeat a note: of any two events
    that follow each other in the output of a run of frames, the second has
    a different label or a frequency at least 1 Hz away from the first. *)
Theorem noteEvents_never_repeat
        (s : State) (frames : list (Q * Z))
        (pre post : list NoteData) (e1 e2 : NoteData) :
  noteEvents s frames = (pre ++ e1 :: e2 :: post)%list ->
  note e1 <> note e2 \/ 1 <= Qabs (frequency e1 - frequency e2).
Proof.
  intros H. apply (spaced_adjacent (currentNote s) pre post).
  rewrite <- H. apply noteEvents_spaced.
Qed.

Lemma noteEvents_never_repeat_witness :
  note (mkNoteData "A4" 440 (9 # 10) 1) <> note (mkNoteData "A4" 441 (9 # 10) 3)
  \/ 1 <= Qabs (frequency (mkNoteData "A4" 440 (9 # 10) 1)
                - frequency (mkNoteData "A4" 441 (9 # 10) 3)).
Proof.
  apply (noteEvents_never_repeat
           initial [(440, 1%Z); (4405 # 10, 2%Z); (441, 3%Z); (494, 4%Z)]
           [] [mkNoteData "B4" 494 (9 # 10) 4]).
  vm_compute. reflexivity.
Defined.

(** The invariant of the pitch state. *)
Lemma listen_invariant (frames : list (Q * Z)) (s : State) :
  (NoDup (detectedNotes s)
   /\ forall x, In x (detectedNotes s) ->
                exists name, x = Some name /\ In name NOTE_NAMES) ->
  let s' := listen s frames in
  NoDup (detectedNotes s')
  /\ (forall x, In x (detectedNotes s') ->
                exists name, x = Some name /\ In name NOTE_NAMES)
  /\ exists more, detectedNotes s' = (detectedNotes s ++ more)%list.
Proof.
  revert s. induction frames as [| [freq now] frames IH]; intros s (N & V).
  - cbv zeta. cbn [listen fold_left].
    repeat split; auto. exists []. now rewrite app_nil_r.
  - change (listen s ((freq, now) :: frames))
      with (listen (update s freq now) frames).
    cbv zeta.
    assert (NoDup (detectedNotes (update s freq now))
            /\ (forall x, In x (detectedNotes (update s freq now)) ->
                          exists name, x = Some name /\ In name NOTE_NAMES)
            /\ exists more, detectedNotes (update s freq now)
                            = (detectedNotes s ++ more)%list) as (N' & V' & M').
    { unfold update. destruct (inRange freq) eqn:R.
      - apply inRange_spec in R. destruct R as (_ & L & U).
        destruct (gated_note freq L U) as (name & oct & E & I & _).
        rewrite E. cbn [detectedNotes Constants.name].
        unfold nextDetectedNotes.
        destruct (has (detectedNotes s) (Some name)) eqn:H.
        + repeat split; auto. exists []. now rewrite app_nil_r.
        + split; [| split; [| now exists [Some name]]].
          * apply NoDup_app; [assumption | repeat constructor; simpl; tauto |].
            intros a Ha [<- | []]. apply has_In in Ha. congruence.
          * intros x Hx. apply in_app_iff in Hx. destruct Hx as [Hx | [<- | []]];
              [now apply V | now exists name].
      - repeat split; auto. exists []. now rewrite app_nil_r. }
    pose proof (IH (update s freq now) (conj N' V')) as X. cbv zeta in X.
    destruct X as (A & B & (more & C)).
    repeat split; auto. destruct M' as (m & M').
    exists (m ++ more)%list. now rewrite C, M', app_assoc.
Qed.

Lemma allStrings_valid (l : list (option string)) :
  (forall x, In x l -> exists name, x = Some name /\ In name NOTE_NAMES) ->
  exists names, allStrings l = Some names /\ l = map Some names
                /\ forall n, In n names -> In n NOTE_NAMES.
Proof.
  induction l as [| x l IH]; intros V.
  - exists []. repeat split. intros n [].
  - destruct (V x (or_introl eq_refl)) as (name & -> & I).
    destruct IH as (names & A & E & W); [intros y Hy; apply V; now right |].
    exists (name :: names). cbn [allStrings]. rewrite A. rewrite E.
    split; [reflexivity |]. split; [reflexivity |].
    intros n [<- | H]; auto.
Qed.

(** X12.  The set of detected notes only grows and stays clean.  After
    any run of frames from the initial state it holds no duplicates, only
    names out of the twelve note names (so at most twelve entries), and
    listening further only appends to it. *)
Theorem detectedNotes_grow_clean (frames more : list (Q * Z)) :
  let s := listen initial frames in
  NoDup (detectedNotes s)
  /\ (forall x, In x (detectedNotes s) ->
                exists name, x = Some name /\ In name NOTE_NAMES)
  /\ (List.length (detectedNotes s) <= 12)%nat
  /\ exists added, detectedNotes (listen s more) = (detectedNotes s ++ added)%list.
Proof.
  cbv zeta.
  destruct (listen_invariant frames initial) as (N & V & _).
  { split; [constructor | intros x []]. }
  destruct (listen_invariant more (listen initial frames) (conj N V))
    as (_ & _ & G).
  repeat split; auto.
  change 12%nat with (List.length (map Some NOTE_NAMES)).
  apply NoDup_incl_length; [exact N |].
  intros x Hx. destruct (V x Hx) as (name & -> & I). now apply in_map.
Qed.

(** X13.  The chord shown is made of detected notes.  After any run of
    frames the call [identifyChord(Array.from(detectedNotes))] finds only
    strings in the set, and when it returns a chord, the root and every
    note of the chord are in the set of detected notes. *)
Theorem detectedChord_of_detected_notes (frames : list (Q * Z)) :
  let s := listen initial frames in
  exists names,
    allStrings (detectedNotes s) = Some names
    /\ detectedChord s = Some (identifyChord names)
    /\ forall m, identifyChord names = Some m ->
         In (root m) (detectedNotes s)
         /\ forall x, In x (Constants.notes m) -> In x (detectedNotes s).
Proof.
  cbv zeta.
  destruct (listen_invariant frames initial) as (_ & V & _).
  { split; [constructor | intros x []]. }
  destruct (allStrings_valid _ V) as (names & A & E & W).
  exists names. unfold detectedChord. rewrite A. split; [reflexivity |].
  split; [reflexivity |]. intros m H.
  assert (forall n, In n names -> JS.beforeDigit n = n) as D.
  { intros n Hn. specialize (W n Hn). simpl in W.
    repeat (destruct W as [<- | W]; [reflexivity |]). destruct W. }
  assert (map JS.beforeDigit names = names) as Dm.
  { clear - D. induction names as [| n names IH]; [reflexivity |].
    cbn. rewrite (D n (or_introl eq_refl)). f_equal. apply IH.
    intros k Hk. apply D. now right. }
  destruct (chord_from_played names m) as ((r & t & R & I & _) & P); auto.
  { intros n Hn. rewrite (D n Hn). now apply W. }
  rewrite Dm in I, P. rewrite E. split.
  - rewrite R. now apply in_map.
  - intros x Hx. destruct (P x Hx) as (pc & -> & Hpc). now apply in_map.
Qed.

End NoteStream.

(** ** Lick trainer: the locked phase *)

Section LockedPhase.

Import SpeedTrainer Session.
Local Open Scope string_scope.
Local Open Scope Z_scope.

Lemma noteEffect_locked (s : Trainer) (n : string) (now : Z) :
  trainingState s = locked -> n <> "" ->
  noteEffect s (Some n) now = lockedPhase s n now.
Proof.
  intros T N. unfold noteEffect. rewrite T.
  destruct (String.eqb_spec n ""); [contradiction | reflexivity].
Qed.

Lemma get_middle {A : Type} (pre rest : list A) (x : A) :
  JS.get (pre ++ x :: rest)%list (JS.len pre) = Some x.
Proof.
  unfold JS.get, JS.len.
  destruct (Z.ltb_spec (Z.of_nat (List.length pre)) 0); [lia |].
  rewrite Nat2Z.id, nth_error_app2 by lia. now rewrite Nat.sub_diag.
Qed.

(** X14.  In the locked phase the cursor never leaves the pattern.  If
    the cursor is inside the learned pattern when a note arrives, it is
    inside afterwards; the pattern is untouched; the confirmation counter
    is either unchanged or one higher, and it is one higher exactly in the
    runs that put the cursor back to 0 from the end of the pattern. *)
Theorem locked_cursor_stays_inside (s : Trainer) (a : option string) (now : Z) :
  trainingState s = locked ->
  0 <= currentPatternProgressRef s < JS.len (learnedPattern s) ->
  let s' := noteEffect s a now in
  0 <= currentPatternProgressRef s' < JS.len (learnedPattern s')
  /\ learnedPattern s' = learnedPattern s
  /\ (patternMatches s' = patternMatches s
      \/ patternMatches s' = patternMatches s + 1
         /\ currentPatternProgressRef s' = 0)
  /\ (trainingState s' = locked \/ trainingState s' = training).
Proof.
  intros T B. cbv zeta. unfold noteEffect.
  destruct a as [n |]; [| repeat split; auto; lia].
  destruct (String.eqb n ""); [repeat split; auto; lia |].
  rewrite T.
  destruct (lockedPhase_cursor s n now B) as (C & P & M).
  destruct (lockedPhase_frame s n now) as (F & _).
  repeat split; try tauto. rewrite T in F. tauto.
Qed.

Lemma locked_cursor_stays_inside_witness :
  let s := trainer (run mounted (learnLick ++ play 2 ["E"; "F"])) in
  0 <= currentPatternProgressRef (noteEffect s (Some "G") 3)
    < JS.len (learnedPattern (noteEffect s (Some "G") 3)).
Proof.
  cbv zeta.
  apply (locked_cursor_stays_inside
           (trainer (run mounted (learnLick ++ play 2 ["E"; "F"]))) (Some "G") 3).
  - vm_compute. reflexivity.
  - vm_compute. split; [discriminate | reflexivity].
Defined.

Lemma play_through (now : Z) (rest pre : list string) (s : Trainer) :
  trainingState s = locked ->
  learnedPattern s = (pre ++ rest)%list ->
  currentPatternProgressRef s = JS.len pre ->
  rest <> [] ->
  (forall n, In n rest -> n <> "") ->
  let s' := fold_left (fun s n => noteEffect s (Some n) now) rest s in
  currentPatternProgressRef s' = 0
  /\ patternMatches s' = patternMatches s + 1
  /\ learnedPattern s' = learnedPattern s
  /\ trainingState s'
     = if 5 <=? patternMatches s + 1 then training else locked.
Proof.
  revert pre s. induction rest as [| n rest IH]; intros pre s T P C N V;
    [contradiction |].
  cbn [fold_left].
  assert (n <> "") as Hn by (apply V; now left).
  rewrite (noteEffect_locked s n now T Hn).
  unfold lockedPhase. rewrite P, C, get_middle. cbn [isExpected].
  rewrite String.eqb_refl.
  assert (JS.len (pre ++ n :: rest)%list = JS.len pre + 1 + JS.len rest) as L.
  { unfold JS.len. rewrite length_app. cbn [List.length]. lia. }
  assert (0 <= JS.len rest) as R by (unfold JS.len; lia).
  destruct rest as [| n' rest].
  - cbn [fold_left]. cbv zeta.
    assert ((JS.len (pre ++ [n])%list <=? JS.len pre + 1) = true) as ->
      by (apply Z.leb_le; rewrite L; unfold JS.len; simpl; lia).
    destruct (confirmCycle_frame s now) as (F1 & _ & _ & _ & _ & _ & Fp & Fm & Ft).
    cbn [currentPatternProgressRef patternMatches learnedPattern trainingState
         setCurrentPatternProgressRef].
    rewrite Fm, Fp, P. repeat split.
    destruct (Z.leb_spec 5 (patternMatches s + 1)) as [G | G].
    + apply Ft. now right.
    + destruct F1 as [F1 | F1]; [now rewrite F1 |].
      apply Ft in F1. destruct F1 as [F1 | F1]; [congruence | lia].
  - assert ((JS.len (pre ++ n :: n' :: rest)%list <=? JS.len pre + 1) = false) as ->.
    { apply Z.leb_gt. rewrite L. unfold JS.len. cbn [List.length]. lia. }
    set (s1 := setCurrentPatternProgressRef (JS.len pre + 1) s).
    destruct (IH (pre ++ [n])%list s1) as (A & B & D & E).
    + exact T.
    + unfold s1. cbn. rewrite P. now rewrite <- app_assoc.
    + unfold s1. cbn. unfold JS.len. rewrite length_app. cbn [List.length]. lia.
    + discriminate.
    + intros k Hk. apply V. now right.
    + change (patternMatches s1) with (patternMatches s) in B, E.
      change (learnedPattern s1) with (learnedPattern s) in D.
      cbv zeta. repeat split; try assumption. now rewrite D.
Qed.

(** X15.  One clean run through the pattern is one confirmation.  In the
    locked phase with the cursor at 0, the notes of the learned pattern
    fed in order put the cursor back to 0, leave the pattern as it is and
    raise the confirmation counter by exactly one; the trainer is in
    training afterwards exactly when the counter has reached 5. *)
Theorem locked_play_through_confirms_once (s : Trainer) (now : Z) :
  trainingState s = locked ->
  currentPatternProgressRef s = 0 ->
  learnedPattern s <> [] ->
  (forall n, In n (learnedPattern s) -> n <> "") ->
  let s' := fold_left (fun s n => noteEffect s (Some n) now) (learnedPattern s) s in
  currentPatternProgressRef s' = 0
  /\ patternMatches s' = patternMatches s + 1
  /\ learnedPattern s' = learnedPattern s
  /\ trainingState s'
     = if 5 <=? patternMatches s + 1 then training else locked.
Proof.
  intros T C N V.
  apply (play_through now (learnedPattern s) [] s); auto.
Qed.

Lemma locked_play_through_confirms_once_witness :
  let s := trainer (run mounted learnLick) in
  patternMatches
    (fold_left (fun s n => noteEffect s (Some n) 7) (learnedPattern s) s)
  = patternMatches s + 1.
Proof.
  cbv zeta.
  destruct (locked_play_through_confirms_once (trainer (run mounted learnLick)) 7)
    as (_ & H & _).
  - vm_compute. reflexivity.
  - vm_compute. reflexivity.
  - vm_compute. discriminate.
  - intros n Hn. vm_compute in Hn.
    repeat (destruct Hn as [<- | Hn]; [discriminate |]). destruct Hn.
  - exact H.
Defined.

End LockedPhase.

(** ** Lick trainer: the learning phase *)

Section LearningPhase.

Import SpeedTrainer Session.
Local Open Scope string_scope.
Local Open Scope Z_scope.

Lemma sameSeq_eq (a b : list string) : JS.sameSeq a b = true <-> a = b.
Proof.
  revert b. induction a as [| x a IH]; intros [| y b]; simpl;
    try (split; [discriminate | discriminate]); [tauto |].
  rewrite andb_true_iff, String.eqb_eq, IH. split.
  - intros [-> ->]. reflexivity.
  - intros E. injection E. auto.
Qed.

Lemma skipn_length_app {A : Type} (a b : list A) (k : nat) :
  k = List.length a -> skipn k (a ++ b)%list = b.
Proof.
  intros ->. rewrite skipn_app, skipn_all, Nat.sub_diag. reflexivity.
Qed.

Lemma firstn_length_app {A : Type} (a b : list A) (k : nat) :
  k = List.length a -> firstn k (a ++ b)%list = a.
Proof.
  intros ->. rewrite firstn_app, firstn_all, Nat.sub_diag. simpl.
  apply app_nil_r.
Qed.

(** The two windows of the repetition test, for a length that fits twice. *)
Lemma last_windows {A : Type} (l : list A) (k : Z) :
  0 < k -> k * 2 <= JS.len l ->
  JS.sliceFrom l (- k) = skipn (Z.to_nat (JS.len l - k)) l
  /\ JS.slice l (- k * 2) (- k)
     = firstn (Z.to_nat k) (skipn (Z.to_nat (JS.len l - k * 2)) l).
Proof.
  intros K F. unfold JS.sliceFrom, JS.slice, JS.relIndex.
  assert (0 <= JS.len l) as N by (unfold JS.len; lia).
  destruct (Z.ltb_spec (- k) 0); [| lia].
  destruct (Z.ltb_spec (- k * 2) 0); [| lia].
  destruct (Z.ltb_spec (JS.len l) 0); [lia |].
  rewrite !Z.max_l, Z.min_id by lia. split.
  - replace (JS.len l + - k) with (JS.len l - k) by lia.
    apply firstn_all2. rewrite length_skipn. unfold JS.len in *. lia.
  - replace (JS.len l + - k * 2) with (JS.len l - k * 2) by lia.
    f_equal. lia.
Qed.

(** A window passes the repetition test for [k] exactly when it ends in
    some block of [k] notes played twice in a row. *)
Lemma repeat_test (l : list string) (k : Z) :
  0 < k ->
  (k * 2 <= JS.len l
   /\ JS.sameSeq (JS.sliceFrom l (- k)) (JS.slice l (- k * 2) (- k)) = true)
  <-> exists older q, JS.len q = k /\ l = (older ++ q ++ q)%list.
Proof.
  intros K. split.
  - intros (F & E). apply sameSeq_eq in E.
    destruct (last_windows l k K F) as (W1 & W2).
    rewrite W1, W2 in E.
    exists (firstn (Z.to_nat (JS.len l - k * 2)) l),
           (skipn (Z.to_nat (JS.len l - k)) l).
    split.
    + unfold JS.len in *. rewrite length_skipn. lia.
    + rewrite E at 1.
      replace (skipn (Z.to_nat (JS.len l - k)) l)
        with (skipn (Z.to_nat k) (skipn (Z.to_nat (JS.len l - k * 2)) l)).
      * now rewrite firstn_skipn, firstn_skipn.
      * rewrite skipn_skipn. f_equal. unfold JS.len in *. lia.
  - intros (older & q & Lq & ->).
    assert (JS.len (older ++ q ++ q)%list = JS.len older + k * 2) as N.
    { unfold JS.len in *. rewrite !length_app. lia. }
    assert (0 <= JS.len older) as O by (unfold JS.len; lia).
    assert (k * 2 <= JS.len (older ++ q ++ q)%list) as F by lia.
    split; [exact F |].
    destruct (last_windows (older ++ q ++ q)%list k K F) as (W1 & W2).
    rewrite W1, W2, N. apply sameSeq_eq.
    replace (JS.len older + k * 2 - k * 2) with (JS.len older) by lia.
    rewrite (skipn_length_app older (q ++ q) (Z.to_nat (JS.len older)))
      by (unfold JS.len; lia).
    rewrite (firstn_length_app q q) by (unfold JS.len in Lq; lia).
    rewrite app_assoc. apply skipn_length_app.
    unfold JS.len in *. rewrite length_app. lia.
Qed.

(** The scan returns the first length of an ascending range that passes
    the test, with the last notes of that length. *)
Lemma findRepeat_first (next : list string) (m : Z) (cnt a : nat) :
  match findRepeat next (map (fun k => m + Z.of_nat k) (seq a cnt)) with
  | Some (len, cur) =>
      exists k, (a <= k < a + cnt)%nat /\ len = m + Z.of_nat k
        /\ cur = JS.sliceFrom next (- len)
        /\ len * 2 <= JS.len next
        /\ JS.sameSeq (JS.sliceFrom next (- len))
                      (JS.slice next (- len * 2) (- len)) = true
        /\ forall j, (a <= j < k)%nat ->
             ~ ((m + Z.of_nat j) * 2 <= JS.len next
                /\ JS.sameSeq (JS.sliceFrom next (- (m + Z.of_nat j)))
                     (JS.slice next (- (m + Z.of_nat j) * 2)
                               (- (m + Z.of_nat j))) = true)
  | None =>
      forall j, (a <= j < a + cnt)%nat ->
        ~ ((m + Z.of_nat j) * 2 <= JS.len next
           /\ JS.sameSeq (JS.sliceFrom next (- (m + Z.of_nat j)))
                (JS.slice next (- (m + Z.of_nat j) * 2)
                          (- (m + Z.of_nat j))) = true)
  end.
Proof.
  revert a. induction cnt as [| cnt IH]; intros a.
  - simpl. intros j Hj. lia.
  - cbn [seq map findRepeat].
    specialize (IH (S a)).
    destruct (Z.ltb_spec (JS.len next) ((m + Z.of_nat a) * 2)) as [S | S].
    + destruct (findRepeat next _) as [[len cur] |].
      * destruct IH as (k & Hk & E & C & F & Q & First).
        exists k. split; [lia |]. split; [exact E |]. split; [exact C |].
        split; [exact F |]. split; [exact Q |].
        intros j Hj. destruct (Nat.eq_dec j a) as [-> | D]; [lia |].
        apply First. lia.
      * intros j Hj. destruct (Nat.eq_dec j a) as [-> | D]; [lia |].
        apply IH. lia.
    + cbv zeta.
      destruct (JS.sameSeq _ _) eqn:Q.
      * exists a. split; [lia |]. split; [reflexivity |].
        split; [reflexivity |]. split; [lia |]. split; [exact Q |].
        intros j Hj. lia.
      * destruct (findRepeat next _) as [[len cur] |].
        -- destruct IH as (k & Hk & E & C & F & Q' & First).
           exists k. split; [lia |]. split; [exact E |]. split; [exact C |].
           split; [exact F |]. split; [exact Q' |].
           intros j Hj. destruct (Nat.eq_dec j a) as [-> | D].
           ++ rewrite Q. intros [_ X]. discriminate.
           ++ apply First. lia.
        -- intros j Hj. destruct (Nat.eq_dec j a) as [-> | D].
           ++ rewrite Q. intros [_ X]. discriminate.
           ++ apply IH. lia.
Qed.

Lemma config_positive (m : ComplexityMode) :
  0 < min (COMPLEXITY_CONFIG m) <= max (COMPLEXITY_CONFIG m).
Proof. destruct m; simpl; lia. Qed.

Lemma window_suffix {A : Type} (l : list A) (k : Z) :
  0 < k ->
  Z.of_nat (List.length (JS.sliceFrom l (- k))) <= k
  /\ exists dropped, l = (dropped ++ JS.sliceFrom l (- k))%list.
Proof.
  intros K. unfold JS.sliceFrom, JS.slice, JS.relIndex.
  assert (0 <= JS.len l) as N by (unfold JS.len; lia).
  destruct (Z.ltb_spec (- k) 0); [| lia].
  destruct (Z.ltb_spec (JS.len l) 0); [lia |].
  rewrite Z.min_id.
  set (st := Z.max (JS.len l + - k) 0).
  assert (firstn (Z.to_nat (JS.len l - st)) (skipn (Z.to_nat st) l)
          = skipn (Z.to_nat st) l) as ->.
  { apply firstn_all2. rewrite length_skipn. unfold JS.len in *. lia. }
  split.
  - rewrite length_skipn. unfold JS.len in *. lia.
  - exists (firstn (Z.to_nat st) l). now rewrite firstn_skipn.
Qed.

(** X16.  What the learning phase locks.  A note arriving in the learning
    phase is appended to the history and the history is cut to its last 20
    notes.  If the trainer locks on that note, the locked pattern has a
    length within the range of the complexity mode, the window ends in the
    pattern played twice in a row, the confirmation counter is 1 and the
    history is cleared, and no shorter length of the range has its block
    repeated at the end of the window.  If the trainer does not lock, only
    the history changes (to the window) and no length of the range has a
    repeated block at the end of the window. *)
Theorem learning_locks_shortest_repeat (s : Trainer) (n : string) (now : Z) :
  trainingState s = learning -> n <> "" ->
  let config := COMPLEXITY_CONFIG (complexity s) in
  let window := JS.sliceFrom (noteHistory s ++ [n])%list (-20) in
  let s' := noteEffect s (Some n) now in
  Z.of_nat (List.length window) <= 20
  /\ (exists dropped, (noteHistory s ++ [n] = dropped ++ window)%list)
  /\ (trainingState s' = locked ->
      let p := learnedPattern s' in
      min config <= JS.len p <= max config
      /\ (exists older, window = (older ++ p ++ p)%list)
      /\ patternMatches s' = 1 /\ noteHistory s' = []
      /\ forall older q, min config <= JS.len q < JS.len p ->
           window <> (older ++ q ++ q)%list)
  /\ (trainingState s' <> locked ->
      s' = setNoteHistory window s
      /\ forall older q, min config <= JS.len q <= max config ->
           window <> (older ++ q ++ q)%list).
Proof.
  intros T N. cbv zeta.
  destruct (window_suffix (noteHistory s ++ [n])%list 20 ltac:(lia)) as (W1 & W2).
  change (- (20)) with (-20) in W1, W2.
  split; [exact W1 |]. split; [exact W2 |].
  unfold noteEffect. destruct (String.eqb_spec n ""); [contradiction |].
  rewrite T. unfold learningPhase. cbv zeta.
  set (window := JS.sliceFrom (noteHistory s ++ [n])%list (-20)).
  destruct (config_positive (complexity s)) as (P1 & P2).
  set (config := COMPLEXITY_CONFIG (complexity s)) in *.
  pose proof (findRepeat_first window (min config)
                (Z.to_nat (max config - min config + 1)) 0) as F.
  fold (lengths config) in F.
  destruct (findRepeat window (lengths config)) as [[len cur] |].
  - destruct F as (k & Hk & E & C & F2 & Q & First).
    assert (0 < len) as Lpos by lia.
    destruct (proj1 (repeat_test window len Lpos) (conj F2 Q))
      as (older & q & Lq & Eq).
    assert (cur = q) as ->.
    { rewrite C. destruct (last_windows window len Lpos F2) as (W & _).
      rewrite W, Eq. rewrite app_assoc. apply skipn_length_app.
      unfold JS.len in *. rewrite !length_app. lia. }
    split.
    + intros _. cbn. rewrite Lq. repeat split; try lia.
      * exists older. exact Eq.
      * intros older' q' B Eq'.
        apply (First (Z.to_nat (JS.len q' - min config))); [lia |].
        replace (min config + Z.of_nat (Z.to_nat (JS.len q' - min config)))
          with (JS.len q') by lia.
        apply repeat_test; [lia |]. exists older', q'. split; auto.
    + intros X. exfalso. apply X. reflexivity.
  - split.
    + intros X. cbn in X. congruence.
    + intros _. split; [reflexivity |].
      intros older q B Eq.
      apply (F (Z.to_nat (JS.len q - min config))); [lia |].
      replace (min config + Z.of_nat (Z.to_nat (JS.len q - min config)))
        with (JS.len q) by lia.
      apply repeat_test; [lia |]. exists older, q. split; auto.
Qed.

Lemma learning_locks_shortest_repeat_witness :
  let s := trainer (run mounted ((Click, 0) :: play 1 ["E"; "F"; "G"; "E"; "F"])) in
  Z.of_nat (List.length (JS.sliceFrom (noteHistory s ++ ["G"])%list (-20))) <= 20.
Proof.
  cbv zeta.
  destruct (learning_locks_shortest_repeat
              (trainer (run mounted ((Click, 0) :: play 1 ["E"; "F"; "G"; "E"; "F"])))
              "G" 6) as (H & _).
  - vm_compute. reflexivity.
  - discriminate.
  - exact H.
Defined.

End LearningPhase.

(** ** Lick trainer: timing of a hit in the training phase *)

Section TrainingPhase.

Import SpeedTrainer Session.
Local Open Scope string_scope.
Local Open Scope Z_scope.

Lemma period_positive (b : Z) : 0 < b -> (0 < 60000 / inject_Z b)%Q.
Proof.
  intros B. apply Qlt_shift_div_l.
  - change 0%Q with (inject_Z 0). now rewrite <- Zlt_Qlt.
  - reflexivity.
Qed.

Lemma half_period (p : Q) : (p / 2 == p * (1 # 2))%Q.
Proof. field. Qed.

(** Between two beats, the folded offset is inside the tolerance exactly
    in the first and the last two fifths of the beat. *)
Lemma beatOffset_window (p t : Q) :
  (0 < p)%Q -> (0 <= t <= p)%Q ->
  (p * (4 # 10) <= Qabs (beatOffset p t) <-> p * (4 # 10) <= t <= p * (6 # 10))%Q.
Proof.
  intros P T. unfold beatOffset. pose proof (half_period p) as H.
  destruct (JS.Qltb (p / 2) t) eqn:E.
  - apply Qltb_lt in E. rewrite H in E. split.
    + intros A. revert A. apply Qabs_case; intros; lra.
    + intros A. apply Qabs_case; intros; lra.
  - apply Qltb_ge in E. rewrite H in E. split.
    + intros A. revert A. apply Qabs_case; intros; lra.
    + intros A. apply Qabs_case; intros; lra.
Qed.

Lemma normalizedOffset_bound (p d : Q) :
  (0 < p)%Q -> (Qabs d < p * (4 # 10))%Q ->
  (- (8 # 10) < d / (p / 2) /\ d / (p / 2) < 8 # 10)%Q.
Proof.
  intros P D. apply Qabs_Qlt_condition in D. destruct D as (D1 & D2).
  pose proof (half_period p) as H.
  assert (0 < p / 2)%Q as H2 by (rewrite H; lra).
  split.
  - apply Qlt_shift_div_l; [exact H2 | rewrite H; lra].
  - apply Qlt_shift_div_r; [exact H2 | rewrite H; lra].
Qed.

Lemma precisionFeedback_bands (p d o : Q) (now : Z) :
  (0 < p)%Q ->
  let fb := precisionFeedback p d o now in
  offset fb = Some o /\ timestamp fb = now
  /\ ((Qabs d <= p * (5 # 100))%Q ->
      hitType fb = perfect /\ msg fb = "Perfect!")
  /\ ((p * (5 # 100) < Qabs d <= p * (15 # 100))%Q ->
      hitType fb = good
      /\ ((0 < d)%Q -> msg fb = "Slightly Late")
      /\ ((d <= 0)%Q -> msg fb = "Slightly Early"))
  /\ ((p * (15 # 100) < Qabs d)%Q ->
      hitType fb = fair
      /\ ((0 < d)%Q -> msg fb = "Late")
      /\ ((d <= 0)%Q -> msg fb = "Early")).
Proof.
  intros P. cbv zeta. unfold precisionFeedback. cbv zeta.
  destruct (JS.Qltb (p * (15 # 100)) (Qabs d)) eqn:A;
    [apply Qltb_lt in A | apply Qltb_ge in A].
  - cbn [offset timestamp hitType msg].
    split; [reflexivity |]. split; [reflexivity |].
    split; [intros X; lra |]. split; [intros X; lra |].
    intros _. split; [reflexivity |].
    destruct (JS.Qltb 0 d) eqn:S;
      [apply Qltb_lt in S | apply Qltb_ge in S];
      (split; intros X; [reflexivity || lra | reflexivity || lra]).
  - destruct (JS.Qltb (p * (5 # 100)) (Qabs d)) eqn:B;
      [apply Qltb_lt in B | apply Qltb_ge in B].
    + cbn [offset timestamp hitType msg].
      split; [reflexivity |]. split; [reflexivity |].
      split; [intros X; lra |]. split; [| intros X; lra].
      intros _. split; [reflexivity |].
      destruct (JS.Qltb 0 d) eqn:S;
        [apply Qltb_lt in S | apply Qltb_ge in S];
        (split; intros X; [reflexivity || lra | reflexivity || lra]).
    + cbn [offset timestamp hitType msg].
      split; [reflexivity |]. split; [reflexivity |].
      split; [intros _; split; reflexivity |].
      split; intros X; lra.
Qed.

(** The run of the effect for the expected note on a beat not yet played. *)
Lemma expected_note_hit (s : Trainer) (n : string) (now : Z) :
  trainingState s = training -> n <> "" ->
  JS.get (learnedPattern s) (currentPatternProgressRef s) = Some n ->
  hasPlayedOnThisBeatRef s = false ->
  noteEffect s (Some n) now
  = let period := (60000 / inject_Z (transportBpm s))%Q in
    let diff := beatOffset period (inject_Z (now - lastBeatTime s)) in
    if JS.Qltb (Qabs diff) (period * (4 # 10))
    then setFeedback
           (Some (precisionFeedback period diff (diff / (period / 2)) now))
           (setCurrentPatternProgressRef (currentPatternProgressRef s + 1)
              (setHasPlayedOnThisBeatRef true s))
    else s.
Proof.
  intros T N G P.
  assert (String.eqb n "" = false) as N' by now apply String.eqb_neq.
  assert (0 <= currentPatternProgressRef s) as C.
  { unfold JS.get in G.
    destruct (Z.ltb_spec (currentPatternProgressRef s) 0); [discriminate | lia]. }
  assert ((currentPatternProgressRef s + 1 =? 0) = false) as C' by lia.
  unfold noteEffect, trainingPhase. rewrite N', T, G, P.
  cbn [isExpected]. rewrite String.eqb_refl.
  cbn [andb negb currentPatternProgressRef setCurrentPatternProgressRef].
  rewrite C'. cbv zeta. rewrite andb_true_r. reflexivity.
Qed.

(** The timing bands on exact rationals: the band edges at 5 %, 15 % and
    40 % of the period, the normalized offset strictly between -0.8 and
    0.8, and the dead zone of a beat from 40 % to 60 % of the period. *)
Lemma timing_bands_exact (s : Trainer) (n : string) (now : Z) :
  trainingState s = training -> 0 < transportBpm s -> n <> "" ->
  JS.get (learnedPattern s) (currentPatternProgressRef s) = Some n ->
  hasPlayedOnThisBeatRef s = false ->
  let period := (60000 / inject_Z (transportBpm s))%Q in
  let sinceBeat := inject_Z (now - lastBeatTime s) in
  let diff := beatOffset period sinceBeat in
  let s' := noteEffect s (Some n) now in
  ((period * (4 # 10) <= Qabs diff)%Q -> s' = s)
  /\ ((Qabs diff < period * (4 # 10))%Q ->
      exists fb,
        feedback s' = Some fb /\ timestamp fb = now
        /\ currentPatternProgressRef s' = currentPatternProgressRef s + 1
        /\ hasPlayedOnThisBeatRef s' = true
        /\ offset fb = Some (diff / (period / 2))%Q
        /\ (- (8 # 10) < diff / (period / 2) /\ diff / (period / 2) < 8 # 10)%Q
        /\ ((Qabs diff <= period * (5 # 100))%Q ->
            hitType fb = perfect /\ msg fb = "Perfect!")
        /\ ((period * (5 # 100) < Qabs diff <= period * (15 # 100))%Q ->
            hitType fb = good
            /\ ((0 < diff)%Q -> msg fb = "Slightly Late")
            /\ ((diff <= 0)%Q -> msg fb = "Slightly Early"))
        /\ ((period * (15 # 100) < Qabs diff)%Q ->
            hitType fb = fair
            /\ ((0 < diff)%Q -> msg fb = "Late")
            /\ ((diff <= 0)%Q -> msg fb = "Early")))
  /\ ((0 <= sinceBeat <= period)%Q ->
      (s' = s <-> (period * (4 # 10) <= sinceBeat <= period * (6 # 10))%Q)).
Proof.
  intros T B N G P period sinceBeat diff s'.
  pose proof (expected_note_hit s n now T N G P) as H.
  cbv zeta in H. fold period sinceBeat diff s' in H.
  pose proof (period_positive _ B) as Pos. fold period in Pos.
  assert ((period * (4 # 10) <= Qabs diff)%Q -> s' = s) as Rej.
  { intros R. apply Qltb_ge in R. now rewrite H, R. }
  assert ((Qabs diff < period * (4 # 10))%Q ->
          s' = setFeedback
                 (Some (precisionFeedback period diff (diff / (period / 2)) now))
                 (setCurrentPatternProgressRef (currentPatternProgressRef s + 1)
                    (setHasPlayedOnThisBeatRef true s))) as Acc.
  { intros A. apply Qltb_lt in A. now rewrite H, A. }
  split; [exact Rej |]. split.
  - intros A.
    exists (precisionFeedback period diff (diff / (period / 2)) now).
    destruct (precisionFeedback_bands period diff (diff / (period / 2)) now Pos)
      as (O & Ts & B1 & B2 & B3).
    rewrite (Acc A).
    split; [reflexivity |]. split; [exact Ts |]. split; [reflexivity |].
    split; [reflexivity |]. split; [exact O |].
    split; [exact (normalizedOffset_bound period diff Pos A) |].
    split; [exact B1 |]. split; [exact B2 | exact B3].
  - intros R. rewrite <- (beatOffset_window period sinceBeat Pos R).
    fold diff. split.
    + intros E.
      destruct (Qlt_le_dec (Qabs diff) (period * (4 # 10))) as [A | A];
        [| exact A].
      apply Acc in A. rewrite E in A.
      apply (f_equal currentPatternProgressRef) in A. cbn in A. lia.
    + exact Rej.
Qed.

(** X17.  Timing bands at any tempo.  In training, take the expected note
    on a beat not yet played, at a positive metronome tempo, with beat
    period 60000 / tempo ms, and leave a relative slack of one part in
    10^9 around each band edge (where the binary64 arithmetic of the code
    decides).  A note whose offset from the nearest beat is above 40 % of
    the period changes nothing.  A note below 40 % is taken: the cursor
    advances by one, the beat is marked as played, and the feedback carries
    a normalized offset between -0.81 and 0.81; it
    is perfect below 5 % of the period, good (slightly late or slightly
    early) between 5 % and 15 %, fair (late or early) between 15 % and
    40 %.  For a note arriving between two beats: between 40 % and 60 % of
    the period after the beat it changes nothing, before 40 % and after
    60 % it is taken. *)
Theorem timing_bands (s : Trainer) (n : string) (now : Z) :
  trainingState s = training -> 0 < transportBpm s -> n <> "" ->
  JS.get (learnedPattern s) (currentPatternProgressRef s) = Some n ->
  hasPlayedOnThisBeatRef s = false ->
  let period := (60000 / inject_Z (transportBpm s))%Q in
  let sinceBeat := inject_Z (now - lastBeatTime s) in
  let diff := beatOffset period sinceBeat in
  let s' := noteEffect s (Some n) now in
  let up := (1 + Binary64.slack)%Q in
  let down := (1 - Binary64.slack)%Q in
  let taken (kind : HitType) (late early : string) :=
    exists fb o,
      feedback s' = Some fb /\ hitType fb = kind
      /\ ((0 < diff)%Q -> msg fb = late) /\ ((diff < 0)%Q -> msg fb = early)
      /\ offset fb = Some o /\ (- (81 # 100) < o /\ o < 81 # 100)%Q
      /\ currentPatternProgressRef s' = currentPatternProgressRef s + 1
      /\ hasPlayedOnThisBeatRef s' = true in
  ((period * (4 # 10) * up <= Qabs diff)%Q -> s' = s)
  /\ ((Qabs diff <= period * (5 # 100) * down)%Q ->
      taken perfect "Perfect!" "Perfect!")
  /\ ((period * (5 # 100) * up <= Qabs diff
       /\ Qabs diff <= period * (15 # 100) * down)%Q ->
      taken good "Slightly Late" "Slightly Early")
  /\ ((period * (15 # 100) * up <= Qabs diff
       /\ Qabs diff <= period * (4 # 10) * down)%Q ->
      taken fair "Late" "Early")
  /\ ((0 <= sinceBeat <= period)%Q ->
      ((period * (4 # 10) * up <= sinceBeat
        /\ sinceBeat <= period * (6 # 10) * down)%Q -> s' = s)
      /\ ((sinceBeat <= period * (4 # 10) * down
           \/ period * (6 # 10) * up <= sinceBeat)%Q -> s' <> s)).
Proof.
  intros T B N G P.
  pose proof (timing_bands_exact s n now T B N G P) as E.
  pose proof (period_positive _ B) as Pos.
  cbv zeta in *. unfold Binary64.slack.
  set (period := (60000 / inject_Z (transportBpm s))%Q) in *.
  set (diff := beatOffset period (inject_Z (now - lastBeatTime s))) in *.
  set (s' := noteEffect s (Some n) now) in *.
  destruct E as (Rej & Acc & Fold).
  assert ((Qabs diff < period * (4 # 10))%Q ->
          forall kind late early,
            (forall fb, feedback s' = Some fb ->
               ((Qabs diff <= period * (5 # 100))%Q ->
                hitType fb = perfect /\ msg fb = "Perfect!") ->
               ((period * (5 # 100) < Qabs diff <= period * (15 # 100))%Q ->
                hitType fb = good
                /\ ((0 < diff)%Q -> msg fb = "Slightly Late")
                /\ ((diff <= 0)%Q -> msg fb = "Slightly Early")) ->
               ((period * (15 # 100) < Qabs diff)%Q ->
                hitType fb = fair
                /\ ((0 < diff)%Q -> msg fb = "Late")
                /\ ((diff <= 0)%Q -> msg fb = "Early")) ->
               hitType fb = kind
               /\ ((0 < diff)%Q -> msg fb = late)
               /\ ((diff < 0)%Q -> msg fb = early)) ->
            exists fb o,
              feedback s' = Some fb /\ hitType fb = kind
              /\ ((0 < diff)%Q -> msg fb = late)
              /\ ((diff < 0)%Q -> msg fb = early)
              /\ offset fb = Some o /\ (- (81 # 100) < o /\ o < 81 # 100)%Q
              /\ currentPatternProgressRef s'
                 = currentPatternProgressRef s + 1
              /\ hasPlayedOnThisBeatRef s' = true) as Take.
  { intros A kind late early K.
    destruct (Acc A) as (fb & F & Ts & Cu & Pl & O & (O1 & O2) & B1 & B2 & B3).
    destruct (K fb F B1 B2 B3) as (K1 & K2 & K3).
    exists fb, (diff / (period / 2))%Q.
    split; [exact F |]. split; [exact K1 |].
    split; [exact K2 |]. split; [exact K3 |]. split; [exact O |].
    split; [split; lra |]. split; [exact Cu | exact Pl]. }
  split; [intros R; apply Rej; lra |].
  split; [| split; [| split]].
  - intros A. apply Take; [lra |].
    intros fb _ B1 _ _. destruct B1 as (K & M); [lra |].
    split; [exact K |]. split; intros _; exact M.
  - intros (A1 & A2). apply Take; [lra |].
    intros fb _ _ B2 _. destruct B2 as (K & M1 & M2); [split; lra |].
    split; [exact K |]. split; [exact M1 |]. intros D. apply M2. lra.
  - intros (A1 & A2). apply Take; [lra |].
    intros fb _ _ _ B3. destruct B3 as (K & M1 & M2); [lra |].
    split; [exact K |]. split; [exact M1 |]. intros D. apply M2. lra.
  - intros R. split.
    + intros (A1 & A2). apply (Fold R). split; lra.
    + intros A E. apply (Fold R) in E. destruct A; lra.
Qed.

Lemma timing_bands_witness :
  let s := trainer (run mounted (confirmLick 4 ++ [(Tick, 1000)])) in
  noteEffect s (Some "E") 1350 = s.
Proof.
  cbv zeta.
  destruct (timing_bands
              (trainer (run mounted (confirmLick 4 ++ [(Tick, 1000)])))
              "E" 1350) as (H & _).
  - vm_compute. reflexivity.
  - vm_compute. reflexivity.
  - discriminate.
  - vm_compute. reflexivity.
  - vm_compute. reflexivity.
  - apply H. vm_compute. discriminate.
Defined.

(** X18.  At most one hit per beat.  In training, once a run of the effect
    has taken a note (it changed the state), every further note before the
    next metronome tick is ignored, whatever the note and its timing; the
    tick itself re-arms the beat. *)
Theorem one_hit_per_beat (s : Trainer) (a1 a2 : option string) (t1 t2 : Z) :
  trainingState s = training ->
  noteEffect s a1 t1 <> s ->
  noteEffect (noteEffect s a1 t1) a2 t2 = noteEffect s a1 t1
  /\ forall c now,
       hasPlayedOnThisBeatRef (loopCallback c (noteEffect s a1 t1) now) = false.
Proof.
  intros T Ch. split.
  - assert (trainingState (noteEffect s a1 t1) = training
            /\ hasPlayedOnThisBeatRef (noteEffect s a1 t1) = true) as (T' & P').
    { unfold noteEffect in *. destruct a1 as [n |]; [| contradiction].
      destruct (String.eqb n ""); [contradiction |].
      rewrite T in *.
      destruct (trainingPhase_frame s n t1) as (F & _).
      split; [now rewrite F |].
      destruct (trainingPhase_shape s n t1) as [E | (normal & levelUp & _ & _ & E)];
        [contradiction |].
      rewrite E. destruct (_ =? 0); [| reflexivity].
      unfold countLoop. cbv zeta.
      destruct (_ <? _); destruct (_ =? 0); reflexivity. }
    set (s1 := noteEffect s a1 t1) in *.
    unfold noteEffect. destruct a2 as [n |]; [| reflexivity].
    destruct (String.eqb n ""); [reflexivity |].
    rewrite T'.
    destruct (trainingPhase_shape s1 n t2) as [E | (normal & levelUp & _ & X & _)];
      [exact E | congruence].
  - intros c now. unfold loopCallback. reflexivity.
Qed.

Lemma one_hit_per_beat_witness :
  let s := trainer (run mounted (confirmLick 4 ++ [(Tick, 1000)])) in
  noteEffect (noteEffect s (Some "E") 1010) (Some "F") 1020
  = noteEffect s (Some "E") 1010.
Proof.
  cbv zeta.
  destruct (one_hit_per_beat
              (trainer (run mounted (confirmLick 4 ++ [(Tick, 1000)])))
              (Some "E") (Some "F") 1010 1020) as (H & _).
  - vm_compute. reflexivity.
  - intros E. apply (f_equal hasPlayedOnThisBeatRef) in E.
    vm_compute in E. discriminate.
  - exact H.
Defined.

End TrainingPhase.

(** ** Lick trainer: the phases of a session *)

Section SessionPhases.

Import SpeedTrainer Session Phases.
Local Open Scope string_scope.
Local Open Scope Z_scope.

Lemma precisionFeedback_hit (p d o : Q) (now : Z) :
  hitType (precisionFeedback p d o now) <> miss.
Proof.
  unfold precisionFeedback. cbv zeta.
  destruct (JS.Qltb _ (Qabs d)); [discriminate |].
  destruct (JS.Qltb _ (Qabs d)); discriminate.
Qed.

Lemma trainingPhase_hit (s : Trainer) (n : string) (now : Z) :
  trainingPhase s n now = s
  \/ exists p d o levelUp,
      let s1 := setCurrentPatternProgressRef (currentPatternProgressRef s + 1)
                  (setHasPlayedOnThisBeatRef true s) in
      trainingPhase s n now
      = if currentPatternProgressRef s + 1 =? 0
        then countLoop s1 (precisionFeedback p d o now) levelUp
        else setFeedback (Some (precisionFeedback p d o now)) s1.
Proof.
  unfold trainingPhase. cbv zeta.
  destruct (isExpected n _); [| now left].
  destruct (JS.Qltb (Qabs _) _); [| now left].
  destruct (hasPlayedOnThisBeatRef s); [now left |].
  right. cbn [andb negb]. eexists. eexists. eexists. eexists. reflexivity.
Qed.

Lemma findRepeat_length (s : Trainer) (w : list string) (len : Z)
      (cur : list string) :
  findRepeat w (lengths (COMPLEXITY_CONFIG (complexity s))) = Some (len, cur) ->
  min (COMPLEXITY_CONFIG (complexity s)) <= JS.len cur
    <= max (COMPLEXITY_CONFIG (complexity s)).
Proof.
  intros E.
  destruct (config_positive (complexity s)) as (P1 & P2).
  pose proof (findRepeat_first w (min (COMPLEXITY_CONFIG (complexity s)))
                (Z.to_nat (max (COMPLEXITY_CONFIG (complexity s))
                           - min (COMPLEXITY_CONFIG (complexity s)) + 1)) 0) as F.
  fold (lengths (COMPLEXITY_CONFIG (complexity s))) in F. rewrite E in F.
  destruct F as (k & Hk & L & C & F2 & _).
  assert (0 < len) as Lpos by lia.
  destruct (last_windows w len Lpos F2) as (W & _).
  assert (JS.len cur = len) as ->.
  { rewrite C, W. unfold JS.len in *. rewrite length_skipn. lia. }
  lia.
Qed.

Lemma noteEffect_phaseInv (s : Trainer) (a : option string) (now : Z) :
  phaseInv s -> phaseInv (noteEffect s a now).
Proof.
  intros H. pose proof H as (B & C & M & Ph). unfold noteEffect.
  destruct a as [n |]; [| exact H].
  destruct (String.eqb n ""); [exact H |].
  destruct (trainingState s) eqn:T; [exact H | | |].
  - destruct Ph as (A & P & N & Hi & Tr & L).
    unfold learningPhase. cbv zeta.
    destruct (findRepeat _ _) as [[len cur] |] eqn:F.
    + apply findRepeat_length in F.
      unfold phaseInv, patternInRange. cbn.
      split; [exact B |]. split; [exact C |].
      split; [intros fb [= <-]; discriminate |].
      repeat split; try assumption; try lia.
    + unfold phaseInv. cbn. rewrite T.
      split; [exact B |]. split; [exact C |]. split; [exact M |].
      repeat split; try assumption.
      destruct (window_suffix (noteHistory s ++ [n])%list 20 ltac:(lia)) as (W & _).
      exact W.
  - destruct Ph as (A & P & N & Hi & Tr & L).
    assert (phaseInv (setCurrentPatternProgressRef 0 (confirmCycle s now))) as Cy.
    { unfold confirmCycle, ensureAudioInit. rewrite Tr, L. cbv zeta.
      destruct (Z.leb_spec 5 (patternMatches s + 1)).
      - unfold phaseInv, patternInRange. cbn. rewrite T.
        split; [exact B |]. split; [lia |].
        split; [intros fb [= <-]; discriminate |].
        repeat split; try assumption; try lia; apply P.
      - unfold phaseInv, patternInRange. cbn. rewrite T.
        split; [exact B |]. split; [lia |]. split; [exact M |].
        repeat split; try assumption; try lia; apply P. }
    assert (forall c, 0 <= c -> phaseInv (setCurrentPatternProgressRef c s)) as Mv.
    { intros c Hc. unfold phaseInv, patternInRange. cbn. rewrite T.
      split; [exact B |]. split; [exact Hc |]. split; [exact M |].
      repeat split; try assumption; try lia; apply P. }
    unfold lockedPhase. cbv zeta.
    destruct (isExpected _ _).
    + destruct (JS.len _ <=? _); [exact Cy | apply Mv; lia].
    + destruct (_ && _); [| exact H].
      destruct (JS.len _ <=? _); [exact Cy | apply Mv; lia].
  - destruct Ph as (A & P & N & Hi & Tr & L & Tb).
    destruct (trainingPhase_hit s n now) as [-> | (p & d & o & lf & ->)];
      [exact H |].
    assert ((currentPatternProgressRef s + 1 =? 0) = false) as -> by lia.
    pose proof (precisionFeedback_hit p d o now) as Hit.
    set (fb := precisionFeedback p d o now) in *. clearbody fb.
    unfold phaseInv, patternInRange. cbn. rewrite T.
    split; [exact B |]. split; [lia |].
    split; [intros fb' [= <-]; exact Hit |].
    repeat split; try assumption; try lia; apply P.
Qed.

Lemma settle_phaseInv (fuel : nat) (old w : World) (now : Z) :
  phaseInv (trainer w) -> phaseInv (trainer (settle fuel old w now)).
Proof.
  revert old w. induction fuel as [| fuel IH]; intros old w H; cbn [settle];
    [exact H |].
  destruct (depsChanged old w); [| exact H]. apply IH.
  unfold runEffect, syncStreakRef. cbn [trainer].
  pose proof (noteEffect_phaseInv _ (activeNote w) now H) as X.
  exact X.
Qed.

Lemma handle_phaseInv (w : World) (e : Event) (now : Z) :
  phaseInv (trainer w) -> phaseInv (trainer (handle w e now)).
Proof.
  intros H. pose proof H as (B & C & M & Ph). unfold handle.
  destruct e as [n | | | m | v | v].
  - exact H.
  - destruct (transportStarted (trainer w)) eqn:Tr; [| exact H].
    destruct (loopRef (trainer w)) as [closedOver |] eqn:L; [| exact H].
    destruct (trainingState (trainer w)) eqn:T;
      try (destruct Ph as (_ & _ & _ & _ & X & _); congruence).
    destruct Ph as (A & P & N & Hi & _ & L' & Tb).
    assert (closedOver = locked) as -> by congruence.
    pose proof (Z.rem_bound_pos (currentBeat (trainer w) + 1) 4) as R.
    unfold loopCallback, syncStreakRef, phaseInv, patternInRange. cbn.
    rewrite T. split; [lia |]. split; [exact C |]. split; [exact M |].
    repeat split; try assumption; apply P.
  - destruct (trainingState (trainer w)) eqn:T.
    + destruct Ph as (A & P & N & Hi & Tr & L).
      unfold phaseInv. cbn. rewrite Hi.
      split; [exact B |]. split; [exact C |]. split; [exact M |].
      repeat split; try assumption. unfold JS.len. simpl. lia.
    + unfold phaseInv. cbn. split; [lia |]. split; [exact C |].
      split; [discriminate |]. repeat split.
    + unfold phaseInv. cbn. split; [lia |]. split; [exact C |].
      split; [discriminate |]. repeat split.
    + unfold phaseInv. cbn. split; [lia |]. split; [exact C |].
      split; [discriminate |]. repeat split.
  - destruct (trainingState (trainer w)) eqn:T; try exact H.
    unfold phaseInv. cbn. rewrite T. tauto.
  - destruct (trainingState (trainer w)) eqn:T; exact H.
  - destruct (trainingState (trainer w)) eqn:T; exact H.
Qed.

Lemma run_phaseInv (evs : list (Event * Z)) (w : World) :
  phaseInv (trainer w) -> phaseInv (trainer (run w evs)).
Proof.
  revert w. induction evs as [| [e now] evs IH]; intros w H; [exact H |].
  apply IH. unfold step. apply settle_phaseInv, handle_phaseInv, H.
Qed.

Lemma mounted_phaseInv : phaseInv (trainer mounted).
Proof.
  unfold phaseInv. cbn. split; [lia |]. split; [lia |].
  split; [discriminate |]. repeat split.
Qed.

(** X19.  The phase of the trainer and its state cells agree, after any
    sequence of note changes, metronome ticks, clicks on the start/reset
    button and uses of the three settings controls from the first render.
    Idle: not active, no pattern, counter 0, empty history.  Learning:
    active, no pattern, counter 0, at most 20 notes of history.  Locked:
    active, the pattern has a length of the range of the complexity mode,
    the confirmation counter is from 1 to 4, the history is empty.
    Training: active, the pattern has a length of the range, the counter
    is 5, the history is empty.  The beat counter is always one of 0, 1,
    2, 3. *)
Theorem phase_agrees_with_state (evs : list (Event * Z)) :
  let s := trainer (run mounted evs) in
  let config := COMPLEXITY_CONFIG (complexity s) in
  0 <= currentBeat s <= 3
  /\ (trainingState s = idle ->
      isActive s = false /\ learnedPattern s = [] /\ patternMatches s = 0
      /\ noteHistory s = [])
  /\ (trainingState s = learning ->
      isActive s = true /\ learnedPattern s = [] /\ patternMatches s = 0
      /\ JS.len (noteHistory s) <= 20)
  /\ (trainingState s = locked ->
      isActive s = true
      /\ min config <= JS.len (learnedPattern s) <= max config
      /\ 1 <= patternMatches s <= 4
      /\ noteHistory s = [])
  /\ (trainingState s = training ->
      isActive s = true
      /\ min config <= JS.len (learnedPattern s) <= max config
      /\ patternMatches s = 5
      /\ noteHistory s = []).
Proof.
  cbv zeta.
  destruct (run_phaseInv evs mounted mounted_phaseInv) as (B & _ & _ & Ph).
  unfold patternInRange in Ph.
  split; [exact B |].
  split; [intros T; rewrite T in Ph; tauto |].
  split; [intros T; rewrite T in Ph; tauto |].
  split; intros T; rewrite T in Ph; tauto.
Qed.

(** X20.  The metronome never reports a missed beat.  The loop callback is
    created while the trainer is still in the locked state and keeps
    seeing that state, so after any sequence of events from the first
    render the callback in use was created in the locked state, and the
    feedback shown is never of the kind miss. *)
Theorem missed_beat_never_reported (evs : list (Event * Z)) :
  let s := trainer (run mounted evs) in
  (loopRef s = None \/ loopRef s = Some locked)
  /\ forall fb, feedback s = Some fb -> hitType fb <> miss.
Proof.
  cbv zeta.
  destruct (run_phaseInv evs mounted mounted_phaseInv) as (_ & _ & M & Ph).
  split; [| exact M].
  destruct (trainingState (trainer (run mounted evs))); tauto.
Qed.

End SessionPhases.

(** ** Fretboard of the scale visualizer *)

Section Fretboard.

Import ScaleVisualizer.
Local Open Scope string_scope.
Local Open Scope Z_scope.

Lemma get_baseNotes (i : Z) :
  0 <= i < 12 -> exists name, JS.get baseNotes i = Some name.
Proof.
  intros B. unfold JS.get. destruct (Z.ltb_spec i 0); [lia |].
  destruct (nth_error baseNotes (Z.to_nat i)) as [name |] eqn:E;
    [now exists name |].
  apply nth_error_None in E. simpl in E. lia.
Qed.

Lemma getNoteNameAt_index (sIdx f : Z) :
  0 <= sIdx < 6 -> 0 <= f ->
  exists start,
    JS.get startingNotes sIdx = Some start /\ 0 <= start < 12
    /\ getNoteNameAt sIdx f = JS.get baseNotes ((start + f) mod 12).
Proof.
  intros S F.
  assert (sIdx = 0 \/ sIdx = 1 \/ sIdx = 2 \/ sIdx = 3 \/ sIdx = 4 \/ sIdx = 5)
    as D by lia.
  destruct D as [-> | [-> | [-> | [-> | [-> | ->]]]]];
    [exists 4 | exists 11 | exists 7 | exists 2 | exists 9 | exists 4];
    (split; [reflexivity |]; split; [lia |];
     unfold getNoteNameAt;
     match goal with
     | |- match ?g with _ => _ end = _ =>
         let v := eval vm_compute in g in change g with v
     end;
     cbv iota beta; rewrite Z.rem_mod_nonneg by lia; reflexivity).
Qed.

(** X21.  Every cell of the fretboard has a note name.  On each of the six
    strings and at every fret from 0 on, the visualizer finds a name of
    its twelve-note table; one fret higher is the next entry of the table
    (wrapping from B to C), and twelve frets higher is the same name. *)
Theorem getNoteNameAt_on_fretboard (sIdx f : Z) :
  0 <= sIdx < 6 -> 0 <= f ->
  exists i name,
    0 <= i < 12
    /\ JS.get baseNotes i = Some name
    /\ getNoteNameAt sIdx f = Some name
    /\ getNoteNameAt sIdx (f + 1) = JS.get baseNotes ((i + 1) mod 12)
    /\ getNoteNameAt sIdx (f + 12) = Some name.
Proof.
  intros S F.
  destruct (getNoteNameAt_index sIdx f S F) as (start & G & B & E).
  destruct (getNoteNameAt_index sIdx (f + 1) S ltac:(lia)) as (start1 & G1 & _ & E1).
  destruct (getNoteNameAt_index sIdx (f + 12) S ltac:(lia)) as (start2 & G2 & _ & E2).
  assert (start1 = start) as -> by congruence.
  assert (start2 = start) as -> by congruence.
  pose proof (Z.mod_pos_bound (start + f) 12 ltac:(lia)) as R.
  destruct (get_baseNotes _ R) as (name & N).
  exists ((start + f) mod 12), name.
  split; [exact R |]. split; [exact N |]. split; [now rewrite E |]. split.
  - rewrite E1. f_equal. rewrite Z.add_mod_idemp_l by lia. f_equal. lia.
  - rewrite E2, <- N. f_equal.
    replace (start + (f + 12)) with (start + f + 1 * 12) by lia.
    apply Z_mod_plus_full.
Qed.

Lemma getNoteNameAt_on_fretboard_witness :
  exists i name,
    0 <= i < 12
    /\ JS.get baseNotes i = Some name
    /\ getNoteNameAt 2 5 = Some name
    /\ getNoteNameAt 2 (5 + 1) = JS.get baseNotes ((i + 1) mod 12)
    /\ getNoteNameAt 2 (5 + 12) = Some name.
Proof.
  apply (getNoteNameAt_on_fretboard 2 5); lia.
Defined.

(** X22.  Each string carries every note name exactly once in an octave.
    On each of the six strings, every name of the twelve-note table is
    found at exactly one of the frets 0 to 11. *)
Theorem getNoteNameAt_octave_covers_names (sIdx : Z) (name : string) :
  0 <= sIdx < 6 -> In name baseNotes ->
  exists f,
    0 <= f < 12 /\ getNoteNameAt sIdx f = Some name
    /\ forall g, 0 <= g < 12 -> getNoteNameAt sIdx g = Some name -> g = f.
Proof.
  intros S N.
  assert (forall g, 0 <= g < 12 ->
            g = 0 \/ g = 1 \/ g = 2 \/ g = 3 \/ g = 4 \/ g = 5 \/ g = 6
            \/ g = 7 \/ g = 8 \/ g = 9 \/ g = 10 \/ g = 11) as Enum
    by (intros; lia).
  assert (sIdx = 0 \/ sIdx = 1 \/ sIdx = 2 \/ sIdx = 3 \/ sIdx = 4 \/ sIdx = 5)
    as D by lia.
  assert (forall st, In st [0; 1; 2; 3; 4; 5] ->
          forall i, In i [0; 1; 2; 3; 4; 5; 6; 7; 8; 9; 10; 11] ->
          exists f, 0 <= f < 12
            /\ getNoteNameAt st f = JS.get baseNotes i
            /\ forall g, 0 <= g < 12 ->
                 getNoteNameAt st g = JS.get baseNotes i -> g = f) as Tab.
  { intros st Hst i Hi.
    exists ((i - match JS.get startingNotes st with Some x => x | None => 0 end)
            mod 12).
    simpl in Hst, Hi.
    repeat (destruct Hst as [<- | Hst]; [| try contradiction]);
      repeat (destruct Hi as [<- | Hi]; [| try contradiction]);
      (split; [vm_compute; split; [discriminate | reflexivity] |];
       split; [reflexivity |];
       intros g Hg Eg;
       destruct (Enum g Hg)
         as [-> | [-> | [-> | [-> | [-> | [-> | [-> | [-> | [-> | [-> | [-> | ->]]]]]]]]]]];
       vm_compute in Eg; (reflexivity || discriminate)). }
  assert (exists i, In i [0; 1; 2; 3; 4; 5; 6; 7; 8; 9; 10; 11]
                    /\ JS.get baseNotes i = Some name) as (i & Hi & Gi).
  { simpl in N.
    destruct N
      as [<- | [<- | [<- | [<- | [<- | [<- | [<- | [<- | [<- | [<- | [<- | [<- | []]]]]]]]]]]]];
      [exists 0 | exists 1 | exists 2 | exists 3 | exists 4 | exists 5
       | exists 6 | exists 7 | exists 8 | exists 9 | exists 10 | exists 11];
      (split; [simpl; lia | reflexivity]). }
  rewrite <- Gi. apply Tab; [| exact Hi].
  simpl. lia.
Qed.

Lemma getNoteNameAt_octave_covers_names_witness :
  exists f,
    0 <= f < 12 /\ getNoteNameAt 3 f = Some "A"
    /\ forall g, 0 <= g < 12 -> getNoteNameAt 3 g = Some "A" -> g = f.
Proof.
  apply (getNoteNameAt_octave_covers_names 3 "A"); [lia |].
  simpl. do 9 right. left. reflexivity.
Defined.

End Fretboard.

(** ** Chord matcher: when no chord is found *)

Section ChordFound.

Import Constants.
Local Open Scope string_scope.
Local Open Scope Z_scope.

Lemma firstType_some (r : Z) (rel : list Z) (types : list ChordDefinition)
      (t : ChordDefinition) :
  In t types -> isMatch rel t = true -> firstType r rel types <> None.
Proof.
  induction types as [| t' types IH]; intros I M; [contradiction |].
  cbn [firstType]. destruct (isMatch rel t') eqn:E; [discriminate |].
  destruct I as [-> | I]; [congruence | now apply IH].
Qed.

Lemma firstRoot_none (idx roots : list Z) :
  firstRoot idx roots = None <->
  forall r, In r roots -> forall t, In t CHORD_TYPES ->
    isMatch (relativeIntervals idx r) t = false.
Proof.
  induction roots as [| r0 roots IH]; cbn [firstRoot].
  - split; [intros _ r [] | reflexivity].
  - destruct (firstType r0 (relativeIntervals idx r0) CHORD_TYPES) as [m |] eqn:E.
    + split; [discriminate |]. intros H. exfalso.
      destruct (firstType_notes _ _ _ _ E) as (t & It & Mt & _).
      rewrite (H r0 (or_introl eq_refl) t It) in Mt. discriminate.
    + rewrite IH. split.
      * intros H r [<- | Hr] t It; [| now apply H].
        pose proof (firstType_none _ _ _ E) as F.
        rewrite Forall_forall in F. now apply F.
      * intros H r Hr. apply H. now right.
Qed.

Lemma two_members {A : Type} (l : list A) (a b : A) :
  In a l -> In b l -> a <> b -> 2 <= JS.len l.
Proof.
  intros Ha Hb D. unfold JS.len.
  destruct l as [| x [| y l]]; cbn [List.length]; try lia.
  - destruct Ha.
  - destruct Ha as [<- | []]. destruct Hb as [<- | []]. contradiction.
Qed.

(** X23.  [identifyChord] returns null exactly when fewer than two names
    are passed or no chord type passes the subset test at any of the
    pitch classes played taken as the root. *)
Theorem identifyChord_null_iff_no_match (notes : list string) :
  identifyChord notes = None <->
  JS.len notes < 2
  \/ forall r, In r (noteIndices notes) -> forall t, In t CHORD_TYPES ->
       isMatch (relativeIntervals (noteIndices notes) r) t = false.
Proof.
  unfold identifyChord. cbv zeta.
  destruct (Z.ltb_spec (JS.len notes) 2) as [L | L].
  - split; [now left | reflexivity].
  - rewrite firstRoot_none. split; [now right |].
    intros [H | H]; [lia | exact H].
Qed.

(** X24.  Two notes a perfect fifth apart always make a chord.  When the
    names passed include two whose pitch classes are among the twelve note
    names and seven semitones apart (upwards, modulo the octave),
    [identifyChord] does not return null, whatever else is passed. *)
Theorem identifyChord_fifth_is_chord (notes : list string) (a b : string) :
  In a notes -> In b notes ->
  In (JS.beforeDigit a) NOTE_NAMES -> In (JS.beforeDigit b) NOTE_NAMES ->
  (JS.indexOf NOTE_NAMES (JS.beforeDigit b)
   - JS.indexOf NOTE_NAMES (JS.beforeDigit a)) mod 12 = 7 ->
  exists m, identifyChord notes = Some m.
Proof.
  intros Ia Ib Na Nb Fifth.
  destruct (get_indexOf _ Na) as (Ba & _).
  destruct (get_indexOf _ Nb) as (Bb & _).
  set (ia := JS.indexOf NOTE_NAMES (JS.beforeDigit a)) in *.
  set (ib := JS.indexOf NOTE_NAMES (JS.beforeDigit b)) in *.
  assert (ib - ia = 7 \/ ib - ia = -5) as D.
  { pose proof (Z.div_mod (ib - ia) 12 ltac:(lia)) as Q. lia. }
  assert (a <> b) as Ne.
  { intros ->. subst ia ib. lia. }
  destruct (identifyChord notes) as [m |] eqn:E; [now exists m |].
  exfalso. unfold identifyChord in E. cbv zeta in E.
  destruct (Z.ltb_spec (JS.len notes) 2) as [L | L].
  - pose proof (two_members notes a b Ia Ib Ne). lia.
  - pose proof (proj1 (firstRoot_none _ _) E) as H.
    assert (In ia (noteIndices notes)) as Ra
      by (apply noteIndices_In; now exists a).
    assert (In ib (noteIndices notes)) as Rb
      by (apply noteIndices_In; now exists b).
    specialize (H ia Ra (mkChord "Power Chord" [0; 7] "5")
                  ltac:(unfold CHORD_TYPES; simpl; tauto)).
    unfold isMatch in H. cbn [intervals forallb] in H.
    assert (JS.includes (relativeIntervals (noteIndices notes) ia) 0 = true) as I0.
    { apply includes_In, relativeIntervals_In. exists ia. split; [exact Ra |].
      replace (ia - ia + 12) with 12 by lia. reflexivity. }
    assert (JS.includes (relativeIntervals (noteIndices notes) ia) 7 = true) as I7.
    { apply includes_In, relativeIntervals_In. exists ib. split; [exact Rb |].
      destruct D as [D | D].
      - replace (ib - ia + 12) with 19 by lia. reflexivity.
      - replace (ib - ia + 12) with 7 by lia. reflexivity. }
    rewrite I0, I7 in H. discriminate.
Qed.

Lemma identifyChord_fifth_is_chord_witness :
  exists m, identifyChord ["G3"; "F#2"; "C4"] = Some m.
Proof.
  apply (identifyChord_fifth_is_chord ["G3"; "F#2"; "C4"] "C4" "G3").
  - simpl. tauto.
  - simpl. tauto.
  - vm_compute. tauto.
  - vm_compute. tauto.
  - reflexivity.
Defined.

End ChordFound.

(** ** Chord matcher: the reference inputs and the search order *)

Section ChordReference.

Import Constants.
Local Open Scope string_scope.
Local Open Scope Z_scope.

(** Inputs with the same pitch classes get the same answer. *)
Lemma identifyChord_same_classes (xs ys : list string) :
  (forall pc, In pc (map JS.beforeDigit xs) <-> In pc (map JS.beforeDigit ys)) ->
  identifyChord xs = identifyChord ys.
Proof.
  intros E.
  assert (noteIndices xs = noteIndices ys) as I.
  { unfold noteIndices. apply canonical_indices. intros z.
    rewrite <- !(map_map JS.beforeDigit (JS.indexOf NOTE_NAMES)).
    rewrite !in_map_iff. split; intros (pc & <- & H); exists pc; split; auto;
      now apply E. }
  unfold identifyChord, JS.len.
  pose proof (noteIndices_length xs) as Lx.
  pose proof (noteIndices_length ys) as Ly.
  destruct (Z.ltb_spec (Z.of_nat (List.length xs)) 2) as [Hx | Hx];
    destruct (Z.ltb_spec (Z.of_nat (List.length ys)) 2) as [Hy | Hy].
  - reflexivity.
  - symmetry. apply firstRoot_short. rewrite <- I. lia.
  - apply firstRoot_short. rewrite I. lia.
  - now rewrite I.
Qed.

(** The subset test fails exactly when an interval of the template is
    missing. *)
Lemma isMatch_missing (rel : list Z) (t : ChordDefinition) :
  isMatch rel t = false -> exists int, In int (intervals t) /\ ~ In int rel.
Proof.
  unfold isMatch. induction (intervals t) as [| int l IH]; cbn [forallb];
    [discriminate |].
  destruct (JS.includes rel int) eqn:E.
  - intros H. destruct (IH H) as (x & Hx & N). exists x. split; [now right | exact N].
  - intros _. exists int. split; [now left |].
    intros H. apply includes_In in H. congruence.
Qed.

(** The relative intervals at a root are the notes passed, transposed. *)
Lemma relativeIntervals_played (notes : list string) (r int : Z) :
  In int (relativeIntervals (noteIndices notes) r)
  <-> exists n, In n notes
        /\ int = Z.rem (JS.indexOf NOTE_NAMES (JS.beforeDigit n) - r + 12) 12.
Proof.
  rewrite relativeIntervals_In. split.
  - intros (i & Hi & ->). apply noteIndices_In in Hi.
    destruct Hi as (n & Hn & ->). now exists n.
  - intros (n & Hn & ->). eexists. split; [| reflexivity].
    apply noteIndices_In. now exists n.
Qed.

(** C7.  The chord matcher on the reference inputs, and why.  Whatever
    the order, the repetitions and the octave suffixes of the names passed:
    when their pitch classes are C, E, G the matcher returns root C, type
    Major, and when they are C, E, G, A it still returns root C, type
    Major, although with the A the root A passes the subset test too (as
    A minor).  The reason is the search: the candidate roots are the pitch
    classes passed, in strictly ascending index order (C first), the
    templates are tried in the order of the table (Major first), a template
    passes at a root when each of its intervals is the interval of some
    note passed relative to that root (other notes are tolerated), and the
    first pair that passes is returned; null is returned only for fewer
    than two names or when no template passes at any root. *)
Theorem identifyChord_C_major :
  let CMajor := mkMatch "C" (Some "C") "Major" [Some "C"; Some "E"; Some "G"] in
  let played (notes : list string) (r int : Z) :=
    exists n, In n notes
      /\ int = Z.rem (JS.indexOf NOTE_NAMES (JS.beforeDigit n) - r + 12) 12 in
  (forall notes,
      (forall pc, In pc (map JS.beforeDigit notes) <-> In pc ["C"; "E"; "G"]) ->
      identifyChord notes = Some CMajor)
  /\ (forall notes,
      (forall pc, In pc (map JS.beforeDigit notes)
                  <-> In pc ["C"; "E"; "G"; "A"]) ->
      identifyChord notes = Some CMajor)
  /\ firstType 9 (relativeIntervals (noteIndices ["C"; "E"; "G"; "A"]) 9)
               CHORD_TYPES
     = Some (mkMatch "Am" (Some "A") "Minor" [Some "A"; Some "C"; Some "E"])
  /\ noteIndices ["C"; "E"; "G"; "A"] = [0; 4; 7; 9]
  /\ relativeIntervals [0; 4; 7; 9] 0 = [0; 4; 7; 9]
  /\ hd_error CHORD_TYPES = Some (mkChord "Major" [0; 4; 7] "")
  /\ map chordName CHORD_TYPES
     = ["Major"; "Minor"; "Major 7th"; "Minor 7th"; "Dominant 7th";
        "Suspended 4th"; "Suspended 2nd"; "Diminished"; "Augmented";
        "Power Chord"]
  /\ (forall notes m,
      identifyChord notes = Some m ->
      exists earlier r later before t after,
        noteIndices notes = (earlier ++ r :: later)%list
        /\ StronglySorted Z.lt (noteIndices notes)
        /\ (forall i, In i (noteIndices notes)
                      <-> exists n, In n notes
                            /\ i = JS.indexOf NOTE_NAMES (JS.beforeDigit n))
        /\ CHORD_TYPES = (before ++ t :: after)%list
        /\ root m = JS.get NOTE_NAMES r
        /\ type m = chordName t
        /\ (forall int, In int (intervals t) -> played notes r int)
        /\ (forall r' t', In r' earlier -> In t' CHORD_TYPES ->
              exists int, In int (intervals t') /\ ~ played notes r' int)
        /\ (forall t', In t' before ->
              exists int, In int (intervals t') /\ ~ played notes r int))
  /\ (forall notes,
      identifyChord notes = None ->
      JS.len notes < 2
      \/ forall r t, In r (noteIndices notes) -> In t CHORD_TYPES ->
           exists int, In int (intervals t) /\ ~ played notes r int).
Proof.
  cbv zeta.
  split; [| split].
  - intros notes E.
    rewrite (identifyChord_same_classes notes ["C"; "E"; "G"] E). reflexivity.
  - intros notes E.
    rewrite (identifyChord_same_classes notes ["C"; "E"; "G"; "A"] E).
    reflexivity.
  - split; [reflexivity |]. split; [reflexivity |]. split; [reflexivity |].
    split; [reflexivity |]. split; [reflexivity |]. split.
    + intros notes m H.
      destruct (identifyChord_first_match notes m H)
        as (e & r & l & b & t & a & E & S & T & He & Hb & Hm & R & Ty).
      exists e, r, l, b, t, a.
      split; [exact E |]. split; [exact S |].
      split; [intros i; apply noteIndices_In |].
      split; [exact T |]. split; [exact R |]. split; [exact Ty |].
      split; [| split].
      * intros int Hint. apply relativeIntervals_played, Hm, Hint.
      * intros r' t' Hr Ht. rewrite Forall_forall in He.
        pose proof (He r' Hr) as F. rewrite Forall_forall in F.
        destruct (isMatch_missing _ _ (F t' Ht)) as (int & Hi & N).
        exists int. split; [exact Hi |].
        intros P. apply N. now apply relativeIntervals_played.
      * intros t' Ht. rewrite Forall_forall in Hb.
        destruct (isMatch_missing _ _ (Hb t' Ht)) as (int & Hi & N).
        exists int. split; [exact Hi |].
        intros P. apply N. now apply relativeIntervals_played.
    + intros notes H. unfold identifyChord in H. cbv zeta in H.
      destruct (Z.ltb_spec (JS.len notes) 2) as [L | L]; [now left |].
      right. intros r t Hr Ht.
      pose proof (proj1 (firstRoot_none _ _) H r Hr t Ht) as F.
      destruct (isMatch_missing _ _ F) as (int & Hi & N).
      exists int. split; [exact Hi |].
      intros P. apply N. now apply relativeIntervals_played.
Qed.

Lemma identifyChord_C_major_witness :
  identifyChord ["G3"; "C4"; "E4"; "C5"]
  = Some (mkMatch "C" (Some "C") "Major" [Some "C"; Some "E"; Some "G"])
  /\ identifyChord ["A2"; "E3"; "G3"; "C4"; "E4"]
     = Some (mkMatch "C" (Some "C") "Major" [Some "C"; Some "E"; Some "G"]).
Proof.
  destruct identifyChord_C_major as (A & B & _).
  split.
  - apply A. intros pc. simpl. tauto.
  - apply B. intros pc. simpl. tauto.
Defined.

End ChordReference.

(** ** Pitch loop: the active note *)

Section ActiveNote.

Import Constants App AppView.
Local Open Scope Q_scope.

(** The current note is a gated note whose name is in the detected set;
    before the first one the set is empty. *)
Lemma currentNote_invariant (frames : list (Q * Z)) (s : State) :
  match currentNote s with
  | None => detectedNotes s = []
  | Some p =>
      exists name,
        In name NOTE_NAMES /\ removeFirstDigits (note p) = name
        /\ In (Some name) (detectedNotes s)
  end ->
  match currentNote (listen s frames) with
  | None => detectedNotes (listen s frames) = []
  | Some p =>
      exists name,
        In name NOTE_NAMES /\ removeFirstDigits (note p) = name
        /\ In (Some name) (detectedNotes (listen s frames))
  end.
Proof.
  revert s. induction frames as [| [freq now] frames IH]; intros s H;
    [exact H |].
  change (listen s ((freq, now) :: frames))
    with (listen (update s freq now) frames).
  apply IH. unfold update.
  destruct (inRange freq) eqn:R; [| exact H].
  apply inRange_spec in R. destruct R as (_ & L & U).
  destruct (gated_note freq L U) as (name & oct & E & I & B & _).
  rewrite E. cbn [currentNote detectedNotes Constants.name].
  destruct (label_without_digits name oct
              (12 * (oct + 1) + JS.indexOf NOTE_NAMES name) I B) as (D & _).
  assert (In (Some name) (nextDetectedNotes (detectedNotes s) (Some name))) as M.
  { unfold nextDetectedNotes.
    destruct (has (detectedNotes s) (Some name)) eqn:X.
    - now apply has_In.
    - apply in_or_app. right. now left. }
  unfold nextCurrentNote.
  destruct (keepsPrev (currentNote s) _ freq) eqn:K.
  - unfold keepsPrev in K. destruct (currentNote s) as [p |]; [| discriminate].
    apply andb_true_iff in K. destruct K as (K & _).
    apply String.eqb_eq in K.
    exists name. split; [exact I |]. split; [now rewrite K | exact M].
  - exists name. split; [exact I |]. split; [exact D | exact M].
Qed.

(** X25.  The active note is a detected note name.  After any run of
    frames from the initial state, the active note name handed to the
    trainer and the fretboard is either undefined, and then no note has
    been detected yet, or one of the twelve note names, and then it is in
    the set of detected notes. *)
Theorem activeNoteName_is_detected (frames : list (Q * Z)) :
  let s := listen initial frames in
  match activeNoteName s with
  | None => detectedNotes s = []
  | Some n => In n NOTE_NAMES /\ In (Some n) (detectedNotes s)
  end.
Proof.
  cbv zeta.
  pose proof (currentNote_invariant frames initial eq_refl) as H.
  unfold activeNoteName.
  destruct (currentNote (listen initial frames)) as [p |]; cbn [option_map];
    [| exact H].
  destruct H as (name & I & D & M). rewrite D. split; assumption.
Qed.

End ActiveNote.

(** ** Lick trainer: where the notes of a pattern come from *)

Section PatternNotes.

Import SpeedTrainer Session Phases.
Local Open Scope string_scope.
Local Open Scope Z_scope.

Lemma slice_In {A : Type} (l : list A) (a b : Z) (x : A) :
  In x (JS.slice l a b) -> In x l.
Proof.
  unfold JS.slice. cbv zeta.
  set (i := Z.to_nat (JS.relIndex (JS.len l) a)).
  set (k := Z.to_nat _). intros H.
  rewrite <- (firstn_skipn i l). apply in_or_app. right.
  rewrite <- (firstn_skipn k (skipn i l)). apply in_or_app. now left.
Qed.

Lemma findRepeat_In (w : list string) (lens : list Z) (len : Z)
      (cur : list string) (x : string) :
  findRepeat w lens = Some (len, cur) -> In x cur -> In x w.
Proof.
  induction lens as [| l lens IH]; cbn [findRepeat]; [discriminate |].
  destruct (_ <? _); [exact IH |]. cbv zeta.
  destruct (JS.sameSeq _ _); [| exact IH].
  intros [= <- <-]. apply slice_In.
Qed.

Lemma noteEffect_notes (s : Trainer) (a : option string) (now : Z) (x : string) :
  In x (noteHistory (noteEffect s a now))
  \/ In x (learnedPattern (noteEffect s a now)) ->
  In x (noteHistory s) \/ In x (learnedPattern s) \/ a = Some x.
Proof.
  unfold noteEffect. destruct a as [n |]; [| tauto].
  destruct (String.eqb n ""); [tauto |].
  destruct (trainingState s); [tauto | | |].
  - unfold learningPhase. cbv zeta.
    assert (forall y, In y (JS.sliceFrom (noteHistory s ++ [n])%list (-20)) ->
                      In y (noteHistory s) \/ Some n = Some y) as W.
    { intros y Hy. apply slice_In in Hy. apply in_app_iff in Hy.
      destruct Hy as [Hy | [<- | []]]; [now left | now right]. }
    destruct (findRepeat _ _) as [[len cur] |] eqn:F.
    + cbn. intros [[] | H]. apply (findRepeat_In _ _ _ _ x F) in H.
      apply W in H. tauto.
    + cbn. intros [H | H]; [apply W in H |]; tauto.
  - destruct (lockedPhase_frame s n now) as (_ & _ & _ & _ & _ & _ & P).
    assert (noteHistory (lockedPhase s n now) = noteHistory s) as Hi.
    { unfold lockedPhase, confirmCycle, ensureAudioInit. cbv zeta.
      destruct (isExpected _ _);
        [| destruct (_ && _); [| reflexivity]];
        destruct (JS.len _ <=? _); try reflexivity;
        destruct (5 <=? _); try reflexivity;
        destruct (transportStarted s); try reflexivity;
        destruct (loopRef s); reflexivity. }
    rewrite P, Hi. tauto.
  - destruct (trainingPhase_frame s n now) as (_ & _ & _ & _ & P & _).
    assert (noteHistory (trainingPhase s n now) = noteHistory s) as Hi.
    { destruct (trainingPhase_shape s n now) as [-> | (nf & lf & _ & _ & ->)];
        [reflexivity |].
      unfold countLoop. cbv zeta.
      destruct (_ =? 0); [| reflexivity].
      destruct (_ <? _); destruct (_ =? 0); reflexivity. }
    rewrite P, Hi. tauto.
Qed.

Lemma settle_known (Q : string -> Prop) (fuel : nat) (old w : World) (now : Z) :
  known Q w -> known Q (settle fuel old w now).
Proof.
  revert old w. induction fuel as [| fuel IH]; intros old w H; cbn [settle];
    [exact H |].
  destruct (depsChanged old w); [| exact H]. apply IH.
  destruct H as (A & Hi & P).
  unfold known, runEffect, syncStreakRef. cbn [trainer activeNote].
  split; [exact A |].
  change (noteHistory (setStreakRef _ ?s)) with (noteHistory s).
  change (learnedPattern (setStreakRef _ ?s)) with (learnedPattern s).
  split; intros n Hn.
  - destruct (noteEffect_notes _ _ now n (or_introl Hn)) as [X | [X | X]]; auto.
  - destruct (noteEffect_notes _ _ now n (or_intror Hn)) as [X | [X | X]]; auto.
Qed.

Lemma handle_known (Q : string -> Prop) (w : World) (e : Event) (now : Z) :
  known Q w ->
  known (fun n => Q n \/ e = NoteChange (Some n)) (handle w e now).
Proof.
  intros (A & Hi & P). unfold handle, known.
  destruct e as [n | | | m | v | v].
  - cbn. split; [| split]; intros x Hx; [right; now rewrite Hx | |]; left; auto.
  - destruct (transportStarted (trainer w));
      [destruct (loopRef (trainer w)) as [c |] |];
      try (split; [| split]; intros x Hx; left; auto).
    + unfold loopCallback, syncStreakRef in Hx.
      destruct c; try destruct (_ && _); cbn in Hx; auto.
    + unfold loopCallback, syncStreakRef in Hx.
      destruct c; try destruct (_ && _); cbn in Hx; auto.
  - destruct (trainingState (trainer w)); cbn;
      (split; [| split]; intros x Hx; left; auto; try contradiction).
  - destruct (trainingState (trainer w)); cbn;
      (split; [| split]; intros x Hx; left; auto).
  - destruct (trainingState (trainer w)); cbn;
      (split; [| split]; intros x Hx; left; auto).
  - destruct (trainingState (trainer w)); cbn;
      (split; [| split]; intros x Hx; left; auto).
Qed.

Lemma known_mono (Q R : string -> Prop) (w : World) :
  (forall n, Q n -> R n) -> known Q w -> known R w.
Proof.
  intros M (A & Hi & P). unfold known. repeat split; intros; apply M; auto.
Qed.

Lemma run_known (evs : list (Event * Z)) (Q : string -> Prop) (w : World) :
  known Q w ->
  known (fun n => Q n \/ exists now, In (NoteChange (Some n), now) evs)
        (run w evs).
Proof.
  revert Q w. induction evs as [| [e now] evs IH]; intros Q w H.
  - apply (known_mono Q); [intros; now left | exact H].
  - cbn [run fold_left]. fold (run (step w (e, now)) evs).
    pose proof (IH _ _ (settle_known _ 3 w _ now (handle_known Q w e now H))) as X.
    revert X. apply known_mono. intros n [[Hn | Hn] | (t & Hn)].
    + now left.
    + right. exists now. left. now rewrite Hn.
    + right. exists t. now right.
Qed.

(** X26.  Patterns are made of notes that were played.  After any sequence
    of events from the first render, every note of the learned pattern and
    of the rolling history is a note that one of the note changes of the
    sequence passed to the trainer. *)
Theorem pattern_notes_were_played (evs : list (Event * Z)) (n : string) :
  In n (learnedPattern (trainer (run mounted evs)))
  \/ In n (noteHistory (trainer (run mounted evs))) ->
  exists now, In (NoteChange (Some n), now) evs.
Proof.
  intros H.
  assert (known (fun _ => False) mounted) as K.
  { unfold known. cbn. repeat split; intros x Hx; [discriminate | |];
      contradiction. }
  destruct (run_known evs _ _ K) as (_ & Hi & P).
  destruct H as [H | H]; [apply P in H | apply Hi in H];
    (destruct H as [[] | H]; exact H).
Qed.

Lemma pattern_notes_were_played_witness :
  exists now, In (NoteChange (Some "F"), now) learnLick.
Proof.
  apply (pattern_notes_were_played learnLick "F").
  left. vm_compute. right. left. reflexivity.
Defined.

End PatternNotes.

(** ** Lick trainer: the moves between phases *)

Section PhaseMoves.

Import SpeedTrainer Session.
Local Open Scope string_scope.
Local Open Scope Z_scope.

Lemma runEffect_idle (w : World) (now : Z) :
  trainingState (trainer w) = idle ->
  trainingState (trainer (runEffect w now)) = idle.
Proof.
  intros T. unfold runEffect, syncStreakRef. cbn [trainer].
  change (trainingState (setStreakRef _ ?s)) with (trainingState s).
  destruct (noteEffect_frame (trainer w) (activeNote w) now) as (F & _).
  destruct F as [F | [(F & _) | (F & _)]]; congruence.
Qed.

Lemma runEffect_training (w : World) (now : Z) :
  trainingState (trainer w) = training ->
  trainingState (trainer (runEffect w now)) = training.
Proof.
  intros T. unfold runEffect, syncStreakRef. cbn [trainer].
  change (trainingState (setStreakRef _ ?s)) with (trainingState s).
  destruct (noteEffect_frame (trainer w) (activeNote w) now) as (F & _).
  destruct F as [F | [(F & _) | (F & _)]]; congruence.
Qed.

Lemma runEffect_locked (w : World) (now : Z) :
  trainingState (trainer w) = locked \/ trainingState (trainer w) = training ->
  trainingState (trainer (runEffect w now)) = locked
  \/ trainingState (trainer (runEffect w now)) = training.
Proof.
  intros T. unfold runEffect, syncStreakRef. cbn [trainer].
  change (trainingState (setStreakRef _ ?s)) with (trainingState s).
  destruct (noteEffect_frame (trainer w) (activeNote w) now) as (F & _).
  destruct F as [F | [(F & _) | (F & F')]]; destruct T; try congruence; auto.
  - left. congruence.
  - right. congruence.
Qed.

(** In learning, or in locked with at most [k] confirmations. *)
Lemma runEffect_learning (k : Z) (w : World) (now : Z) :
  1 <= k < 4 ->
  trainingState (trainer w) = learning
  \/ trainingState (trainer w) = locked /\ patternMatches (trainer w) <= k ->
  trainingState (trainer (runEffect w now)) = learning
  \/ trainingState (trainer (runEffect w now)) = locked
     /\ patternMatches (trainer (runEffect w now)) <= k + 1.
Proof.
  intros K H. unfold runEffect, syncStreakRef. cbn [trainer].
  change (trainingState (setStreakRef _ ?s)) with (trainingState s).
  change (patternMatches (setStreakRef _ ?s)) with (patternMatches s).
  unfold noteEffect.
  destruct (activeNote w) as [n |];
    [| destruct H as [H | (H & P)]; [now left | right; split; [exact H | lia]]].
  destruct (String.eqb n "");
    [destruct H as [H | (H & P)]; [now left | right; split; [exact H | lia]] |].
  destruct H as [H | (H & P)]; rewrite H.
  - unfold learningPhase. cbv zeta.
    destruct (findRepeat _ _) as [[len cur] |]; cbn.
    + right. split; [reflexivity | lia].
    + now left.
  - right. unfold lockedPhase. cbv zeta.
    assert (trainingState (confirmCycle (trainer w) now) = locked
            /\ patternMatches (confirmCycle (trainer w) now) <= k + 1) as Cy.
    { unfold confirmCycle. cbv zeta.
      destruct (Z.leb_spec 5 (patternMatches (trainer w) + 1)); [lia |].
      cbn. split; [exact H | lia]. }
    destruct (isExpected _ _).
    + destruct (JS.len _ <=? _); cbn; [exact Cy | split; [exact H | lia]].
    + destruct (_ && _); [| split; [exact H | lia]].
      destruct (JS.len _ <=? _); cbn; [exact Cy | split; [exact H | lia]].
Qed.

Lemma settle_keeps (P : World -> Prop) (now : Z) :
  (forall w, P w -> P (runEffect w now)) ->
  forall fuel old w, P w -> P (settle fuel old w now).
Proof.
  intros Step. induction fuel as [| fuel IH]; intros old w H; cbn [settle];
    [exact H |].
  destruct (depsChanged old w); [| exact H]. apply IH, Step, H.
Qed.

Lemma settle_learning (now : Z) (fuel : nat) :
  forall (k : Z) (old w : World),
    1 <= k -> k + Z.of_nat fuel <= 4 ->
    trainingState (trainer w) = learning
    \/ trainingState (trainer w) = locked /\ patternMatches (trainer w) <= k ->
    trainingState (trainer (settle fuel old w now)) = learning
    \/ trainingState (trainer (settle fuel old w now)) = locked.
Proof.
  induction fuel as [| fuel IH]; intros k old w K F H; cbn [settle].
  - tauto.
  - destruct (depsChanged old w); [| tauto].
    apply (IH (k + 1)); [lia | lia |].
    apply runEffect_learning; [lia | exact H].
Qed.

(** X27.  The moves between phases.  A click on the button leaves idle
    from idle and goes to idle from every other phase.  Every other event
    (a note change, a metronome tick, a settings change) keeps the trainer
    in idle or in training if it is there, takes it from learning to
    learning or locked, and from locked to locked or training: no event
    skips a phase, and only the button ends a session. *)
Theorem phase_moves (w : World) (e : Event) (now : Z) :
  let st := trainingState (trainer w) in
  let st' := trainingState (trainer (step w (e, now))) in
  match e, st with
  | Click, idle => st' <> idle
  | Click, _ => st' = idle
  | _, idle => st' = idle
  | _, learning => st' = learning \/ st' = locked
  | _, locked => st' = locked \/ st' = training
  | _, training => st' = training
  end.
Proof.
  cbv zeta. unfold step.
  assert (forall w', trainingState (trainer w') = idle ->
            trainingState (trainer (settle 3 w w' now)) = idle) as I
    by (intros w'; apply (settle_keeps _ now (fun x => runEffect_idle x now))).
  assert (forall w', trainingState (trainer w') = training ->
            trainingState (trainer (settle 3 w w' now)) = training) as T
    by (intros w'; apply (settle_keeps _ now (fun x => runEffect_training x now))).
  assert (forall w', trainingState (trainer w') = locked
                     \/ trainingState (trainer w') = training ->
            trainingState (trainer (settle 3 w w' now)) = locked
            \/ trainingState (trainer (settle 3 w w' now)) = training) as L
    by (intros w'; apply (settle_keeps _ now (fun x => runEffect_locked x now))).
  assert (forall w', trainingState (trainer w') = learning ->
            trainingState (trainer (settle 3 w w' now)) = learning
            \/ trainingState (trainer (settle 3 w w' now)) = locked) as Le.
  { intros w' H. apply (settle_learning now 3 1); [lia | simpl; lia | now left]. }
  assert (forall c, trainingState
                      (syncStreakRef (loopCallback c (trainer w) now))
                    = trainingState (trainer w)) as Tk.
  { intros c. unfold loopCallback, syncStreakRef.
    destruct c; try destruct (_ && _); reflexivity. }
  destruct e as [n | | | m | v | v]; unfold handle.
  - destruct (trainingState (trainer w)) eqn:E;
      [apply I | apply Le | apply L | apply T]; cbn [trainer]; auto.
  - destruct (trainingState (trainer w)) eqn:E;
      destruct (transportStarted (trainer w));
      try destruct (loopRef (trainer w)) as [c |];
      first [apply I | apply Le | apply L | apply T];
      cbn [trainer]; rewrite ?Tk; auto.
  - destruct (trainingState (trainer w)) eqn:E.
    + destruct (Le (mkWorld (startLearning (trainer w)) (activeNote w)) eq_refl)
        as [X | X]; rewrite X; discriminate.
    + apply I. reflexivity.
    + apply I. reflexivity.
    + apply I. reflexivity.
  - destruct (trainingState (trainer w)) eqn:E;
      [apply I | apply Le | apply L | apply T]; cbn [trainer]; auto.
  - destruct (trainingState (trainer w)) eqn:E;
      [apply I | apply Le | apply L | apply T]; cbn [trainer]; auto.
  - destruct (trainingState (trainer w)) eqn:E;
      [apply I | apply Le | apply L | apply T]; cbn [trainer]; auto.
Qed.

End PhaseMoves.
